(** * Lux, an LSP multiplexer: a shallow embedding of its core and the
  properties of its framing, session, matcher, pool and capability code.

  Go strings and byte slices are sequences of 8-bit bytes: they are modelled
  by [string] (a list of [ascii]).  Go [int] and [int64] are modelled by [Z],
  with wrap-around written out where the code can overflow.  Go maps are
  stdpp [gmap]s.  A nil pointer is [None]. *)

From Stdlib Require Import ZArith NArith Ascii String List Lia Bool.
From stdpp Require Import base option gmap strings list.

Local Open Scope Z_scope.

(** ** Go library functions used by the code *)

Module GoStrings.

(** [s1 + s2] on Go strings. *)
Fixpoint cat (s1 s2 : string) : string :=
  match s1 with
  | EmptyString => s2
  | String c r => String c (cat r s2)
  end.

Definition len (s : string) : Z := Z.of_nat (String.length s).

(** Decimal digit [0..9] as the byte ['0' + d]. *)
Definition digit_char (d : N) : ascii := ascii_of_N (48 + d).

(** Digits of [n], most significant first, prepended to [acc]. *)
Fixpoint udec_aux (fuel : nat) (n : N) (acc : string) : string :=
  let acc' := String (digit_char (n mod 10)) acc in
  match fuel with
  | O => acc'
  | S f => if (n <? 10)%N then acc' else udec_aux f (n / 10) acc'
  end.

Definition udec (n : N) : string :=
  udec_aux (N.to_nat (N.log2 n)) n EmptyString.

(** [fmt.Sprintf("%d", z)]. *)
Definition format_d (z : Z) : string :=
  if z <? 0 then String "-"%char (udec (Z.to_N (- z))) else udec (Z.to_N z).

(** Two's complement wrap-around of a 64-bit signed integer. *)
Definition wrap64 (z : Z) : Z := (z + 2 ^ 63) mod 2 ^ 64 - 2 ^ 63.

Definition in_int64 (z : Z) : Prop := - 2 ^ 63 <= z < 2 ^ 63.

Definition in_int64b (z : Z) : bool := (- 2 ^ 63 <=? z) && (z <? 2 ^ 63).

Definition byte_val (c : ascii) : Z := Z.of_N (N_of_ascii c).

Definition eqb_char (a b : ascii) : bool := Ascii.eqb a b.

(** The white space of [unicode.IsSpace] within ASCII: tab, line feed,
    vertical tab, form feed, carriage return and space. *)
Definition is_space (c : ascii) : bool :=
  let n := byte_val c in ((9 <=? n) && (n <=? 13)) || (n =? 32).

(** The white space of [unicode.IsSpace] beyond ASCII, as the bytes of its
    UTF-8 encoding: U+0085 and U+00A0 take two bytes (C2 85, C2 A0). *)
Definition is_space2 (c0 c1 : ascii) : bool :=
  (byte_val c0 =? 194) && ((byte_val c1 =? 133) || (byte_val c1 =? 160)).

(** U+1680 (E1 9A 80), U+2000 to U+200A (E2 80 80 to E2 80 8A), U+2028,
    U+2029 and U+202F (E2 80 A8, E2 80 A9, E2 80 AF), U+205F (E2 81 9F) and
    U+3000 (E3 80 80) take three. *)
Definition is_space3 (c0 c1 c2 : ascii) : bool :=
  let b0 := byte_val c0 in
  let b1 := byte_val c1 in
  let b2 := byte_val c2 in
  ((b0 =? 225) && (b1 =? 154) && (b2 =? 128))
  || ((b0 =? 226) && (b1 =? 128)
      && (((128 <=? b2) && (b2 <=? 138)) || (b2 =? 168) || (b2 =? 169) || (b2 =? 175)))
  || ((b0 =? 226) && (b1 =? 129) && (b2 =? 159))
  || ((b0 =? 227) && (b1 =? 128) && (b2 =? 128)).

(** [strings.TrimLeftFunc(s, unicode.IsSpace)]: the runes are decoded from
    the front; a byte that starts no white space rune (an ill-formed byte
    among them, which decodes to U+FFFD) ends the trimming. *)
Fixpoint trim_left (s : string) : string :=
  match s with
  | EmptyString => EmptyString
  | String c r =>
      if is_space c then trim_left r
      else
        match r with
        | EmptyString => s
        | String c1 r1 =>
            if is_space2 c c1 then trim_left r1
            else
              match r1 with
              | EmptyString => s
              | String c2 r2 => if is_space3 c c1 c2 then trim_left r2 else s
              end
        end
  end.

Fixpoint rev_onto (s acc : string) : string :=
  match s with
  | EmptyString => acc
  | String c r => rev_onto r (String c acc)
  end.

(** The bytes of [s] in reverse order. *)
Definition reverse (s : string) : string := rev_onto s EmptyString.

(** The trimming from the end, on the bytes in reverse order (the last
    byte of a rune comes first): [utf8.DecodeLastRuneInString] steps back
    to the nearest byte that starts a rune, and the lead bytes C2, E1, E2
    and E3 all do. *)
Fixpoint trim_rev (s : string) : string :=
  match s with
  | EmptyString => EmptyString
  | String c r =>
      if is_space c then trim_rev r
      else
        match r with
        | EmptyString => s
        | String c1 r1 =>
            if is_space2 c1 c then trim_rev r1
            else
              match r1 with
              | EmptyString => s
              | String c2 r2 => if is_space3 c2 c1 c then trim_rev r2 else s
              end
        end
  end.

(** [strings.TrimRightFunc(s, unicode.IsSpace)]. *)
Definition trim_right (s : string) : string := reverse (trim_rev (reverse s)).

(** [strings.TrimSpace]: leading and trailing white space, as Unicode
    defines it, is removed. *)
Definition TrimSpace (s : string) : string := trim_right (trim_left s).

(** [strings.SplitN(s, ":", 2)]: [inr (a, b)] for the two parts around the
    first colon, [inl s] for the single part when there is no colon. *)
Fixpoint SplitN_colon (s : string) : string + string * string :=
  match s with
  | EmptyString => inl EmptyString
  | String c r =>
      if eqb_char c ":"%char then inr (EmptyString, r)
      else match SplitN_colon r with
           | inl a => inl (String c a)
           | inr (a, b) => inr (String c a, b)
           end
  end.

(** ASCII lower case of one byte. *)
Definition lower_char (c : ascii) : ascii :=
  let n := byte_val c in
  if (65 <=? n) && (n <=? 90) then ascii_of_N (N_of_ascii c + 32) else c.

(** [strings.ToLower] on ASCII text (bytes from 0x80 up are kept). *)
Fixpoint ToLowerASCII (s : string) : string :=
  match s with
  | EmptyString => EmptyString
  | String c r => String (lower_char c) (ToLowerASCII r)
  end.

(** [strings.EqualFold(s, t)] for an ASCII [t] without the letters k and s
    (the only ASCII letters that fold with a letter outside ASCII): equality
    of the lower-cased bytes. *)
Definition EqualFold (s t : string) : bool :=
  String.eqb (ToLowerASCII s) (ToLowerASCII t).

(** [strings.HasPrefix]. *)
Definition HasPrefix (s p : string) : bool := String.prefix p s.

Definition digit_val (c : ascii) : option Z :=
  let n := byte_val c in
  if (48 <=? n) && (n <=? 57) then Some (n - 48) else None.

(** The digit loop of [strconv.Atoi]: [n = n*10 + int(ch - '0')]. *)
Fixpoint atoi_digits (s : string) (n : Z) : option Z :=
  match s with
  | EmptyString => Some n
  | String ch r =>
      match digit_val ch with
      | Some d => atoi_digits r (n * 10 + d)
      | None => None
      end
  end.

(** [strconv.Atoi] on a 64-bit platform: an optional sign, one digit or
    more, and the value must fit [int]; [None] for an error. *)
Definition Atoi (s : string) : option Z :=
  match s with
  | EmptyString => None
  | String c r =>
      let neg := eqb_char c "-"%char in
      let ds := if neg || eqb_char c "+"%char then r else s in
      match ds with
      | EmptyString => None
      | _ =>
          match atoi_digits ds 0 with
          | Some n =>
              let v := if neg then - n else n in
              if in_int64b v then Some v else None
          | None => None
          end
      end
  end.

(** [bufio.Reader.ReadString(10)]: the bytes up to and including the first
    line feed, and the rest; [None] when the input ends first. *)
Fixpoint ReadString_nl (inp : string) : option (string * string) :=
  match inp with
  | EmptyString => None
  | String c r =>
      if eqb_char c "010"%char then Some (String c EmptyString, r)
      else match ReadString_nl r with
           | Some (line, rest) => Some (String c line, rest)
           | None => None
           end
  end.

(** [io.ReadFull] into a buffer of [n] bytes: the [n] bytes and the rest;
    [None] when fewer than [n] bytes remain. *)
Fixpoint ReadFull (n : nat) (inp : string) : option (string * string) :=
  match n with
  | O => Some (EmptyString, inp)
  | S k =>
      match inp with
      | EmptyString => None
      | String c r =>
          match ReadFull k r with
          | Some (b, rest) => Some (String c b, rest)
          | None => None
          end
      end
  end.

End GoStrings.

(** ** package jsonrpc: messages (internal/jsonrpc/message.go) *)

Module jsonrpc.
Import GoStrings.

Definition Version : string := "2.0".

(** [type ID struct { num *int64; str *string }]. *)
Record ID := mkID { num : option Z; str : option string }.

Definition NewNumberID (n : Z) : ID := {| num := Some n; str := None |}.
Definition NewStringID (s : string) : ID := {| num := None; str := Some s |}.

(** The zero value [ID{}], the null id. *)
Definition NullID : ID := {| num := None; str := None |}.

Definition IsNull (id : ID) : bool :=
  match num id, str id with
  | None, None => true
  | _, _ => false
  end.

(** [func (id ID) String() string]. *)
Definition ID_String (id : ID) : string :=
  match num id with
  | Some n => format_d n
  | None =>
      match str id with
      | Some s => s
      | None => "<null>"
      end
  end.

(** [json.RawMessage]: the raw bytes; nil and empty are both [""]. *)
Definition RawMessage := string.

Record Error := mkError {
  Code : Z;
  EMessage : string;
  Data : RawMessage
}.

Record Message := mkMessage {
  JSONRPC : string;
  MID : option ID;
  Method : string;
  Params : RawMessage;
  Result : RawMessage;
  MError : option Error
}.

Definition ParseError : Z := -32700.
Definition InvalidRequest : Z := -32600.
Definition MethodNotFound : Z := -32601.
Definition InvalidParams : Z := -32602.
Definition InternalError : Z := -32603.
Definition ServerNotInitialized : Z := -32002.
Definition RequestCancelled : Z := -32800.
Definition ContentModified : Z := -32801.

Definition nonempty (s : string) : bool :=
  match s with EmptyString => false | _ => true end.

Definition IsRequest (m : Message) : bool :=
  match MID m with Some _ => nonempty (Method m) | None => false end.

Definition IsNotification (m : Message) : bool :=
  match MID m with None => nonempty (Method m) | Some _ => false end.

Definition IsResponse (m : Message) : bool :=
  match MID m with Some _ => negb (nonempty (Method m)) | None => false end.

(** A Go value of type [any] handed to [json.Marshal]: nil, a value that
    marshals to the given bytes, or a value whose marshalling fails. *)
Inductive AnyJSON :=
| AnyNil
| AnyOk (raw : RawMessage)
| AnyErr (err : string).

(** The common prologue of the four constructors: [rawX] stays nil for a
    nil value, is the marshalled bytes otherwise, and a marshalling error is
    returned wrapped with [what]. *)
Definition marshal_any (what : string) (a : AnyJSON) : string + RawMessage :=
  match a with
  | AnyNil => inr EmptyString
  | AnyOk raw => inr raw
  | AnyErr e => inl (cat what (cat ": " e))
  end.

Definition NewRequest (id : ID) (method : string) (params : AnyJSON)
  : string + Message :=
  match marshal_any "marshaling params" params with
  | inl e => inl e
  | inr raw => inr (mkMessage Version (Some id) method raw EmptyString None)
  end.

Definition NewNotification (method : string) (params : AnyJSON)
  : string + Message :=
  match marshal_any "marshaling params" params with
  | inl e => inl e
  | inr raw => inr (mkMessage Version None method raw EmptyString None)
  end.

Definition NewResponse (id : ID) (result : AnyJSON) : string + Message :=
  match marshal_any "marshaling result" result with
  | inl e => inl e
  | inr raw => inr (mkMessage Version (Some id) EmptyString EmptyString raw None)
  end.

Definition NewErrorResponse (id : ID) (code : Z) (message : string)
    (data : AnyJSON) : string + Message :=
  match marshal_any "marshaling error data" data with
  | inl e => inl e
  | inr raw =>
      inr (mkMessage Version (Some id) EmptyString EmptyString EmptyString
             (Some (mkError code message raw)))
  end.

(** ** package jsonrpc: the framing [Stream] *)

(** [encoding/json] at the type [Message]: [json.Marshal(msg)] and
    [json.Unmarshal(body, &msg)] on a zero [msg], [None] for an error, and
    the library's check that a byte sequence is one JSON value, with the
    fact that [Unmarshal] rejects what the check rejects. *)
Class JSONCodec := {
  json_Marshal : Message -> option string;
  json_Unmarshal : string -> option Message;
  json_Valid : string -> bool;
  json_Unmarshal_invalid :
    forall body, json_Valid body = false -> json_Unmarshal body = None
}.

(** The six error returns of [Stream.Read], in the order of the code. *)
Inductive ReadErr :=
| ErrReadingHeaderLine
| ErrInvalidHeaderLine (line : string)
| ErrParsingContentLength
| ErrMissingContentLength
| ErrReadingBody
| ErrParsingMessage.

(** What one turn of the header loop of [Stream.Read] does with the line
    it read, given the current [contentLength]. *)
Inductive HeaderStep :=
| HBreak
| HContinue (contentLength : Z)
| HFail (e : ReadErr).

Definition header_step (line0 : string) (contentLength : Z) : HeaderStep :=
  let line := TrimSpace line0 in
  match line with
  | EmptyString => HBreak
  | _ =>
      match SplitN_colon line with
      | inl _ => HFail (ErrInvalidHeaderLine line)
      | inr (p0, p1) =>
          let name := TrimSpace p0 in
          let value := TrimSpace p1 in
          if EqualFold name "Content-Length" then
            match Atoi value with
            | None => HFail ErrParsingContentLength
            | Some n => HContinue n
            end
          else HContinue contentLength
      end
  end.

(** The header loop: [inr (contentLength, rest)] after the blank line.
    Every turn consumes at least one byte, so [fuel] above the length of the
    input is never used up. *)
Fixpoint read_headers (fuel : nat) (inp : string) (contentLength : Z)
  : ReadErr + Z * string :=
  match fuel with
  | O => inl ErrReadingHeaderLine
  | S f =>
      match ReadString_nl inp with
      | None => inl ErrReadingHeaderLine
      | Some (line, rest) =>
          match header_step line contentLength with
          | HBreak => inr (contentLength, rest)
          | HContinue n => read_headers f rest n
          | HFail e => inl e
          end
      end
  end.

(** How a call ends: it returns, or the run time stops it with an error
    that nothing in the package recovers, and the program ends. *)
Inductive Outcome (A : Type) : Type :=
| Returns (a : A)
| Panics.

Arguments Returns {A} a.
Arguments Panics {A}.

(** The allocator of the run time: [make([]byte, n)] gives a buffer for
    [0 <= n <= maxAlloc] and does not return above it.  Beyond the limit of
    the run time, 2^48 bytes on the 64-bit platforms, it panics (makeslice:
    len out of range); the memory at hand may end below that limit. *)
Class Allocator := {
  maxAlloc : Z;
  maxAlloc_range : 0 <= maxAlloc <= 2 ^ 48
}.

Lemma linux_amd64_range : 0 <= 2 ^ 48 <= 2 ^ 48.
Proof. lia. Qed.

(** The allocator of linux/amd64 with memory to spare. *)
Definition linux_amd64 : Allocator := Build_Allocator (2 ^ 48) linux_amd64_range.

(** [func (s *Stream) Read()] on the unread input [inp]: the result and
    the input left unread, when the call returns. *)
Definition Stream_Read `{JSONCodec} `{Alloc : Allocator} (inp : string)
  : Outcome ((ReadErr + Message) * string) :=
  match read_headers (S (String.length inp)) inp (-1) with
  | inl e => Returns (inl e, inp)
  | inr (contentLength, rest) =>
      if contentLength <? 0 then Returns (inl ErrMissingContentLength, rest)
      else if maxAlloc <? contentLength then Panics
      else
        match ReadFull (Z.to_nat contentLength) rest with
        | None => Returns (inl ErrReadingBody, rest)
        | Some (body, rest') =>
            match json_Unmarshal body with
            | None => Returns (inl ErrParsingMessage, rest')
            | Some msg => Returns (inr msg, rest')
            end
        end
  end.

(** An [io.Writer]: the bytes it has taken so far, and its answers to the
    calls of [Write] to come.  [None] takes all of [p] and returns a nil
    error; [Some n] takes the first [n] bytes of [p] and returns an error.
    When the answers have run out, every write succeeds. *)
Record Writer := mkWriter { written : string; answers : list (option nat) }.

(** [w.Write(p)]: the writer afterwards, and whether the error is not
    nil. *)
Definition Writer_Write (w : Writer) (p : string) : Writer * bool :=
  match answers w with
  | [] => (mkWriter (cat (written w) p) [], false)
  | None :: rest => (mkWriter (cat (written w) p) rest, false)
  | Some n :: rest => (mkWriter (cat (written w) (String.substring 0 n p)) rest, true)
  end.

(** The three error returns of [Stream.Write], in the order of the code. *)
Inductive WriteErr :=
| ErrMarshaling
| ErrWritingHeader
| ErrWritingBody.

(** [func (s *Stream) Write(msg *Message) error] on the writer [w]: the
    writer afterwards and the error, [None] for nil. *)
Definition Stream_Write `{JSONCodec} (w : Writer) (msg : Message)
  : Writer * option WriteErr :=
  match json_Marshal msg with
  | None => (w, Some ErrMarshaling)
  | Some body =>
      let header := cat "Content-Length: " (cat (format_d (len body))
                      (String "013" (String "010" (String "013" (String "010" EmptyString))))) in
      let (w1, err1) := Writer_Write w header in
      if err1 then (w1, Some ErrWritingHeader)
      else
        let (w2, err2) := Writer_Write w1 body in
        if err2 then (w2, Some ErrWritingBody) else (w2, None)
  end.

(** Go [error] values that occur in the session code: an [errors.New] or
    [fmt.Errorf] error with its text, [ctx.Err()] of a finished context, and
    a [*jsonrpc.Error] returned as an error. *)
Inductive CtxErr := Canceled | DeadlineExceeded.

Inductive error :=
| errorString (text : string)
| ctxError (e : CtxErr)
| rpcError (e : Error).

(** [err.Error()]. *)
Definition error_Error (e : error) : string :=
  match e with
  | errorString s => s
  | ctxError Canceled => "context canceled"
  | ctxError DeadlineExceeded => "context deadline exceeded"
  | rpcError e =>
      cat "jsonrpc error " (cat (format_d (Code e)) (cat ": " (EMessage e)))
  end.

(** ** package jsonrpc: the session [Conn] *)

(** [type Handler func(ctx, msg)], returning a [*Message] and an [error]. *)
Definition Handler := Message -> option Message * option error.

(** A [chan *Message] made with capacity 1: its buffer and whether it has
    been closed.  A channel is named by its index in the connection's heap
    of channels. *)
Record Chan := mkChan { buf : list Message; chan_closed : bool }.

Definition ChanID := nat.

(** [type Conn struct]: [wire] is the sequence of messages that
    [c.stream.Write] has written to the peer, oldest first; [chans] holds
    the channels made by [Call]. *)
Record Conn := mkConn {
  handler : option Handler;
  pending : gmap string ChanID;
  nextID : Z;
  closed : bool;
  closeErr : option error;
  chans : list Chan;
  wire : list Message
}.

Definition NewConn (h : option Handler) : Conn :=
  mkConn h ∅ 0 false None [] [].

Definition set_pending (p : gmap string ChanID) (c : Conn) : Conn :=
  mkConn (handler c) p (nextID c) (closed c) (closeErr c) (chans c) (wire c).

Definition set_chans (h : list Chan) (c : Conn) : Conn :=
  mkConn (handler c) (pending c) (nextID c) (closed c) (closeErr c) h (wire c).

Definition set_nextID (n : Z) (c : Conn) : Conn :=
  mkConn (handler c) (pending c) n (closed c) (closeErr c) (chans c) (wire c).

Definition set_wire (w : list Message) (c : Conn) : Conn :=
  mkConn (handler c) (pending c) (nextID c) (closed c) (closeErr c) (chans c) w.

(** [c.nextID.Add(1)] on an [atomic.Int64], then [NewNumberID]. *)
Definition NextID (c : Conn) : Conn * ID :=
  let n := wrap64 (nextID c + 1) in
  (set_nextID n c, NewNumberID n).

(** [c.stream.Write(msg)] as the session sees it: [io] is the error the
    write returns ([None] for nil); a successful write puts [msg] on the
    wire. *)
Definition stream_Write (c : Conn) (msg : Message) (io : option error)
  : Conn * option error :=
  match io with
  | None => (set_wire (wire c ++ [msg]) c, None)
  | Some e => (c, Some e)
  end.

(** [ch <- msg] on a capacity-1 channel: [None] when the send cannot
    complete (unknown channel, closed channel, or full buffer). *)
Definition chan_send (ch : ChanID) (msg : Message) (h : list Chan)
  : option (list Chan) :=
  match h !! ch with
  | Some (mkChan [] false) => Some (<[ch := mkChan [msg] false]> h)
  | _ => None
  end.

(** [close(ch)]: [None] when the channel is unknown or already closed. *)
Definition chan_close (ch : ChanID) (h : list Chan) : option (list Chan) :=
  match h !! ch with
  | Some (mkChan b false) => Some (<[ch := mkChan b true]> h)
  | _ => None
  end.

(** [func (c *Conn) handleResponse(msg *Message)].  [None] when the call
    does not return: [msg.ID] is nil, or the send or close cannot
    complete. *)
Definition handleResponse (c : Conn) (msg : Message) : option Conn :=
  match MID msg with
  | None => None
  | Some id =>
      match pending c !! ID_String id with
      | Some ch =>
          let c1 := set_pending (delete (ID_String id) (pending c)) c in
          match chan_send ch msg (chans c1) with
          | Some h1 =>
              match chan_close ch h1 with
              | Some h2 => Some (set_chans h2 c1)
              | None => None
              end
          | None => None
          end
      | None => Some c
      end
  end.

(** [func (c *Conn) handleMessage(ctx, msg)]; [io] is the outcome of the
    one [c.stream.Write] it may perform.  [None] when [*msg.ID] dereferences
    nil, which [IsRequest] excludes. *)
Definition handleMessage (c : Conn) (msg : Message) (io : option error)
  : option Conn :=
  match handler c with
  | None => Some c
  | Some h =>
      match h msg with
      | (_, Some err) =>
          if IsRequest msg then
            match MID msg with
            | None => None
            | Some id =>
                match NewErrorResponse id InternalError (error_Error err) AnyNil with
                | inr errResp => Some (fst (stream_Write c errResp io))
                | inl _ => Some c
                end
            end
          else Some c
      | (Some resp, None) => Some (fst (stream_Write c resp io))
      | (None, None) => Some c
      end
  end.

(** The body of the read loop of [Run] for one message that was read:
    a response goes to [handleResponse], anything else to [handleMessage]
    (in the code, on a goroutine of its own). *)
Definition dispatch (c : Conn) (msg : Message) (io : option error)
  : option Conn :=
  if IsResponse msg then handleResponse c msg else handleMessage c msg io.

(** [Call] up to its [select]: either it has returned an error, or it
    waits on channel [ch] for the response to the request with id [id]. *)
Inductive CallStart :=
| CallFailed (err : error)
| CallWaiting (id : ID) (ch : ChanID).

Definition Call_begin (c : Conn) (method : string) (params : AnyJSON)
    (io : option error) : Conn * CallStart :=
  let (c1, id) := NextID c in
  match NewRequest id method params with
  | inl e => (c1, CallFailed (errorString e))
  | inr msg =>
      let ch := length (chans c1) in
      let c2 := set_chans (chans c1 ++ [mkChan [] false]) c1 in
      let c3 := set_pending (<[ID_String id := ch]> (pending c2)) c2 in
      match stream_Write c3 msg io with
      | (c4, Some e) =>
          (set_pending (delete (ID_String id) (pending c4)) c4, CallFailed e)
      | (c4, None) => (c4, CallWaiting id ch)
      end
  end.

(** The case of [Call]'s [select] that fires. *)
Inductive SelectCase :=
| CtxDone (e : CtxErr)
| Recv.

(** [Call]'s [select] and what follows: the connection afterwards and the
    returned [(json.RawMessage, error)].  [None] when the chosen case cannot
    fire (nothing to receive on [ch]). *)
Definition Call_select (c : Conn) (id : ID) (ch : ChanID) (sc : SelectCase)
  : option (Conn * (error + RawMessage)) :=
  match sc with
  | CtxDone e =>
      Some (set_pending (delete (ID_String id) (pending c)) c, inl (ctxError e))
  | Recv =>
      match chans c !! ch with
      | Some (mkChan (resp :: rest) cl) =>
          let c1 := set_chans (<[ch := mkChan rest cl]> (chans c)) c in
          match MError resp with
          | Some e => Some (c1, inl (rpcError e))
          | None => Some (c1, inr (Result resp))
          end
      | _ => None
      end
  end.

(** [Notify], [Reply], [ReplyError]. *)
Definition Notify (c : Conn) (method : string) (params : AnyJSON)
    (io : option error) : Conn * option error :=
  match NewNotification method params with
  | inl e => (c, Some (errorString e))
  | inr msg => stream_Write c msg io
  end.

Definition Reply (c : Conn) (id : ID) (result : AnyJSON) (io : option error)
  : Conn * option error :=
  match NewResponse id result with
  | inl e => (c, Some (errorString e))
  | inr msg => stream_Write c msg io
  end.

Definition ReplyError (c : Conn) (id : ID) (code : Z) (message : string)
    (data : AnyJSON) (io : option error) : Conn * option error :=
  match NewErrorResponse id code message data with
  | inl e => (c, Some (errorString e))
  | inr msg => stream_Write c msg io
  end.

Definition Close (c : Conn) : Conn :=
  mkConn (handler c) (pending c) (nextID c) true (closeErr c) (chans c) (wire c).

(** How [Run] ends: it returns once a read has failed, [c.closeErr] when
    the session has been closed and the error of the read (wrapped)
    otherwise; or the read does not return, and [Run], which recovers
    nothing, ends with it. *)
Inductive RunReturn :=
| ReturnCloseErr (e : option error)
| ReturnReadErr (e : ReadErr)
| RunPanics.

(** [func (c *Conn) Run(ctx)] on the unread input [inp], while no other
    goroutine uses the connection: the connection when [Run] ends, the
    messages it handed to [go c.handleMessage], oldest first, and the way
    it ends.  [None] when the fuel runs out or [handleResponse] does not
    return. *)
Fixpoint Run `{JSONCodec} `{Alloc : Allocator} (fuel : nat) (c : Conn) (inp : string)
    (spawned : list Message) : option (Conn * list Message * RunReturn) :=
  match fuel with
  | O => None
  | S f =>
      match Stream_Read inp with
      | Panics => Some (c, spawned, RunPanics)
      | Returns (inl e, _) =>
          if closed c then Some (c, spawned, ReturnCloseErr (closeErr c))
          else Some (c, spawned, ReturnReadErr e)
      | Returns (inr msg, rest) =>
          if IsResponse msg then
            match handleResponse c msg with
            | Some c' => Run f c' rest spawned
            | None => None
            end
          else Run f c rest (spawned ++ [msg])
      end
  end.

End jsonrpc.

(** ** package filematch *)

Module filematch.
Import GoStrings.

(** The library functions the matcher calls: [strings.ToLower],
    [filepath.Base], and [github.com/gobwas/glob] ([glob.Compile], with
    [None] for a compile error, and the [Match] method of a compiled
    [glob.Glob]). *)
Class MatchLibs := {
  ToLower : string -> string;
  Base : string -> string;
  Glob : Type;
  glob_Compile : string -> option Glob;
  glob_Match : Glob -> string -> bool
}.

Section Matcher.
Context `{MatchLibs}.

(** [type Matcher struct]; the two [map[string]bool] are used as sets. *)
Record Matcher := mkMatcher {
  extensions : gmap string bool;
  patterns : list Glob;
  languageIDs : gmap string bool
}.

(** [m[k]] on a [map[string]bool]: false for a missing key. *)
Definition map_get (m : gmap string bool) (k : string) : bool :=
  match m !! k with Some b => b | None => false end.

(** Lower case, and a dot in front when there is none. *)
Definition normalize_ext (ext : string) : string :=
  let normalized := ToLower ext in
  if HasPrefix normalized "." then normalized else cat "." normalized.

(** The loop of [New] over [patterns]: the compiled globs in order, [None]
    at the first pattern that does not compile. *)
Fixpoint compile_all (pats : list string) (acc : list Glob) : option (list Glob) :=
  match pats with
  | [] => Some acc
  | pattern :: rest =>
      match glob_Compile pattern with
      | None => None
      | Some g => compile_all rest (acc ++ [g])
      end
  end.

(** [func New(extensions, patterns, languageIDs []string)], [None] for the
    error return. *)
Definition New (exts pats langs : list string) : option Matcher :=
  let es := fold_left (fun m ext => <[normalize_ext ext := true]> m) exts ∅ in
  match compile_all pats [] with
  | None => None
  | Some gs =>
      let ls := fold_left (fun m langID => <[ToLower langID := true]> m) langs ∅ in
      Some (mkMatcher es gs ls)
  end.

Definition MatchesExtension (m : Matcher) (ext : string) : bool :=
  if bool_decide (size (extensions m) = 0%nat) then false
  else map_get (extensions m) (normalize_ext ext).

(** The loop of [MatchesPattern]. *)
Fixpoint any_glob (gs : list Glob) (filename path : string) : bool :=
  match gs with
  | [] => false
  | g :: rest =>
      if glob_Match g filename || glob_Match g path then true
      else any_glob rest filename path
  end.

Definition MatchesPattern (m : Matcher) (path : string) : bool :=
  if bool_decide (length (patterns m) = 0%nat) then false
  else any_glob (patterns m) (Base path) path.

Definition MatchesLanguageID (m : Matcher) (langID : string) : bool :=
  if bool_decide (size (languageIDs m) = 0%nat) then false
  else map_get (languageIDs m) (ToLower langID).

Definition nonempty (s : string) : bool :=
  match s with EmptyString => false | _ => true end.

Definition Matches (m : Matcher) (path ext languageID : string) : bool :=
  if nonempty languageID && MatchesLanguageID m languageID then true
  else if nonempty ext && MatchesExtension m ext then true
  else if nonempty path && MatchesPattern m path then true
  else false.

Record namedMatcher := mkNamed { name : string; matcher : Matcher }.

(** [type MatcherSet struct { matchers []namedMatcher }]. *)
Definition MatcherSet := list namedMatcher.

Definition NewMatcherSet : MatcherSet := [].

(** [func (ms *MatcherSet) Add], [None] for the error return (the set is
    then unchanged). *)
Definition Add (ms : MatcherSet) (nm : string) (exts pats langs : list string)
  : option MatcherSet :=
  match New exts pats langs with
  | None => None
  | Some m => Some (ms ++ [mkNamed nm m])
  end.

Fixpoint Match (ms : MatcherSet) (path ext languageID : string) : string :=
  match ms with
  | [] => EmptyString
  | nm :: rest =>
      if Matches (matcher nm) path ext languageID then name nm
      else Match rest path ext languageID
  end.

Fixpoint MatchByExtension (ms : MatcherSet) (ext : string) : string :=
  match ms with
  | [] => EmptyString
  | nm :: rest =>
      if MatchesExtension (matcher nm) ext then name nm
      else MatchByExtension rest ext
  end.

Fixpoint MatchByLanguageID (ms : MatcherSet) (langID : string) : string :=
  match ms with
  | [] => EmptyString
  | nm :: rest =>
      if MatchesLanguageID (matcher nm) langID then name nm
      else MatchByLanguageID rest langID
  end.



End Matcher.

(** A stand-in for the libraries on ASCII text, to run the matcher on
    concrete inputs: globs are literals with [?] and [*]. *)
Fixpoint last_elem (s cur : string) : string :=
  match s with
  | EmptyString => cur
  | String c r =>
      if eqb_char c "/"%char then
        match r with
        | EmptyString => cur
        | _ => last_elem r EmptyString
        end
      else last_elem r (cat cur (String c EmptyString))
  end.

Fixpoint simple_glob (fuel : nat) (pat s : string) : bool :=
  match fuel with
  | O => false
  | S f =>
      match pat with
      | EmptyString => negb (nonempty s)
      | String pc pr =>
          if eqb_char pc "*"%char then
            simple_glob f pr s ||
            match s with
            | EmptyString => false
            | String _ sr => simple_glob f pat sr
            end
          else
            match s with
            | EmptyString => false
            | String sc sr =>
                (eqb_char pc "?"%char || eqb_char pc sc) && simple_glob f pr sr
            end
      end
  end.

(** [filepath.Base] with the separator [/]: the last element once trailing
    separators are dropped, [.] for the empty path, [/] for separators
    only. *)
Definition Base_unix (p : string) : string :=
  match p with
  | EmptyString => "."
  | _ =>
      match last_elem p EmptyString with
      | EmptyString => "/"
      | b => b
      end
  end.

Definition ascii_libs : MatchLibs := {|
  ToLower := ToLowerASCII;
  Base := Base_unix;
  Glob := string;
  glob_Compile := fun p => Some p;
  glob_Match := fun g s => simple_glob (S (String.length g + String.length s)) g s
|}.

End filematch.

(** ** package lsp: the capability record *)

Module lsp.

Record CompletionOptions := mkCompletionOptions {
  TriggerCharacters : list string
}.

(** Modelled from the spec: the declaration of [lsp.ServerCapabilities] is
    not among the sources; the record has the fields that
    [defaultCapabilities] sets and section 4.5 lists ([TextDocumentSync] is
    the number of the sync kind, 1 for Full). *)
Record ServerCapabilities := mkServerCapabilities {
  TextDocumentSync : Z;
  HoverProvider : bool;
  CompletionProvider : option CompletionOptions;
  DefinitionProvider : bool;
  TypeDefinitionProvider : bool;
  ImplementationProvider : bool;
  ReferencesProvider : bool;
  DocumentSymbolProvider : bool;
  CodeActionProvider : bool;
  DocumentFormattingProvider : bool;
  DocumentRangeFormattingProvider : bool;
  RenameProvider : bool;
  FoldingRangeProvider : bool;
  SelectionRangeProvider : bool;
  WorkspaceSymbolProvider : bool
}.

End lsp.

(** ** path/filepath, as far as the sources use it *)

Module filepath.
Import GoStrings.

(** The loop of [filepath.Ext], which runs [i] from the last byte down to
    the first and stops at a separator: [Ext_loop n path] is the loop from
    [i = n - 1] on. *)
Fixpoint Ext_loop (n : nat) (path : string) : string :=
  match n with
  | O => EmptyString
  | S i =>
      match String.get i path with
      | Some c =>
          if eqb_char c "/"%char then EmptyString
          else if eqb_char c "."%char then
            String.substring i (String.length path - i) path
          else Ext_loop i path
      | None => EmptyString
      end
  end.

Definition Ext (path : string) : string := Ext_loop (String.length path) path.

End filepath.

(** ** package capabilities *)

Module capabilities.
Import lsp.

Record CachedCapabilities := mkCached { Capabilities : ServerCapabilities }.

(** What [AggregateCapabilities] calls and the sources do not include:
    [LoadCache] ([None] for an error) and [lsp.MergeCapabilities]. *)
Class CacheEnv := {
  LoadCache : string -> option CachedCapabilities;
  MergeCapabilities : list ServerCapabilities -> ServerCapabilities
}.

Definition defaultCapabilities : ServerCapabilities := {|
  TextDocumentSync := 1;
  HoverProvider := true;
  CompletionProvider := Some (mkCompletionOptions ["."]);
  DefinitionProvider := true;
  TypeDefinitionProvider := true;
  ImplementationProvider := true;
  ReferencesProvider := true;
  DocumentSymbolProvider := true;
  CodeActionProvider := true;
  DocumentFormattingProvider := true;
  DocumentRangeFormattingProvider := true;
  RenameProvider := true;
  FoldingRangeProvider := true;
  SelectionRangeProvider := true;
  WorkspaceSymbolProvider := true
|}.

(** The loop of [AggregateCapabilities]: the capabilities of the names
    whose cache loads, in order. *)
Fixpoint collect_caps `{CacheEnv} (names : list string) (caps : list ServerCapabilities)
  : list ServerCapabilities :=
  match names with
  | [] => caps
  | nm :: rest =>
      match LoadCache nm with
      | None => collect_caps rest caps
      | Some cache => collect_caps rest (caps ++ [Capabilities cache])
      end
  end.

Definition AggregateCapabilities `{CacheEnv} (names : list string) : ServerCapabilities :=
  let caps := collect_caps names [] in
  if bool_decide (length caps = 0%nat) then defaultCapabilities
  else MergeCapabilities caps.

(** An entry of a directory as [os.ReadDir] lists it. *)
Record DirEntry := mkDirEntry { entry_Name : string; entry_IsDir : bool }.

(** What [os.ReadDir(config.CapabilitiesDir())] returns: the entries, an
    error for which [os.IsNotExist] holds, or another error. *)
Inductive ReadDirResult :=
| DirEntries (entries : list DirEntry)
| DirNotExist
| DirError (err : string).

(** The loop of [LoadAllCached] over the entries. *)
Fixpoint load_entries `{CacheEnv} (entries : list DirEntry)
    (result : gmap string CachedCapabilities) : gmap string CachedCapabilities :=
  match entries with
  | [] => result
  | entry :: rest =>
      if entry_IsDir entry then load_entries rest result
      else
        let name := entry_Name entry in
        if String.eqb (filepath.Ext name) ".json" then
          let lspName := String.substring 0 (String.length name - 5) name in
          match LoadCache lspName with
          | None => load_entries rest result
          | Some cache => load_entries rest (<[lspName := cache]> result)
          end
        else load_entries rest result
  end.

(** [func LoadAllCached()], given what [os.ReadDir] returns. *)
Definition LoadAllCached `{CacheEnv} (dir : ReadDirResult)
  : string + gmap string CachedCapabilities :=
  match dir with
  | DirEntries entries => inr (load_entries entries ∅)
  | DirNotExist => inr ∅
  | DirError err => inl err
  end.

(** [func VerifyCapabilities(name, actual)]: [(matched, warnings)]. *)
Definition VerifyCapabilities `{CacheEnv} (name : string) (actual : ServerCapabilities)
  : bool * list string :=
  match LoadCache name with
  | None => (true, [])
  | Some _ => (true, [])
  end.

End capabilities.

(** ** package context, as far as the pool uses it *)

Module context.

(** A context is done once its own cancel function or that of one of its
    ancestors has been called.  A context is modelled by the chain of the
    cancel functions that finish it, its own first; [context.Background()]
    has none. *)
Definition Context := list nat.

Definition Background : Context := [].

(** The cancel functions that have been called, and the next fresh one. *)
Record Store := mkStore { cancelled : gset nat; next : nat }.

Definition empty : Store := mkStore ∅ 0.

(** [ctx, cancel := context.WithCancel(parent)]. *)
Definition WithCancel (parent : Context) (st : Store) : Context * nat * Store :=
  let i := next st in
  (i :: parent, i, mkStore (cancelled st) (S i)).

(** Calling [cancel]. *)
Definition call_cancel (i : nat) (st : Store) : Store :=
  mkStore ({[i]} ∪ cancelled st) (next st).


End context.

(** ** package subprocess: the pool (internal/subprocess/pool.go) *)

Module subprocess.
Import jsonrpc.

Inductive LSPState :=
| LSPStateIdle
| LSPStateStarting
| LSPStateRunning
| LSPStateStopping
| LSPStateStopped
| LSPStateFailed.

Definition LSPState_String (s : LSPState) : string :=
  match s with
  | LSPStateIdle => "idle"
  | LSPStateStarting => "starting"
  | LSPStateRunning => "running"
  | LSPStateStopping => "stopping"
  | LSPStateStopped => "stopped"
  | LSPStateFailed => "failed"
  end.

(** A [*Process] returned by the executor, named by a number. *)
Definition ProcessRef := nat.

(** The [*jsonrpc.Conn] made by [jsonrpc.NewConn(proc.Stdout, proc.Stdin,
    p.handler)]: it is known by the process whose pipes it speaks on. *)
Record ConnRef := mkConnRef { conn_proc : ProcessRef }.

(** [type LSPInstance struct] (without its mutex); [StartedAt] is a time
    stamp. *)
Record LSPInstance := mkInstance {
  Name : string;
  Flake : string;
  Args : list string;
  State : LSPState;
  Process : option ProcessRef;
  Conn : option ConnRef;
  Capabilities : option lsp.ServerCapabilities;
  StartedAt : Z;
  Error : option error;
  ctx : option context.Context;
  cancel : option nat
}.

(** The pool: the instances by name, the contexts' cancellations, and the
    processes on which [Kill] was called, oldest first. *)
Record Pool := mkPool {
  instances : gmap string LSPInstance;
  ctxs : context.Store;
  killed : list ProcessRef
}.

Definition NewPool : Pool := mkPool ∅ context.empty [].

Definition set_instance (nm : string) (inst : LSPInstance) (p : Pool) : Pool :=
  mkPool (<[nm := inst]> (instances p)) (ctxs p) (killed p).

Definition Register (p : Pool) (nm flake : string) (args : list string) : Pool :=
  set_instance nm
    (mkInstance nm flake args LSPStateIdle None None None 0 None None None) p.

Definition Get (p : Pool) (nm : string) : option LSPInstance := instances p !! nm.

(** What the outside world answers during one [GetOrStart]: the results of
    [executor.Build], [executor.Execute], the [initialize] call, the parsing
    of its result, the [initialized] notification, and [time.Now()]. *)
Record StartEnv := mkStartEnv {
  build : error + string;
  execute : error + ProcessRef;
  initialize : error + RawMessage;
  parse_init : error + lsp.ServerCapabilities;
  initialized : option error;
  now : Z
}.

Definition with_state (s : LSPState) (i : LSPInstance) : LSPInstance :=
  mkInstance (Name i) (Flake i) (Args i) s (Process i) (Conn i) (Capabilities i)
    (StartedAt i) (Error i) (ctx i) (cancel i).

Definition with_error (e : option error) (i : LSPInstance) : LSPInstance :=
  mkInstance (Name i) (Flake i) (Args i) (State i) (Process i) (Conn i)
    (Capabilities i) (StartedAt i) e (ctx i) (cancel i).

Definition with_ctx (c : context.Context) (k : nat) (i : LSPInstance) : LSPInstance :=
  mkInstance (Name i) (Flake i) (Args i) (State i) (Process i) (Conn i)
    (Capabilities i) (StartedAt i) (Error i) (Some c) (Some k).

Definition with_proc (pr : option ProcessRef) (cn : option ConnRef) (i : LSPInstance)
  : LSPInstance :=
  mkInstance (Name i) (Flake i) (Args i) (State i) pr cn (Capabilities i)
    (StartedAt i) (Error i) (ctx i) (cancel i).

Definition with_caps (cs : option lsp.ServerCapabilities) (i : LSPInstance)
  : LSPInstance :=
  mkInstance (Name i) (Flake i) (Args i) (State i) (Process i) (Conn i) cs
    (StartedAt i) (Error i) (ctx i) (cancel i).

Definition with_started (t : Z) (i : LSPInstance) : LSPInstance :=
  mkInstance (Name i) (Flake i) (Args i) (State i) (Process i) (Conn i)
    (Capabilities i) t (Error i) (ctx i) (cancel i).

(** [inst.State = LSPStateFailed; inst.Error = err]. *)
Definition fail (e : error) (i : LSPInstance) : LSPInstance :=
  with_error (Some e) (with_state LSPStateFailed i).

(** The result of [GetOrStart]: the instance (by name), an error, or no
    return while the instance stays Starting (the polling loop). *)
Inductive GetResult :=
| Got (nm : string)
| GetErr (e : error)
| Polling.

Definition wrap_err (what nm : string) (e : error) : error :=
  errorString (GoStrings.cat what (GoStrings.cat nm (GoStrings.cat ": " (error_Error e)))).

(** [func (p *Pool) GetOrStart(ctx, name, initParams)]; [initParams] is
    [None] for nil. *)
Definition GetOrStart (p : Pool) (dctx : context.Context) (nm : string)
    (initParams : option RawMessage) (env : StartEnv) : Pool * GetResult :=
  match instances p !! nm with
  | None => (p, GetErr (errorString (GoStrings.cat "unknown LSP: " nm)))
  | Some inst =>
      match State inst with
      | LSPStateRunning => (p, Got nm)
      | LSPStateStarting => (p, Polling)
      | _ =>
          let inst := with_state LSPStateStarting inst in
          let '(ictx, icancel, st) := context.WithCancel dctx (ctxs p) in
          let inst := with_ctx ictx icancel inst in
          let p := mkPool (instances p) st (killed p) in
          match build env with
          | inl err =>
              (set_instance nm (fail err inst) p, GetErr (wrap_err "building " nm err))
          | inr binPath =>
              match execute env with
              | inl err =>
                  (set_instance nm (fail err inst) p,
                   GetErr (wrap_err "executing " nm err))
              | inr proc =>
                  let inst := with_proc (Some proc) (Some (mkConnRef proc)) inst in
                  let failed what err :=
                    (mkPool (<[nm := fail err inst]> (instances p)) (ctxs p)
                       (killed p ++ [proc]),
                     GetErr (wrap_err what nm err)) in
                  let running inst :=
                    (set_instance nm
                       (with_error None
                          (with_started (now env) (with_state LSPStateRunning inst))) p,
                     Got nm) in
                  match initParams with
                  | None => running inst
                  | Some _ =>
                      match initialize env with
                      | inl err => failed "initializing " err
                      | inr result =>
                          match parse_init env with
                          | inl err => failed "parsing init result from " err
                          | inr caps =>
                              let inst := with_caps (Some caps) inst in
                              match initialized env with
                              | Some err =>
                                  (mkPool (<[nm := fail err inst]> (instances p))
                                     (ctxs p) (killed p ++ [proc]),
                                   GetErr (wrap_err "sending initialized to " nm err))
                              | None => running inst
                              end
                          end
                      end
                  end
              end
          end
      end
  end.

(** What the goroutine started by [GetOrStart] does when [inst.Conn.Run]
    returns an error. *)
Definition run_failed (p : Pool) (nm : string) (err : error) : Pool :=
  match instances p !! nm with
  | None => p
  | Some inst => set_instance nm (fail err inst) p
  end.

(** [func (p *Pool) Stop(name)]; [exited] tells whether the process ends
    before the five-second deadline (otherwise it is killed). *)
Definition Stop (p : Pool) (nm : string) (exited : bool) : Pool * option error :=
  match instances p !! nm with
  | None => (p, Some (errorString (GoStrings.cat "unknown LSP: " nm)))
  | Some inst =>
      match State inst with
      | LSPStateRunning =>
          let inst := with_state LSPStateStopping inst in
          let st :=
            match cancel inst with
            | Some k => context.call_cancel k (ctxs p)
            | None => ctxs p
            end in
          let kl :=
            match Process inst with
            | Some proc => if exited then killed p else killed p ++ [proc]
            | None => killed p
            end in
          let inst := with_caps None (with_proc None None (with_state LSPStateStopped inst)) in
          (mkPool (<[nm := inst]> (instances p)) st kl, None)
      | _ => (p, None)
      end
  end.

(** [func (inst *LSPInstance) Call]: [None] when the call is delegated to
    [inst.Conn], the error otherwise. *)
Definition Instance_guard (inst : LSPInstance) : option error :=
  match State inst with
  | LSPStateRunning => None
  | _ => Some (errorString
                 (GoStrings.cat "LSP " (GoStrings.cat (Name inst) " is not running")))
  end.

(** The operations on a pool, with what the outside world answers to
    each, and the two things that happen beside them: the goroutine of a
    start reports that [Run] failed, and somebody calls a cancel function. *)
Inductive PoolOp :=
| OpRegister (nm flake : string) (args : list string)
| OpGetOrStart (dctx : context.Context) (nm : string)
    (initParams : option RawMessage) (env : StartEnv)
| OpStop (nm : string) (exited : bool)
| OpRunFailed (nm : string) (err : error)
| OpCancel (k : nat).

Definition cancel_context (p : Pool) (k : nat) : Pool :=
  mkPool (instances p) (context.call_cancel k (ctxs p)) (killed p).


Definition apply_op (p : Pool) (op : PoolOp) : Pool :=
  match op with
  | OpRegister nm flake args => Register p nm flake args
  | OpGetOrStart dctx nm initParams env => fst (GetOrStart p dctx nm initParams env)
  | OpStop nm exited => fst (Stop p nm exited)
  | OpRunFailed nm err => run_failed p nm err
  | OpCancel k => cancel_context p k
  end.

Definition run_ops (p : Pool) (ops : list PoolOp) : Pool := fold_left apply_op ops p.

(** The invariant as the specification states it: process and session are
    non-null exactly in the states Running and Stopping. *)
Definition spec_invariant (i : LSPInstance) : Prop :=
  (Process i <> None /\ Conn i <> None) <->
  (State i = LSPStateRunning \/ State i = LSPStateStopping).

(** The invariant the pool keeps: a Running instance has its process and
    session, an Idle or Stopped one has neither (and no capabilities once
    Stopped), a Failed one may have kept them, and no operation leaves an
    instance Starting or Stopping. *)
Definition code_invariant (i : LSPInstance) : Prop :=
  match State i with
  | LSPStateRunning => Process i <> None /\ Conn i <> None
  | LSPStateIdle => Process i = None /\ Conn i = None
  | LSPStateStopped => Process i = None /\ Conn i = None /\ Capabilities i = None
  | LSPStateFailed => True
  | LSPStateStarting | LSPStateStopping => False
  end.

(** [func (p *Pool) StopAll()]: [names] is the order in which the range
    over the map yields the names, and [exited] tells for each whether its
    process ends before the deadline. *)
Definition StopAll (p : Pool) (names : list string) (exited : string -> bool) : Pool :=
  fold_left (fun q nm => fst (Stop q nm (exited nm))) names p.

(** One [r.Read(buf)] of the reader a [StderrLogger] runs on: the bytes
    put in the buffer, and whether an error came with them. *)
Record ReadResult := mkReadResult { read_bytes : string; read_err : bool }.

(** [func (l *StderrLogger) Run(r io.Reader)]: [reads] is what the
    successive calls of [r.Read] return, the result the arguments of the
    successive calls of [l.writer.Write]. *)
Fixpoint StderrLogger_Run (name : string) (reads : list ReadResult) : list string :=
  match reads with
  | [] => []
  | rd :: rest =>
      let written :=
        match read_bytes rd with
        | EmptyString => []
        | data => [GoStrings.cat "[" (GoStrings.cat name "] "); data]
        end in
      if read_err rd then written else written ++ StderrLogger_Run name rest
  end.

End subprocess.

(** ** encoding/json at the types of package jsonrpc

    A model of what [json.Marshal] and [json.Unmarshal] do with a
    [Message]: the struct tags of [Message] and [Error] give the keys, their
    order and [omitempty]; [ID] and [json.RawMessage] go through their
    [MarshalJSON] and [UnmarshalJSON] methods.  Text is handled byte by
    byte as the library handles ASCII; bytes from 0x80 up are copied (the
    library does so for valid UTF-8, except that compaction escapes U+2028
    and U+2029 as here).  Keys are matched exactly or, failing that, up to
    ASCII case. *)

Module gojson.
Import GoStrings jsonrpc.

Definition dquote : ascii := "034"%char.
Definition bslash : ascii := "092"%char.

Definition str1 (c : ascii) : string := String c EmptyString.

Definition is_char (c : ascii) (k : Z) : bool := byte_val c =? k.

(** The white space of JSON: space, tab, carriage return, line feed. *)
Definition is_ws (c : ascii) : bool :=
  is_char c 32 || is_char c 9 || is_char c 13 || is_char c 10.

Definition is_digit (c : ascii) : bool :=
  (48 <=? byte_val c) && (byte_val c <=? 57).

Definition is_hex (c : ascii) : bool :=
  is_digit c
  || ((97 <=? byte_val c) && (byte_val c <=? 102))
  || ((65 <=? byte_val c) && (byte_val c <=? 70)).

Definition hex_char (n : Z) : ascii :=
  if n <? 10 then ascii_of_N (Z.to_N (48 + n)) else ascii_of_N (Z.to_N (87 + n)).

(** The six bytes [\u00XY] for the byte [c]. *)
Definition u00 (c : ascii) : string :=
  String bslash (String "u" (String "0" (String "0"
    (String (hex_char (byte_val c / 16)) (str1 (hex_char (byte_val c mod 16))))))).

(** One byte of a string as the encoder writes it (HTML escaping on). *)
Definition escape_byte (c : ascii) : string :=
  let n := byte_val c in
  if (n =? 34) || (n =? 92) then String bslash (str1 c)
  else if n =? 8 then String bslash "b"
  else if n =? 12 then String bslash "f"
  else if n =? 10 then String bslash "n"
  else if n =? 13 then String bslash "r"
  else if n =? 9 then String bslash "t"
  else if (n <? 32) || (n =? 60) || (n =? 62) || (n =? 38) then u00 c
  else str1 c.

Fixpoint escape (s : string) : string :=
  match s with
  | EmptyString => EmptyString
  | String c r => cat (escape_byte c) (escape r)
  end.

(** A Go string as a JSON string literal. *)
Definition quote (s : string) : string :=
  String dquote (cat (escape s) (str1 dquote)).

(** The result of reading one piece of JSON text: the exact bytes read,
    the same bytes as compaction writes them, and the rest of the input. *)
Definition Piece := option (string * string * string).

Definition piece_cons (c : string) (k : string) (p : Piece) : Piece :=
  match p with
  | Some (l, o, rest) => Some (cat c l, cat k o, rest)
  | None => None
  end.

(** The white space at the front of [s], and what follows. *)
Fixpoint ws (s : string) : string * string :=
  match s with
  | EmptyString => (EmptyString, EmptyString)
  | String c r =>
      if is_ws c then let (w, rest) := ws r in (String c w, rest)
      else (EmptyString, s)
  end.

(** A string literal after its opening quote, up to and including the
    closing quote.  Compaction escapes [<], [>], [&] and U+2028, U+2029. *)
Fixpoint pstr_body (s : string) : Piece :=
  match s with
  | EmptyString => None
  | String c r =>
      if is_char c 34 then Some (str1 c, str1 c, r)
      else if is_char c 92 then
        match r with
        | EmptyString => None
        | String e r2 =>
            if is_char e 98 || is_char e 102 || is_char e 110 || is_char e 114
               || is_char e 116 || is_char e 92 || is_char e 47 || is_char e 34
            then piece_cons (String c (str1 e)) (String c (str1 e)) (pstr_body r2)
            else if is_char e 117 then
              match r2 with
              | String h1 (String h2 (String h3 (String h4 r6))) =>
                  if is_hex h1 && is_hex h2 && is_hex h3 && is_hex h4 then
                    let esc := String c (String e (String h1 (String h2 (String h3 (str1 h4))))) in
                    piece_cons esc esc (pstr_body r6)
                  else None
              | _ => None
              end
            else None
        end
      else if byte_val c <? 32 then None
      else if is_char c 60 || is_char c 62 || is_char c 38 then
        piece_cons (str1 c) (u00 c) (pstr_body r)
      else if is_char c 226 then
        match r with
        | String c1 (String c2 r3) =>
            if is_char c1 128 && (is_char c2 168 || is_char c2 169) then
              piece_cons (String c (String c1 (str1 c2)))
                (String bslash (String "u" (String "2" (String "0" (String "2"
                   (str1 (hex_char (byte_val c2 mod 16))))))))
                (pstr_body r3)
            else piece_cons (str1 c) (str1 c) (pstr_body r)
        | _ => piece_cons (str1 c) (str1 c) (pstr_body r)
        end
      else piece_cons (str1 c) (str1 c) (pstr_body r)
  end.

Fixpoint span_digits (s : string) : string * string :=
  match s with
  | EmptyString => (EmptyString, EmptyString)
  | String c r =>
      if is_digit c then let (d, rest) := span_digits r in (String c d, rest)
      else (EmptyString, s)
  end.

(** A piece of a number literal at the front of the input: the bytes
    taken and the rest. *)
Definition Sub := string -> option (string * string).

Definition seq2 (p q : Sub) : Sub := fun s =>
  match p s with
  | Some (l1, r1) =>
      match q r1 with
      | Some (l2, r2) => Some (cat l1 l2, r2)
      | None => None
      end
  | None => None
  end.

(** An optional byte that satisfies [f]. *)
Definition opt_char (f : ascii -> bool) : Sub := fun s =>
  match s with
  | String c r => if f c then Some (str1 c, r) else Some (EmptyString, s)
  | EmptyString => Some (EmptyString, s)
  end.

(** One digit or more. *)
Definition digits1 : Sub := fun s =>
  match span_digits s with
  | (EmptyString, _) => None
  | (d, rest) => Some (d, rest)
  end.

(** A zero, or a digit from 1 to 9 followed by digits. *)
Definition int_part : Sub := fun s =>
  match s with
  | String c r =>
      if is_char c 48 then Some (str1 c, r)
      else if is_digit c then let (d, rest) := span_digits r in Some (String c d, rest)
      else None
  | EmptyString => None
  end.

(** [p] after a byte that satisfies [f], or nothing when the input does
    not start with such a byte. *)
Definition opt_after (f : ascii -> bool) (p : Sub) : Sub := fun s =>
  match s with
  | String c r =>
      if f c then
        match p r with
        | Some (l, rest) => Some (String c l, rest)
        | None => None
        end
      else Some (EmptyString, s)
  | EmptyString => Some (EmptyString, s)
  end.

Definition frac_part : Sub := opt_after (fun c => is_char c 46) digits1.

Definition exp_part : Sub :=
  opt_after (fun c => is_char c 101 || is_char c 69)
    (seq2 (opt_char (fun c => is_char c 43 || is_char c 45)) digits1).

(** A number literal: sign, integer part, fraction, exponent. *)
Definition pnumber : Sub :=
  seq2 (opt_char (fun c => is_char c 45)) (seq2 int_part (seq2 frac_part exp_part)).

Fixpoint strip_prefix (w s : string) : option string :=
  match w with
  | EmptyString => Some s
  | String a w' =>
      match s with
      | String b s' => if eqb_char a b then strip_prefix w' s' else None
      | EmptyString => None
      end
  end.

Definition pword (w s : string) : Piece :=
  match strip_prefix w s with
  | Some rest => Some (w, w, rest)
  | None => None
  end.

(** The deepest nesting of arrays and objects the library's scanner
    accepts. *)
Definition maxNestingDepth : Z := 10000.

(** One JSON value at the front of [s] (no white space before it), with
    [depth] levels of nesting still allowed; [pelems] reads the elements of
    an array up to its closing bracket and [pmembers] the members of an
    object up to its closing brace. *)
Fixpoint pvalue (fuel : nat) (depth : Z) (s : string) : Piece :=
  match fuel with
  | O => None
  | S f =>
      match s with
      | EmptyString => None
      | String c r =>
          if is_char c 34 then piece_cons (str1 c) (str1 c) (pstr_body r)
          else if is_char c 123 then
            if depth <=? 0 then None
            else
              let (w, r1) := ws r in
              match r1 with
              | String c1 r2 =>
                  if is_char c1 125 then Some (String c (cat w (str1 c1)), String c (str1 c1), r2)
                  else piece_cons (String c w) (str1 c) (pmembers f (depth - 1) r1)
              | EmptyString => None
              end
          else if is_char c 91 then
            if depth <=? 0 then None
            else
              let (w, r1) := ws r in
              match r1 with
              | String c1 r2 =>
                  if is_char c1 93 then Some (String c (cat w (str1 c1)), String c (str1 c1), r2)
                  else piece_cons (String c w) (str1 c) (pelems f (depth - 1) r1)
              | EmptyString => None
              end
          else if is_char c 116 then pword "true" s
          else if is_char c 102 then pword "false" s
          else if is_char c 110 then pword "null" s
          else
            match pnumber s with
            | Some (l, rest) => Some (l, l, rest)
            | None => None
            end
      end
  end
with pelems (fuel : nat) (depth : Z) (s : string) : Piece :=
  match fuel with
  | O => None
  | S f =>
      match pvalue f depth s with
      | None => None
      | Some (l, o, r) =>
          let (w1, r1) := ws r in
          match r1 with
          | String c r2 =>
              if is_char c 93 then Some (cat l (cat w1 (str1 c)), cat o (str1 c), r2)
              else if is_char c 44 then
                let (w2, r3) := ws r2 in
                piece_cons (cat l (cat w1 (String c w2))) (cat o (str1 c)) (pelems f depth r3)
              else None
          | EmptyString => None
          end
      end
  end
with pmembers (fuel : nat) (depth : Z) (s : string) : Piece :=
  match fuel with
  | O => None
  | S f =>
      match s with
      | String q r =>
          if is_char q 34 then
            match pstr_body r with
            | None => None
            | Some (kl, ko, rk) =>
                let (w0, r0) := ws rk in
                match r0 with
                | String cc rc =>
                    if is_char cc 58 then
                      let (wv, rv) := ws rc in
                      match pvalue f depth rv with
                      | None => None
                      | Some (l, o, r) =>
                          let lit := cat (String q kl) (cat w0 (String cc (cat wv l))) in
                          let out := cat (String q ko) (String cc o) in
                          let (w1, r1) := ws r in
                          match r1 with
                          | String c r2 =>
                              if is_char c 125 then
                                Some (cat lit (cat w1 (str1 c)), cat out (str1 c), r2)
                              else if is_char c 44 then
                                let (w2, r3) := ws r2 in
                                piece_cons (cat lit (cat w1 (String c w2))) (cat out (str1 c))
                                  (pmembers f depth r3)
                              else None
                          | EmptyString => None
                          end
                      end
                    else None
                | EmptyString => None
                end
            end
          else None
      | EmptyString => None
      end
  end.

(** A whole input that is one JSON value with white space around it: the
    value's bytes and their compaction. *)
Definition pdocument (data : string) : option (string * string) :=
  let (_, s) := ws data in
  match pvalue (S (String.length s)) maxNestingDepth s with
  | None => None
  | Some (l, o, r) =>
      match ws r with
      | (_, EmptyString) => Some (l, o)
      | _ => None
      end
  end.

(** The library's [Valid] / [checkValid]. *)
Definition Valid (data : string) : bool :=
  match pdocument data with Some _ => true | None => false end.

(** Compaction of the bytes a [MarshalJSON] method returned. *)
Definition compact (data : string) : option string :=
  match pdocument data with Some (_, o) => Some o | None => None end.

(** *** Marshal *)

(** A key of a struct field and its colon. *)
Definition key (k : string) : string :=
  String dquote (cat k (String dquote ":")).

(** [func (id ID) MarshalJSON()]. *)
Definition ID_MarshalJSON (id : ID) : string :=
  match num id with
  | Some n => format_d n
  | None =>
      match str id with
      | Some s => quote s
      | None => "null"
      end
  end.

(** The members of a struct, joined by commas, and the struct in its
    braces. *)
Fixpoint print_members (fs : list (string * string)) : string :=
  match fs with
  | [] => EmptyString
  | [(k, v)] => cat (key k) v
  | (k, v) :: rest => cat (key k) (cat v (String "," (print_members rest)))
  end.

Definition print_object (fs : list (string * string)) : string :=
  String "{" (cat (print_members fs) "}").

(** A field whose value goes through a [MarshalJSON] method: the key with
    the compacted bytes, nothing when [omit]; [None] when the bytes are not
    valid JSON. *)
Definition marshaler_field (omit : bool) (k : string) (bytes : string)
  : option (list (string * string)) :=
  if omit then Some []
  else match compact bytes with
       | Some o => Some [(k, o)]
       | None => None
       end.

(** A field of type [json.RawMessage] with [omitempty]. *)
Definition raw_field (k : string) (raw : RawMessage) : option (list (string * string)) :=
  marshaler_field (negb (nonempty raw)) k raw.

Definition Error_fields (e : Error) : option (list (string * string)) :=
  match raw_field "data" (Data e) with
  | None => None
  | Some d => Some ([("code", format_d (Code e)); ("message", quote (EMessage e))] ++ d)
  end.

(** The fields of a [Message] that are written, in the order of the
    struct, each with its bytes. *)
Definition Message_fields (m : Message) : option (list (string * string)) :=
  match
    match MID m with
    | None => Some []
    | Some id => marshaler_field false "id" (ID_MarshalJSON id)
    end,
    raw_field "params" (Params m),
    raw_field "result" (Result m),
    match MError m with
    | None => Some []
    | Some e => option_map (fun fs => [("error", print_object fs)]) (Error_fields e)
    end
  with
  | Some fid, Some fparams, Some fresult, Some ferror =>
      let fmethod :=
        if nonempty (Method m) then [("method", quote (Method m))] else [] in
      Some ([("jsonrpc", quote (JSONRPC m))] ++ fid ++ fmethod ++ fparams ++ fresult ++ ferror)
  | _, _, _, _ => None
  end.

(** [json.Marshal(msg)] for a [*Message]. *)
Definition Marshal (m : Message) : option string :=
  option_map print_object (Message_fields m).

(** *** Unmarshal *)

Definition hex_val (c : ascii) : Z :=
  let n := byte_val c in
  if is_digit c then n - 48
  else if (97 <=? n) && (n <=? 102) then n - 87
  else n - 55.

Definition chr (n : Z) : ascii := ascii_of_N (Z.to_N n).

(** [utf8.EncodeRune] for a code point below 0x110000. *)
Definition encode_rune (cp : Z) : string :=
  if cp <? 128 then str1 (chr cp)
  else if cp <? 2048 then String (chr (192 + cp / 64)) (str1 (chr (128 + cp mod 64)))
  else if cp <? 65536 then
    String (chr (224 + cp / 4096))
      (String (chr (128 + (cp / 64) mod 64)) (str1 (chr (128 + cp mod 64))))
  else
    String (chr (240 + cp / 262144))
      (String (chr (128 + (cp / 4096) mod 64))
         (String (chr (128 + (cp / 64) mod 64)) (str1 (chr (128 + cp mod 64))))).

Definition hex4 (h1 h2 h3 h4 : ascii) : Z :=
  ((hex_val h1 * 16 + hex_val h2) * 16 + hex_val h3) * 16 + hex_val h4.

(** The byte for the escape letter [e] of a two-byte escape. *)
Definition unescape_char (e : ascii) : option ascii :=
  if is_char e 98 then Some (chr 8)
  else if is_char e 102 then Some (chr 12)
  else if is_char e 110 then Some (chr 10)
  else if is_char e 114 then Some (chr 13)
  else if is_char e 116 then Some (chr 9)
  else if is_char e 92 || is_char e 47 || is_char e 34 then Some e
  else None.

Definition replacement_char : Z := 65533.

(** The text of a string literal after its opening quote, which must end
    with the closing quote. *)
Fixpoint unquote_body (s : string) : option string :=
  match s with
  | EmptyString => None
  | String c r =>
      if is_char c 34 then
        match r with EmptyString => Some EmptyString | _ => None end
      else if is_char c 92 then
        match r with
        | EmptyString => None
        | String e r2 =>
            if is_char e 117 then
              match r2 with
              | String h1 (String h2 (String h3 (String h4 r6))) =>
                  if is_hex h1 && is_hex h2 && is_hex h3 && is_hex h4 then
                    let rr := hex4 h1 h2 h3 h4 in
                    if (55296 <=? rr) && (rr <? 57344) then
                      match r6 with
                      | String b (String u (String g1 (String g2 (String g3 (String g4 r12))))) =>
                          let rr1 := hex4 g1 g2 g3 g4 in
                          if is_char b 92 && is_char u 117
                             && is_hex g1 && is_hex g2 && is_hex g3 && is_hex g4
                             && (rr <? 56320) && (56320 <=? rr1) && (rr1 <? 57344)
                          then
                            option_map
                              (cat (encode_rune (65536 + (rr - 55296) * 1024 + (rr1 - 56320))))
                              (unquote_body r12)
                          else option_map (cat (encode_rune replacement_char)) (unquote_body r6)
                      | _ => option_map (cat (encode_rune replacement_char)) (unquote_body r6)
                      end
                    else option_map (cat (encode_rune rr)) (unquote_body r6)
                  else None
              | _ => None
              end
            else
              match unescape_char e with
              | Some b => option_map (String b) (unquote_body r2)
              | None => None
              end
        end
      else option_map (String c) (unquote_body r)
  end.

(** A string literal to the Go string it denotes. *)
Definition unquote (lit : string) : option string :=
  match lit with
  | String c r => if is_char c 34 then unquote_body r else None
  | EmptyString => None
  end.

(** The kind of the value a literal starts. *)
Inductive Kind := KString | KObject | KArray | KBool | KNull | KNumber.

Definition kind_of (lit : string) : Kind :=
  match lit with
  | String c _ =>
      if is_char c 34 then KString
      else if is_char c 123 then KObject
      else if is_char c 91 then KArray
      else if is_char c 116 || is_char c 102 then KBool
      else if is_char c 110 then KNull
      else KNumber
  | EmptyString => KNull
  end.

(** The members of a non-empty object, from its first key on: each key
    (decoded) with the exact bytes of its value. *)
Fixpoint split_members (fuel : nat) (s : string) : option (list (string * string)) :=
  match fuel with
  | O => None
  | S f =>
      match s with
      | String q r =>
          match pstr_body r with
          | None => None
          | Some (kl, _, rk) =>
              match unquote (String q kl) with
              | None => None
              | Some k =>
                  let (_, r0) := ws rk in
                  match r0 with
                  | String _ rc =>
                      let (_, rv) := ws rc in
                      match pvalue (S (String.length rv)) maxNestingDepth rv with
                      | None => None
                      | Some (l, _, r) =>
                          let (_, r1) := ws r in
                          match r1 with
                          | String c r2 =>
                              if is_char c 44 then
                                let (_, r3) := ws r2 in
                                match split_members f r3 with
                                | Some ms => Some ((k, l) :: ms)
                                | None => None
                                end
                              else Some [(k, l)]
                          | EmptyString => None
                          end
                      end
                  | EmptyString => None
                  end
              end
          end
      | EmptyString => None
      end
  end.

(** The members of an object literal. *)
Definition object_members (lit : string) : option (list (string * string)) :=
  match lit with
  | String _ r =>
      let (_, r1) := ws r in
      match r1 with
      | String c _ =>
          if is_char c 125 then Some [] else split_members (String.length r1) r1
      | EmptyString => None
      end
  | EmptyString => None
  end.

(** A value for a field of type [string]: null leaves the field, a string
    sets it, anything else is a type error. *)
Definition decode_string (lit cur : string) : option string :=
  match kind_of lit with
  | KNull => Some cur
  | KString => unquote lit
  | _ => None
  end.

(** A value for a field of type [int]. *)
Definition decode_int (lit : string) (cur : Z) : option Z :=
  match kind_of lit with
  | KNull => Some cur
  | KNumber => Atoi lit
  | _ => None
  end.

(** [func (id *ID) UnmarshalJSON(data)] on the id [cur]: null leaves the
    id as it is, a number that fits int64 sets [num], a string sets [str],
    and anything else is an error. *)
Definition ID_UnmarshalJSON (data : string) (cur : ID) : option ID :=
  match kind_of data with
  | KNull => Some cur
  | KNumber =>
      match Atoi data with
      | Some n => Some (mkID (Some n) (str cur))
      | None => None
      end
  | KString =>
      match unquote data with
      | Some s => Some (mkID (num cur) (Some s))
      | None => None
      end
  | _ => None
  end.

(** A value for the field [ID *ID].  The library treats null first: "to
    unmarshal JSON into a pointer, Unmarshal first handles the case of the
    JSON being the JSON literal null; in that case, Unmarshal sets the
    pointer to nil", without calling [UnmarshalJSON].  Any other value is
    handed to [UnmarshalJSON] on the id pointed to, a new zero id when the
    pointer is nil. *)
Definition decode_id (lit : string) (cur : option ID) : option (option ID) :=
  match kind_of lit with
  | KNull => Some None
  | _ =>
      match ID_UnmarshalJSON lit (default NullID cur) with
      | Some id => Some (Some id)
      | None => None
      end
  end.

Definition assign_Error (e : Error) (kv : string * string) : option Error :=
  let (k, lit) := kv in
  let f := ToLowerASCII k in
  if String.eqb f "code" then
    option_map (fun c => mkError c (EMessage e) (Data e)) (decode_int lit (Code e))
  else if String.eqb f "message" then
    option_map (fun s => mkError (Code e) s (Data e)) (decode_string lit (EMessage e))
  else if String.eqb f "data" then Some (mkError (Code e) (EMessage e) lit)
  else Some e.

Fixpoint assign_all {A} (assign : A -> string * string -> option A)
    (ms : list (string * string)) (a : A) : option A :=
  match ms with
  | [] => Some a
  | kv :: rest =>
      match assign a kv with
      | Some a' => assign_all assign rest a'
      | None => None
      end
  end.

(** A value for the field [Error *Error]. *)
Definition decode_error (lit : string) (cur : option Error) : option (option Error) :=
  match kind_of lit with
  | KNull => Some None
  | KObject =>
      match object_members lit with
      | Some ms =>
          option_map Some
            (assign_all assign_Error ms (default (mkError 0 EmptyString EmptyString) cur))
      | None => None
      end
  | _ => None
  end.

Definition assign_Message (m : Message) (kv : string * string) : option Message :=
  let (k, lit) := kv in
  let f := ToLowerASCII k in
  if String.eqb f "jsonrpc" then
    option_map (fun s => mkMessage s (MID m) (Method m) (Params m) (Result m) (MError m))
      (decode_string lit (JSONRPC m))
  else if String.eqb f "id" then
    option_map (fun i => mkMessage (JSONRPC m) i (Method m) (Params m) (Result m) (MError m))
      (decode_id lit (MID m))
  else if String.eqb f "method" then
    option_map (fun s => mkMessage (JSONRPC m) (MID m) s (Params m) (Result m) (MError m))
      (decode_string lit (Method m))
  else if String.eqb f "params" then
    Some (mkMessage (JSONRPC m) (MID m) (Method m) lit (Result m) (MError m))
  else if String.eqb f "result" then
    Some (mkMessage (JSONRPC m) (MID m) (Method m) (Params m) lit (MError m))
  else if String.eqb f "error" then
    option_map (fun e => mkMessage (JSONRPC m) (MID m) (Method m) (Params m) (Result m) e)
      (decode_error lit (MError m))
  else Some m.

Definition zeroMessage : Message :=
  mkMessage EmptyString None EmptyString EmptyString EmptyString None.

(** [json.Unmarshal(body, &msg)] for a zero [msg]: the body must be valid
    JSON; null leaves [msg] as it is, an object sets the fields its members
    name, any other value is a type error. *)
Definition Unmarshal (body : string) : option Message :=
  match pdocument body with
  | None => None
  | Some (lit, _) =>
      match kind_of lit with
      | KNull => Some zeroMessage
      | KObject =>
          match object_members lit with
          | Some ms => assign_all assign_Message ms zeroMessage
          | None => None
          end
      | _ => None
      end
  end.

Lemma Unmarshal_invalid body : Valid body = false -> Unmarshal body = None.
Proof.
  unfold Valid, Unmarshal. destruct (pdocument body) as [[l o]|]; [discriminate | reflexivity].
Qed.

(** The codec of the Go library. *)
#[export] Instance GoJSON : JSONCodec := {|
  json_Marshal := Marshal;
  json_Unmarshal := Unmarshal;
  json_Valid := Valid;
  json_Unmarshal_invalid := Unmarshal_invalid
|}.

End gojson.

(** ** package mcp: the line transport and the tool registry *)

Module mcp.
Import GoStrings jsonrpc.









Section Registry.

(** [ToolCallResult] and [ErrorResult] are declared outside the sources. *)
Context {ToolCallResult : Type} (ErrorResult : string -> ToolCallResult).

Definition ToolHandler := RawMessage -> ToolCallResult * option error.

Record Tool := mkTool {
  Name : string;
  Description : string;
  InputSchema : RawMessage
}.

Record ToolRegistry := mkToolRegistry {
  tools : list Tool;
  handlers : gmap string ToolHandler
}.

(** The registry before [registerBuiltinTools]. *)
Definition emptyRegistry : ToolRegistry := mkToolRegistry [] ∅.

Definition List (r : ToolRegistry) : list Tool := tools r.

Definition Call (r : ToolRegistry) (name : string) (args : RawMessage)
  : ToolCallResult * option error :=
  match handlers r !! name with
  | None => (ErrorResult (cat "unknown tool: " name), None)
  | Some handler => handler args
  end.

Definition register (r : ToolRegistry) (name description : string)
    (schema : RawMessage) (handler : ToolHandler) : ToolRegistry :=
  mkToolRegistry (tools r ++ [mkTool name description schema])
    (<[name := handler]> (handlers r)).

End Registry.

End mcp.

(** * Properties *)

(** ** The session: correlation of responses, handler errors, cancellation *)

Module session_facts.
Import GoStrings jsonrpc.

(** Every pending call waits on a channel of its own that is open and
    empty. *)
Definition wf (c : Conn) : Prop :=
  forall k ch, pending c !! k = Some ch ->
    chans c !! ch = Some (mkChan [] false) /\
    (forall k', pending c !! k' = Some ch -> k' = k).

Lemma wf_NewConn h : wf (NewConn h).
Proof. intros k ch Hk. cbn in Hk. by rewrite lookup_empty in Hk. Qed.

Lemma wf_delete c k :
  wf c -> wf (set_pending (delete k (pending c)) c).
Proof.
  intros Hwf k1 ch H1. cbn in *.
  apply lookup_delete_Some in H1 as [Hne H1].
  destruct (Hwf _ _ H1) as [Hch Hinj]. split; [done|].
  intros k' Hk'. apply lookup_delete_Some in Hk' as [_ Hk']. by apply Hinj.
Qed.

Lemma wf_set_wire c w : wf c -> wf (set_wire w c).
Proof. intros Hwf k ch Hk. exact (Hwf k ch Hk). Qed.

Lemma wf_set_nextID c n : wf c -> wf (set_nextID n c).
Proof. intros Hwf k ch Hk. exact (Hwf k ch Hk). Qed.

Lemma wf_stream_Write c msg io : wf c -> wf (fst (stream_Write c msg io)).
Proof. intros Hwf. destruct io; cbn; [done|]. by apply wf_set_wire. Qed.

(** What [handleResponse] does for a response whose key is pending. *)
Lemma handleResponse_pending c msg id ch :
  wf c -> MID msg = Some id -> pending c !! ID_String id = Some ch ->
  handleResponse c msg =
    Some (set_chans (<[ch := mkChan [msg] true]> (chans c))
            (set_pending (delete (ID_String id) (pending c)) c)).
Proof.
  intros Hwf Hid Hp. unfold handleResponse. rewrite Hid, Hp.
  destruct (Hwf _ _ Hp) as [Hch _].
  unfold chan_send. cbn [chans set_pending]. rewrite Hch.
  unfold chan_close.
  assert (Hlt : (ch < length (chans c))%nat) by (eapply lookup_lt_Some; eauto).
  rewrite list_lookup_insert_eq by done.
  by rewrite list_insert_insert_eq.
Qed.

Lemma wf_handleResponse c msg c' :
  wf c -> handleResponse c msg = Some c' -> wf c'.
Proof.
  intros Hwf H.
  destruct (MID msg) as [id|] eqn:Hid;
    [|unfold handleResponse in H; rewrite Hid in H; discriminate].
  destruct (pending c !! ID_String id) as [ch|] eqn:Hp;
    [|unfold handleResponse in H; rewrite Hid, Hp in H; by inversion H; subst].
  rewrite (handleResponse_pending c msg id ch Hwf Hid Hp) in H.
  inversion H; subst; clear H.
  intros k ch' Hk. cbn in *.
  apply lookup_delete_Some in Hk as [Hne Hk].
  destruct (Hwf _ _ Hk) as [Hch Hinj]. split.
  - rewrite list_lookup_insert_ne; [done|].
    intros ->. apply Hne. by apply Hinj.
  - intros k' Hk'. apply lookup_delete_Some in Hk' as [_ Hk']. by apply Hinj.
Qed.

Lemma wf_handleMessage c msg io c' :
  wf c -> handleMessage c msg io = Some c' -> wf c'.
Proof.
  intros Hwf H. unfold handleMessage in H.
  destruct (handler c) as [h|]; [|by inversion H; subst].
  destruct (h msg) as [[resp|] [err|]].
  - destruct (IsRequest msg); [|by inversion H; subst].
    destruct (MID msg); [|discriminate].
    cbn in H. inversion H; subst. by apply wf_stream_Write.
  - inversion H; subst. by apply wf_stream_Write.
  - destruct (IsRequest msg); [|by inversion H; subst].
    destruct (MID msg); [|discriminate].
    cbn in H. inversion H; subst. by apply wf_stream_Write.
  - by inversion H; subst.
Qed.

Lemma wf_Call_begin c method params io c' r :
  wf c -> Call_begin c method params io = (c', r) -> wf c'.
Proof.
  intros Hwf H. unfold Call_begin, NextID in H. cbn in H.
  destruct (NewRequest _ method params) as [e|msg].
  { inversion H; subst. by apply wf_set_nextID. }
  set (id := NewNumberID (wrap64 (nextID c + 1))) in *.
  set (c3 := set_pending _ _) in H.
  assert (Hwf3 : wf c3).
  { intros k ch Hk. subst c3. cbn in *.
    destruct (decide (k = ID_String id)) as [->|Hne].
    - rewrite lookup_insert_eq in Hk. inversion Hk; subst ch. split.
      + by rewrite lookup_app_r, Nat.sub_diag.
      + intros k' Hk'. destruct (decide (k' = ID_String id)) as [->|Hne']; [done|].
        rewrite lookup_insert_ne in Hk' by done.
        destruct (Hwf _ _ Hk') as [Hch _]. apply lookup_lt_Some in Hch. lia.
    - rewrite lookup_insert_ne in Hk by done.
      destruct (Hwf _ _ Hk) as [Hch Hinj]. split.
      + rewrite lookup_app_l; [done|]. by eapply lookup_lt_Some.
      + intros k' Hk'. destruct (decide (k' = ID_String id)) as [->|Hne'].
        * rewrite lookup_insert_eq in Hk'. inversion Hk'; subst ch.
          apply lookup_lt_Some in Hch. lia.
        * rewrite lookup_insert_ne in Hk' by done. by apply Hinj. }
  destruct io as [e|]; cbn in H; inversion H; subst.
  - by apply wf_delete.
  - by apply wf_set_wire.
Qed.

Lemma wf_Call_select c id ch sc c' r :
  wf c -> Call_select c id ch sc = Some (c', r) -> wf c'.
Proof.
  intros Hwf H. destruct sc as [e|]; cbn in H.
  - inversion H; subst. by apply wf_delete.
  - destruct (chans c !! ch) as [[[|resp rest] cl]|] eqn:Hch; try discriminate.
    assert (Hc' : c' = set_chans (<[ch := mkChan rest cl]> (chans c)) c)
      by (destruct (MError resp); inversion H; reflexivity).
    subst c'. intros k ch' Hk. cbn in *.
    destruct (Hwf _ _ Hk) as [Hch' Hinj]. split; [|done].
    rewrite list_lookup_insert_ne; [done|]. intros ->. congruence.
Qed.

(** One step of a connection: a call reaches its select, a select fires,
    the read loop handles a message, or a notification or reply is
    written. *)
Inductive conn_step : Conn -> Conn -> Prop :=
| step_Call_begin c method params io c' r :
    Call_begin c method params io = (c', r) -> conn_step c c'
| step_Call_select c id ch sc c' r :
    Call_select c id ch sc = Some (c', r) -> conn_step c c'
| step_dispatch c msg io c' :
    dispatch c msg io = Some c' -> conn_step c c'
| step_Notify c method params io :
    conn_step c (fst (Notify c method params io))
| step_Reply c id result io :
    conn_step c (fst (Reply c id result io))
| step_ReplyError c id code message data io :
    conn_step c (fst (ReplyError c id code message data io))
| step_Close c : conn_step c (Close c).

Lemma wf_step c c' : wf c -> conn_step c c' -> wf c'.
Proof.
  intros Hwf Hs. destruct Hs as [c method params io c' r H|c id ch sc c' r H|
    c msg io c' H|c method params io|c id result io|c id code message data io|c].
  - by eapply wf_Call_begin.
  - by eapply wf_Call_select.
  - unfold dispatch in H. destruct (IsResponse msg).
    + by eapply wf_handleResponse.
    + by eapply wf_handleMessage.
  - unfold Notify. destruct (NewNotification method params); [done|].
    by apply wf_stream_Write.
  - unfold Reply. destruct (NewResponse id result); [done|]. by apply wf_stream_Write.
  - unfold ReplyError. destruct (NewErrorResponse id code message data); [done|].
    by apply wf_stream_Write.
  - intros k ch Hk. exact (Hwf k ch Hk).
Qed.

(** Every connection reached from a new one is well formed. *)
Lemma wf_reachable h c : rtc conn_step (NewConn h) c -> wf c.
Proof.
  intros Hr. apply rtc_nsteps in Hr as [n Hn]. revert c Hn.
  induction n as [|n IH]; intros c Hn.
  - inversion Hn; subst. apply wf_NewConn.
  - apply nsteps_inv_r in Hn as (c1 & Hn & Hs). eapply wf_step; [|exact Hs]. by apply IH.
Qed.

(** A pending entry survives the steps that do not concern its key. *)
Lemma pending_after_other_response c msg id' c' k ch :
  wf c -> MID msg = Some id' -> ID_String id' <> k ->
  handleResponse c msg = Some c' ->
  pending c !! k = Some ch -> pending c' !! k = Some ch.
Proof.
  intros Hwf Hid Hne H Hk.
  destruct (pending c !! ID_String id') as [ch'|] eqn:Hp.
  - rewrite (handleResponse_pending c msg id' ch' Hwf Hid Hp) in H.
    inversion H; subst; cbn. by rewrite lookup_delete_ne.
  - unfold handleResponse in H. rewrite Hid, Hp in H. by inversion H; subst.
Qed.

Lemma pending_after_handleMessage c msg io c' :
  handleMessage c msg io = Some c' -> pending c' = pending c.
Proof.
  unfold handleMessage. intros H.
  destruct (handler c) as [h|]; [|by inversion H].
  destruct (h msg) as [[resp|] [err|]]; try destruct (IsRequest msg);
    try destruct (MID msg); cbn in H; try discriminate H;
    inversion H; subst; try reflexivity; destruct io; reflexivity.
Qed.

(** What [Call] has done when it reaches its [select]: the request, and
    nothing else, is on the wire, and the call is pending under the key of
    its id. *)
Lemma Call_begin_waiting c method params io c1 id ch :
  Call_begin c method params io = (c1, CallWaiting id ch) ->
  id = NewNumberID (wrap64 (nextID c + 1)) /\
  ch = length (chans c) /\
  pending c1 = <[ID_String id := ch]> (pending c) /\
  chans c1 = chans c ++ [mkChan [] false] /\
  exists raw, marshal_any "marshaling params" params = inr raw /\
    wire c1 = wire c ++ [mkMessage Version (Some id) method raw EmptyString None].
Proof.
  unfold Call_begin, NextID, NewRequest. cbn.
  destruct (marshal_any _ params) as [e|raw]; [inversion 1|].
  destruct io as [e|]; cbn; inversion 1; subst.
  repeat split; eauto.
Qed.

(** C7. When a Conn receives a response whose id has a pending slot, that
    slot and no other receives the response and is removed from the pending
    map, and the waiting call then returns it; when the id has no pending
    slot the response is dropped: the connection, its pending map and the
    wire are unchanged.  A call is pending under the key of the id it sent,
    so the response carrying that id reaches it. *)
Theorem handleResponse_correlates (c : Conn) (msg : Message) (id : ID) :
  wf c -> MID msg = Some id ->
  (forall ch, pending c !! ID_String id = Some ch ->
     exists c',
       handleResponse c msg = Some c' /\
       pending c' = delete (ID_String id) (pending c) /\
       chans c' !! ch = Some (mkChan [msg] true) /\
       (forall ch', ch' <> ch -> chans c' !! ch' = chans c !! ch') /\
       wire c' = wire c /\
       exists c'', Call_select c' id ch Recv =
         Some (c'', match MError msg with
                    | Some e => inl (rpcError e)
                    | None => inr (Result msg)
                    end)) /\
  (pending c !! ID_String id = None -> handleResponse c msg = Some c) /\
  (IsResponse msg = true -> forall io, dispatch c msg io = handleResponse c msg) /\
  (forall c0 method params io ch,
     Call_begin c0 method params io = (c, CallWaiting id ch) ->
     pending c !! ID_String id = Some ch).
Proof.
  intros Hwf Hid. repeat split.
  - intros ch Hp. eexists. split; [by apply handleResponse_pending|].
    destruct (Hwf _ _ Hp) as [Hch _].
    assert (Hlt : (ch < length (chans c))%nat) by (eapply lookup_lt_Some; eauto).
    cbn. repeat split.
    + by rewrite list_lookup_insert_eq.
    + intros ch' Hne. by rewrite list_lookup_insert_ne.
    + rewrite list_lookup_insert_eq by done. destruct (MError msg); eauto.
  - intros Hp. unfold handleResponse. by rewrite Hid, Hp.
  - intros Hr io. unfold dispatch. by rewrite Hr.
  - intros c0 method params io ch Hb.
    apply Call_begin_waiting in Hb as (_ & _ & Hp & _). rewrite Hp.
    apply lookup_insert_eq.
Qed.

(** C10. A handler error on a request is answered with an error response
    that carries InternalError and the error's text; a handler error on a
    notification is discarded and nothing is written; a nil reply with a nil
    error writes nothing. *)
Theorem handleMessage_handler_outcomes (c : Conn) (h : Handler) (msg : Message) :
  handler c = Some h ->
  (forall r err, h msg = (r, Some err) -> IsRequest msg = true ->
     exists id, MID msg = Some id /\
       let errResp :=
         mkMessage Version (Some id) EmptyString EmptyString EmptyString
           (Some (mkError (-32603) (error_Error err) EmptyString)) in
       (forall io, handleMessage c msg io = Some (fst (stream_Write c errResp io))) /\
       exists c', handleMessage c msg None = Some c' /\ wire c' = wire c ++ [errResp]) /\
  (forall r err io, h msg = (r, Some err) -> IsNotification msg = true ->
     handleMessage c msg io = Some c) /\
  (forall io, h msg = (None, None) -> handleMessage c msg io = Some c).
Proof.
  intros Hh. repeat split.
  - intros r err Hm Hreq. unfold IsRequest in Hreq.
    destruct (MID msg) as [id|] eqn:Hid; [|discriminate].
    exists id. split; [done|]. cbn zeta. split.
    + intros io. unfold handleMessage. rewrite Hh, Hm.
      unfold IsRequest. rewrite Hid, Hreq. destruct r; reflexivity.
    + eexists. split.
      * unfold handleMessage. rewrite Hh, Hm.
        unfold IsRequest. rewrite Hid, Hreq. destruct r; reflexivity.
      * reflexivity.
  - intros r err io Hm Hn. unfold handleMessage. rewrite Hh, Hm.
    unfold IsNotification in Hn. unfold IsRequest.
    destruct (MID msg); [discriminate|destruct r; reflexivity].
  - intros io Hm. unfold handleMessage. by rewrite Hh, Hm.
Qed.

(** C1, as the code has it.  When the context of a Call is done before the
    response arrives, the pending slot under the key of the minted id is
    removed and ctx.Err() is returned; nothing is written to the peer: the
    request is the only message Call ever writes, and no cancelRequest
    follows it. *)
Theorem Call_cancelled_removes_slot (c : Conn) (id : ID) (ch : ChanID) (e : CtxErr) :
  (exists c',
     Call_select c id ch (CtxDone e) = Some (c', inl (ctxError e)) /\
     pending c' !! ID_String id = None /\
     (forall k, k <> ID_String id -> pending c' !! k = pending c !! k) /\
     wire c' = wire c) /\
  (forall c0 method params io,
     Call_begin c0 method params io = (c, CallWaiting id ch) ->
     pending c !! ID_String id = Some ch /\
     exists req, wire c = wire c0 ++ [req] /\ Method req = method /\ MID req = Some id).
Proof.
  split.
  - eexists. split; [reflexivity|]. cbn. repeat split.
    + apply lookup_delete_eq.
    + intros k Hne. by rewrite lookup_delete_ne.
  - intros c0 method params io Hb.
    apply Call_begin_waiting in Hb as (_ & _ & Hp & _ & raw & _ & Hw).
    split; [rewrite Hp; apply lookup_insert_eq|]. eauto.
Qed.

(** C1, as stated, fails: a hover call on a new connection whose context
    is cancelled leaves the request alone on the wire; no message with the
    method of a cancel request has been written. *)
Lemma Call_cancelled_writes_no_cancelRequest :
  exists c1 id ch c2,
    Call_begin (NewConn None) "textDocument/hover" AnyNil None = (c1, CallWaiting id ch) /\
    Call_select c1 id ch (CtxDone Canceled) = Some (c2, inl (ctxError Canceled)) /\
    ~ (exists m, m ∈ wire c2 /\ Method m = "$/cancelRequest").
Proof.
  do 4 eexists. split; [reflexivity|]. split; [reflexivity|].
  intros (m & Hin & Hm). cbn in Hin.
  apply list_elem_of_singleton in Hin. subst m. discriminate Hm.
Qed.

(** [n] calls of a method without parameters, each reaching its select. *)
Fixpoint calls (n : nat) (c : Conn) : Conn :=
  match n with
  | O => c
  | S k => fst (Call_begin (calls k c) "workspace/symbol" AnyNil None)
  end.

(** C9. The number 7 and the string 7 are different ids with the same
    key, so the pending map cannot tell them apart: the call that sent the
    numeric id 7 is handed a response that carries the string id. *)
Theorem ID_String_not_injective :
  NewNumberID 7 <> NewStringID "7" /\
  ID_String (NewNumberID 7) = "7" /\
  ID_String (NewStringID "7") = "7" /\
  forall (c : Conn) method params resp c1 st,
    nextID c = 6 -> (forall t, params <> AnyErr t) ->
    MID resp = Some (NewStringID "7") ->
    Call_begin c method params None = (c1, st) ->
    exists ch c2 c3,
      st = CallWaiting (NewNumberID 7) ch /\
      handleResponse c1 resp = Some c2 /\
      chans c2 !! ch = Some (mkChan [resp] true) /\
      pending c2 !! "7" = None /\
      Call_select c2 (NewNumberID 7) ch Recv =
        Some (c3, match MError resp with
                  | Some e => inl (rpcError e)
                  | None => inr (Result resp)
                  end).
Proof.
  split; [discriminate|]. split; [reflexivity|]. split; [reflexivity|].
  intros c method params resp c1 st Hn Hok Hid Hb.
  unfold Call_begin, NextID, NewRequest in Hb. rewrite Hn in Hb. cbn in Hb.
  destruct params as [|raw|t]; [| |by destruct (Hok t)];
    cbn in Hb; inversion Hb; subst; clear Hb.
  all: unfold handleResponse; rewrite Hid; cbn;
    change (ID_String (NewStringID "7")) with "7";
    change (format_d 7) with "7";
    rewrite lookup_insert_eq; unfold chan_send; cbn;
    rewrite lookup_app_r, Nat.sub_diag by done; cbn;
    unfold chan_close;
    rewrite list_lookup_insert_eq by (rewrite length_app; cbn; lia);
    rewrite list_insert_insert_eq;
    do 3 eexists; (split; [reflexivity|]); (split; [reflexivity|]); cbn;
    rewrite list_lookup_insert_eq by (rewrite length_app; cbn; lia);
    (split; [reflexivity|]); (split; [apply lookup_delete_eq|]);
    destruct (MError resp); reflexivity.
Qed.

(** The seventh call on a new connection and a response with the string
    id. *)
Lemma ID_String_not_injective_witness :
  let c := calls 6 (NewConn None) in
  let resp := mkMessage "2.0" (Some (NewStringID "7")) "" "" "[]" None in
  let '(c1, st) := Call_begin c "textDocument/hover" AnyNil None in
  nextID c = 6 /\
  exists ch c2 c3,
    st = CallWaiting (NewNumberID 7) ch /\
    handleResponse c1 resp = Some c2 /\
    chans c2 !! ch = Some (mkChan [resp] true) /\
    pending c2 !! "7" = None /\
    Call_select c2 (NewNumberID 7) ch Recv = Some (c3, inr "[]").
Proof.
  cbv zeta.
  destruct (Call_begin (calls 6 (NewConn None)) "textDocument/hover" AnyNil None)
    as [c1 st] eqn:Hb.
  split; [reflexivity|].
  destruct ID_String_not_injective as (_ & _ & _ & H).
  exact (H (calls 6 (NewConn None)) "textDocument/hover" AnyNil
           (mkMessage "2.0" (Some (NewStringID "7")) "" "" "[]" None) c1 st
           eq_refl (fun t Ht => match Ht with end) eq_refl Hb).
Defined.

(** A call on a new connection, and its response. *)
Lemma handleResponse_correlates_witness :
  let c := fst (Call_begin (NewConn None) "textDocument/hover" AnyNil None) in
  let msg := mkMessage "2.0" (Some (NewNumberID 1)) "" "" "{}" None in
  wf c /\ pending c !! "1" = Some 0%nat /\
  exists c', handleResponse c msg = Some c' /\
    pending c' = delete "1" (pending c) /\
    chans c' !! 0%nat = Some (mkChan [msg] true) /\
    wire c' = wire c /\
    exists c'', Call_select c' (NewNumberID 1) 0%nat Recv = Some (c'', inr "{}").
Proof.
  cbv zeta.
  assert (Hwf : wf (fst (Call_begin (NewConn None) "textDocument/hover" AnyNil None))).
  { eapply wf_Call_begin; [apply (wf_NewConn None)|]. apply surjective_pairing. }
  split; [exact Hwf|]. split; [reflexivity|].
  destruct (handleResponse_correlates _
              (mkMessage "2.0" (Some (NewNumberID 1)) "" "" "{}" None)
              (NewNumberID 1) Hwf eq_refl) as (H & _).
  destruct (H 0%nat eq_refl) as (c' & H1 & H2 & H3 & _ & H5 & H6).
  exists c'. repeat split; assumption.
Defined.

(** A handler that fails with the text boom, on a request with id 3. *)
Lemma handleMessage_handler_outcomes_witness :
  let h : Handler := fun _ => (None, Some (errorString "boom")) in
  let c := NewConn (Some h) in
  let msg := mkMessage "2.0" (Some (NewNumberID 3)) "textDocument/hover" "" "" None in
  exists c', handleMessage c msg None = Some c' /\
    wire c' = [mkMessage "2.0" (Some (NewNumberID 3)) "" "" ""
                 (Some (mkError (-32603) "boom" ""))].
Proof.
  cbv zeta.
  destruct (handleMessage_handler_outcomes
              (NewConn (Some (fun _ => (None, Some (errorString "boom")))))
              (fun _ => (None, Some (errorString "boom")))
              (mkMessage "2.0" (Some (NewNumberID 3)) "textDocument/hover" "" "" None)
              eq_refl) as (H & _).
  destruct (H None (errorString "boom") eq_refl eq_refl) as (id & Hid & _ & c' & H1 & H2).
  inversion Hid; subst id. exists c'. split; assumption.
Defined.

End session_facts.

(** ** The matcher: the first accepting backend wins *)

Module filematch_facts.
Import GoStrings filematch.

Section Facts.
Context `{MatchLibs}.




Lemma nonempty_true s : nonempty s = true <-> s <> EmptyString.
Proof. destruct s; cbn; split; congruence. Qed.





End Facts.

(** Two registered backends on the ASCII stand-in: a Go file goes to the
    first, a Makefile to the second by its glob, a text file to none. *)
Example Match_examples :
  let libs := ascii_libs in
  match Add NewMatcherSet "gopls" ["go"] ["go.mod"] ["Go"] with
  | Some ms1 =>
      match Add ms1 "make-ls" [] ["Makefile*"; "*.mk"] ["go"] with
      | Some ms =>
          Match ms "/src/x.go" ".GO" "" = "gopls" /\
          Match ms "/src/x.txt" "" "go" = "gopls" /\
          Match ms "/src/Makefile.am" ".am" "" = "make-ls" /\
          Match ms "/src/x.txt" ".txt" "plain" = EmptyString
      | None => False
      end
  | None => False
  end.
Proof. vm_compute. repeat split. Qed.

End filematch_facts.

(** ** The capability aggregator *)

Module capabilities_facts.
Import lsp capabilities.

Lemma collect_caps_none `{CacheEnv} names caps :
  (forall nm, nm ∈ names -> LoadCache nm = None) ->
  collect_caps names caps = caps.
Proof.
  revert caps. induction names as [|nm rest IH]; intros caps Hall; cbn; [done|].
  rewrite (Hall nm) by (by left). apply IH. intros x Hx. apply Hall. by right.
Qed.

(** C8. With no names, or with no name whose cache loads, the aggregate is
    the default set: full document sync, hover, completion triggered by a
    dot, and the twelve other providers. *)
Theorem AggregateCapabilities_default `{CacheEnv} (names : list string) :
  (forall nm, nm ∈ names -> LoadCache nm = None) ->
  AggregateCapabilities names = defaultCapabilities /\
  AggregateCapabilities [] = defaultCapabilities /\
  AggregateCapabilities names =
    mkServerCapabilities 1 true (Some (mkCompletionOptions ["."]))
      true true true true true true true true true true true true /\
  TextDocumentSync (AggregateCapabilities names) = 1%Z /\
  HoverProvider (AggregateCapabilities names) = true /\
  CompletionProvider (AggregateCapabilities names) = Some (mkCompletionOptions ["."]) /\
  DefinitionProvider (AggregateCapabilities names) = true /\
  TypeDefinitionProvider (AggregateCapabilities names) = true /\
  ImplementationProvider (AggregateCapabilities names) = true /\
  ReferencesProvider (AggregateCapabilities names) = true /\
  DocumentSymbolProvider (AggregateCapabilities names) = true /\
  CodeActionProvider (AggregateCapabilities names) = true /\
  DocumentFormattingProvider (AggregateCapabilities names) = true /\
  DocumentRangeFormattingProvider (AggregateCapabilities names) = true /\
  RenameProvider (AggregateCapabilities names) = true /\
  FoldingRangeProvider (AggregateCapabilities names) = true /\
  SelectionRangeProvider (AggregateCapabilities names) = true /\
  WorkspaceSymbolProvider (AggregateCapabilities names) = true.
Proof.
  intros Hall.
  assert (Hd : AggregateCapabilities names = defaultCapabilities).
  { unfold AggregateCapabilities. by rewrite collect_caps_none. }
  rewrite !Hd. repeat split.
Qed.

(** A world in which only the cache of gopls loads, and it says nothing. *)
Definition gopls_only : CacheEnv := {|
  LoadCache := fun nm =>
    if String.eqb nm "gopls" then
      Some (mkCached (mkServerCapabilities 2 false None false false false false
                        false false false false false false false false))
    else None;
  MergeCapabilities := fun caps => List.hd defaultCapabilities caps
|}.

Lemma AggregateCapabilities_default_witness :
  @AggregateCapabilities gopls_only ["pyright"; "rust-analyzer"] = defaultCapabilities.
Proof.
  refine (proj1 (@AggregateCapabilities_default gopls_only ["pyright"; "rust-analyzer"] _)).
  intros nm Hnm.
  apply elem_of_cons in Hnm as [->|Hnm]; [reflexivity|].
  apply list_elem_of_singleton in Hnm as ->. reflexivity.
Defined.

(** A cache that loads is not replaced by the defaults. *)
Example AggregateCapabilities_cached :
  HoverProvider (@AggregateCapabilities gopls_only ["pyright"; "gopls"]) = false.
Proof. reflexivity. Qed.

End capabilities_facts.

(** ** The pool: what Register, GetOrStart and Stop keep true *)

Module pool_facts.
Import jsonrpc subprocess.

Lemma code_invariant_fail e i : code_invariant (fail e i).
Proof. exact I. Qed.

Lemma GetOrStart_instances p dctx nm initParams env x i' :
  (forall y i, instances p !! y = Some i -> code_invariant i) ->
  instances (fst (GetOrStart p dctx nm initParams env)) !! x = Some i' ->
  code_invariant i'.
Proof.
  intros Hinv. unfold GetOrStart.
  destruct (instances p !! nm) as [inst|] eqn:Hnm; [|apply Hinv].
  assert (Hstart :
    forall q : Pool * GetResult,
      (exists i1 st kl, code_invariant i1 /\
         fst q = mkPool (<[nm := i1]> (instances p)) st kl) ->
      instances (fst q) !! x = Some i' -> code_invariant i').
  { intros q (i1 & st & kl & Hi1 & ->). cbn.
    destruct (decide (nm = x)) as [->|Hne].
    - rewrite lookup_insert_eq. by intros [= <-].
    - rewrite lookup_insert_ne by done. apply Hinv. }
  destruct (State inst) eqn:Hst; try apply Hinv; apply Hstart; cbn;
    destruct (build env) as [e|bp]; cbn; try (by eauto 10 using code_invariant_fail);
    destruct (execute env) as [e|proc]; cbn; try (by eauto 10 using code_invariant_fail);
    destruct initParams as [ip|]; cbn;
    try (do 3 eexists; split; [|reflexivity]; cbn; done);
    destruct (initialize env) as [e|res]; cbn; try (by eauto 10 using code_invariant_fail);
    destruct (parse_init env) as [e|caps]; cbn; try (by eauto 10 using code_invariant_fail);
    destruct (initialized env) as [e|]; cbn; try (by eauto 10 using code_invariant_fail);
    do 3 eexists; (split; [|reflexivity]); cbn; done.
Qed.

Lemma apply_op_invariant p op :
  (forall y i, instances p !! y = Some i -> code_invariant i) ->
  forall x i', instances (apply_op p op) !! x = Some i' -> code_invariant i'.
Proof.
  intros Hinv x i'. destruct op as [nm fl args|dctx nm ip env|nm ex|nm err|k]; cbn.
  - destruct (decide (nm = x)) as [->|Hne].
    + rewrite lookup_insert_eq. intros [= <-]. by cbn.
    + rewrite lookup_insert_ne by done. apply Hinv.
  - by apply GetOrStart_instances.
  - unfold Stop. destruct (instances p !! nm) as [inst|] eqn:Hnm; [|apply Hinv].
    destruct (State inst); try apply Hinv. cbn.
    destruct (decide (nm = x)) as [->|Hne].
    + rewrite lookup_insert_eq. intros [= <-]. by cbn.
    + rewrite lookup_insert_ne by done. apply Hinv.
  - unfold run_failed. destruct (instances p !! nm) as [inst|] eqn:Hnm; [|apply Hinv].
    cbn. destruct (decide (nm = x)) as [->|Hne].
    + rewrite lookup_insert_eq. intros [= <-]. exact I.
    + rewrite lookup_insert_ne by done. apply Hinv.
  - apply Hinv.
Qed.

Lemma run_ops_invariant ops p :
  (forall y i, instances p !! y = Some i -> code_invariant i) ->
  forall x i', instances (run_ops p ops) !! x = Some i' -> code_invariant i'.
Proof.
  revert p. induction ops as [|op ops IH]; intros p Hinv; cbn; [done|].
  apply IH. by apply apply_op_invariant.
Qed.

(** C2, as the code has it.  After any sequence of pool operations,
    every instance that is Running has its process and its session, every
    instance that is Idle or Stopped has neither, none is left Starting or
    Stopping, and stopping a Running instance leaves it Stopped with
    process, session and capabilities cleared.  (A Failed instance may keep
    its process and session.) *)
Theorem pool_invariant (ops : list PoolOp) (nm : string) (inst : LSPInstance) :
  instances (run_ops NewPool ops) !! nm = Some inst ->
  code_invariant inst /\
  (State inst = LSPStateRunning -> forall exited,
     exists inst',
       instances (fst (Stop (run_ops NewPool ops) nm exited)) !! nm = Some inst' /\
       State inst' = LSPStateStopped /\
       Process inst' = None /\ Conn inst' = None /\ Capabilities inst' = None).
Proof.
  intros Hnm. split.
  - eapply run_ops_invariant; [|exact Hnm].
    intros y i Hy. cbn in Hy. by rewrite lookup_empty in Hy.
  - intros Hrun exited. unfold Stop. rewrite Hnm, Hrun. cbn.
    rewrite lookup_insert_eq. eexists. split; [reflexivity|]. by cbn.
Qed.

(** An answer of the outside world in which the backend is built and
    spawned as process 1 but answers initialize with an error. *)
Definition init_fails : StartEnv :=
  mkStartEnv (inr "/nix/store/gopls/bin/gopls") (inr 1%nat)
    (inl (rpcError (mkError (-32002) "not ready" "")))
    (inl (errorString "unused")) None 0.

(** An answer in which everything succeeds. *)
Definition all_well : StartEnv :=
  mkStartEnv (inr "/nix/store/gopls/bin/gopls") (inr 1%nat) (inr "{}")
    (inr capabilities.defaultCapabilities) None 1700000000.

Lemma pool_invariant_witness :
  exists inst,
    instances (run_ops NewPool
      [OpRegister "gopls" "nixpkgs#gopls" [];
       OpGetOrStart context.Background "gopls" (Some "{}") all_well]) !! "gopls"
      = Some inst /\
    State inst = LSPStateRunning /\ Process inst = Some 1%nat /\
    code_invariant inst.
Proof.
  eexists. split; [reflexivity|]. split; [reflexivity|]. split; [reflexivity|].
  exact (proj1 (pool_invariant
    [OpRegister "gopls" "nixpkgs#gopls" [];
     OpGetOrStart context.Background "gopls" (Some "{}") all_well]
    "gopls" _ eq_refl)).
Defined.

(** C2, as stated, fails: a start whose initialize call fails leaves the
    instance Failed with its process and session still set. *)
Lemma failed_start_keeps_process_and_session :
  exists inst,
    instances (run_ops NewPool
      [OpRegister "gopls" "nixpkgs#gopls" [];
       OpGetOrStart context.Background "gopls" (Some "{}") init_fails]) !! "gopls"
      = Some inst /\
    State inst = LSPStateFailed /\
    Process inst = Some 1%nat /\ Conn inst = Some (mkConnRef 1%nat) /\
    ~ spec_invariant inst.
Proof.
  eexists. split; [reflexivity|]. cbn. repeat split.
  intros [Hl _]. destruct Hl as [Hl|Hl]; [by split| |]; discriminate Hl.
Qed.








End pool_facts.

(** ** Go strings: decimal text and trimming *)

Module strings_facts.
Import GoStrings.

Lemma cat_nil_r s : cat s EmptyString = s.
Proof. induction s as [|c s IH]; cbn; [done|by rewrite IH]. Qed.

Lemma cat_assoc a b c : cat (cat a b) c = cat a (cat b c).
Proof. induction a as [|x a IH]; cbn; [done|by rewrite IH]. Qed.

Lemma length_cat a b :
  String.length (cat a b) = (String.length a + String.length b)%nat.
Proof. induction a as [|x a IH]; cbn; [done|by rewrite IH]. Qed.

Lemma byte_val_range c : 0 <= byte_val c < 256.
Proof.
  unfold byte_val. pose proof (N_ascii_bounded c). lia.
Qed.

Lemma byte_val_inj a b : byte_val a = byte_val b -> a = b.
Proof.
  unfold byte_val. intros Hab. apply N2Z.inj in Hab.
  rewrite <- (ascii_N_embedding a), <- (ascii_N_embedding b). by rewrite Hab.
Qed.

Lemma eqb_char_false a b : byte_val a <> byte_val b -> eqb_char a b = false.
Proof. intros Hne. apply Ascii.eqb_neq. intros ->. by apply Hne. Qed.

Lemma eqb_char_true a b : eqb_char a b = true -> a = b.
Proof. apply Ascii.eqb_eq. Qed.

Lemma byte_val_ascii_of_N n : (n < 256)%N -> byte_val (ascii_of_N n) = Z.of_N n.
Proof. intros Hn. unfold byte_val. by rewrite N_ascii_embedding. Qed.

Lemma byte_val_digit_char d : (d < 10)%N -> byte_val (digit_char d) = 48 + Z.of_N d.
Proof. intros Hd. unfold digit_char. rewrite byte_val_ascii_of_N; lia. Qed.

Lemma digit_val_digit_char d : (d < 10)%N -> digit_val (digit_char d) = Some (Z.of_N d).
Proof.
  intros Hd. unfold digit_val. rewrite byte_val_digit_char by done.
  replace (48 <=? 48 + Z.of_N d) with true by (symmetry; apply Z.leb_le; lia).
  replace (48 + Z.of_N d <=? 57) with true by (symmetry; apply Z.leb_le; lia).
  cbn. f_equal. lia.
Qed.

Lemma digit_val_range c d : digit_val c = Some d -> 48 <= byte_val c <= 57 /\ d = byte_val c - 48.
Proof.
  unfold digit_val.
  destruct (48 <=? byte_val c) eqn:H1; destruct (byte_val c <=? 57) eqn:H2;
    cbn; intros [= <-].
  apply Z.leb_le in H1. apply Z.leb_le in H2. lia.
Qed.

(** Text made of decimal digits only. *)
Fixpoint all_digits (s : string) : bool :=
  match s with
  | EmptyString => true
  | String c r => match digit_val c with Some _ => all_digits r | None => false end
  end.

Lemma all_digits_cat a b : all_digits (cat a b) = all_digits a && all_digits b.
Proof.
  induction a as [|c a IH]; cbn; [done|]. destruct (digit_val c); [done|reflexivity].
Qed.

Lemma atoi_digits_cat s t a :
  atoi_digits (cat s t) a =
  match atoi_digits s a with Some v => atoi_digits t v | None => None end.
Proof.
  revert a. induction s as [|c s IH]; intros a; cbn; [done|].
  destruct (digit_val c); [apply IH|done].
Qed.

(** The first byte of a text is not the digit zero. *)
Definition leading_nonzero (s : string) : Prop :=
  match s with
  | String c _ => byte_val c <> 48
  | EmptyString => False
  end.

Lemma leading_nonzero_cat a b : leading_nonzero a -> leading_nonzero (cat a b).
Proof. destruct a; cbn; done. Qed.

Lemma udec_aux_spec fuel : forall n acc,
  (n < 10 ^ N.of_nat (S fuel))%N ->
  exists D, udec_aux fuel n acc = cat D acc /\
    all_digits D = true /\ D <> EmptyString /\
    atoi_digits D 0 = Some (Z.of_N n) /\
    (n <> 0%N -> leading_nonzero D).
Proof.
  assert (Hone : forall n acc, (n < 10)%N ->
    exists D, String (digit_char (n mod 10)) acc = cat D acc /\
      all_digits D = true /\ D <> EmptyString /\
      atoi_digits D 0 = Some (Z.of_N n) /\ (n <> 0%N -> leading_nonzero D)).
  { intros n acc Hn. exists (String (digit_char n) EmptyString).
    rewrite N.mod_small by done. cbn.
    rewrite digit_val_digit_char by done. repeat split; try done.
    intros Hn0. rewrite byte_val_digit_char by done. lia. }
  induction fuel as [|f IH]; intros n acc Hn.
  - cbn [udec_aux]. apply Hone. cbn in Hn. lia.
  - cbn [udec_aux]. destruct (n <? 10)%N eqn:Hlt.
    + apply Hone. by apply N.ltb_lt.
    + apply N.ltb_ge in Hlt.
      assert (Hdiv : (n / 10 < 10 ^ N.of_nat (S f))%N).
      { apply N.Div0.div_lt_upper_bound.
        replace (10 * 10 ^ N.of_nat (S f))%N with (10 ^ N.of_nat (S (S f)))%N; [done|].
        rewrite (Nat2N.inj_succ (S f)), N.pow_succ_r'. reflexivity. }
      destruct (IH (n / 10)%N (String (digit_char (n mod 10)) acc) Hdiv)
        as (D' & HD & Hall & Hne & Hval & Hlead).
      exists (cat D' (String (digit_char (n mod 10)) EmptyString)).
      assert (Hm : (n mod 10 < 10)%N) by (apply N.mod_lt; lia).
      rewrite HD, cat_assoc. cbn. split; [done|].
      rewrite all_digits_cat, Hall, atoi_digits_cat, Hval. cbn.
      rewrite digit_val_digit_char by done. repeat split.
      * destruct D'; cbn; done.
      * f_equal. pose proof (N.div_mod n 10). lia.
      * intros _. apply leading_nonzero_cat, Hlead.
        intros H0. apply N.div_small_iff in H0; lia.
Qed.

Lemma udec_spec n :
  exists D, udec n = D /\ all_digits D = true /\ D <> EmptyString /\
    atoi_digits D 0 = Some (Z.of_N n) /\ (n <> 0%N -> leading_nonzero D).
Proof.
  unfold udec.
  destruct (udec_aux_spec (N.to_nat (N.log2 n)) n EmptyString) as (D & HD & H).
  - rewrite Nat2N.inj_succ, N2Nat.id.
    destruct (N.eq_dec n 0%N) as [->|Hn0]; [cbn; lia|].
    assert (Hpos : (0 < n)%N) by lia.
    pose proof (N.log2_spec n Hpos) as [_ Hlt].
    eapply N.lt_le_trans; [exact Hlt|].
    apply N.pow_le_mono_l. lia.
  - exists D. by rewrite HD, cat_nil_r.
Qed.

Lemma digit_not_sign c d :
  digit_val c = Some d -> eqb_char c "-" = false /\ eqb_char c "+" = false.
Proof.
  intros Hd. apply digit_val_range in Hd as [Hr _].
  split; apply eqb_char_false.
  - change (byte_val "-") with 45. lia.
  - change (byte_val "+") with 43. lia.
Qed.

(** Atoi reads back what Sprintf with the verb d writes. *)
Lemma Atoi_format_d z : in_int64 z -> Atoi (format_d z) = Some z.
Proof.
  intros Hz. unfold format_d.
  assert (Hb : forall v, in_int64 v -> in_int64b v = true).
  { intros v [H1 H2]. unfold in_int64b.
    apply andb_true_iff. split; [apply Z.leb_le|apply Z.ltb_lt]; done. }
  destruct (z <? 0) eqn:Hneg.
  - apply Z.ltb_lt in Hneg.
    destruct (udec_spec (Z.to_N (- z))) as (D & -> & Hall & Hne & Hval & _).
    unfold Atoi. cbn [eqb_char Ascii.eqb]. cbn.
    destruct D as [|c r]; [done|]. rewrite Hval.
    replace (- Z.of_N (Z.to_N (- z))) with z by lia. by rewrite Hb.
  - apply Z.ltb_ge in Hneg.
    destruct (udec_spec (Z.to_N z)) as (D & -> & Hall & Hne & Hval & _).
    destruct D as [|c r]; [done|]. unfold Atoi.
    cbn in Hall. destruct (digit_val c) as [d|] eqn:Hd; [|done].
    destruct (digit_not_sign c d Hd) as [-> ->]. cbn [orb].
    rewrite Hval. rewrite Z2N.id by done. by rewrite Hb.
Qed.

(** An ASCII byte that is no white space: no white space rune starts or
    ends with it. *)
Definition plain (c : ascii) : bool := (byte_val c <? 128) && negb (is_space c).

Lemma plain_not_space c : plain c = true -> is_space c = false.
Proof. unfold plain. intros [_ H]%andb_true_iff. by apply negb_true_iff. Qed.

Lemma plain_not_space2_l c c1 : plain c = true -> is_space2 c c1 = false.
Proof.
  unfold plain, is_space2. intros [H _]%andb_true_iff. apply Z.ltb_lt in H.
  apply andb_false_iff. left. apply Z.eqb_neq. lia.
Qed.

Lemma plain_not_space2_r c c0 : plain c = true -> is_space2 c0 c = false.
Proof.
  unfold plain, is_space2. intros [H _]%andb_true_iff. apply Z.ltb_lt in H.
  apply andb_false_iff. right. apply orb_false_iff. split; apply Z.eqb_neq; lia.
Qed.

Lemma plain_not_space3_l c c1 c2 : plain c = true -> is_space3 c c1 c2 = false.
Proof.
  unfold plain, is_space3. intros [H _]%andb_true_iff. apply Z.ltb_lt in H.
  cbv zeta.
  replace (byte_val c =? 225) with false by (symmetry; apply Z.eqb_neq; lia).
  replace (byte_val c =? 226) with false by (symmetry; apply Z.eqb_neq; lia).
  replace (byte_val c =? 227) with false by (symmetry; apply Z.eqb_neq; lia).
  reflexivity.
Qed.

Lemma plain_not_space3_r c c0 c1 : plain c = true -> is_space3 c0 c1 c = false.
Proof.
  unfold plain, is_space3. intros [H _]%andb_true_iff. apply Z.ltb_lt in H.
  cbv zeta.
  replace (byte_val c =? 128) with false by (symmetry; apply Z.eqb_neq; lia).
  replace (byte_val c =? 159) with false by (symmetry; apply Z.eqb_neq; lia).
  replace (byte_val c =? 168) with false by (symmetry; apply Z.eqb_neq; lia).
  replace (byte_val c =? 169) with false by (symmetry; apply Z.eqb_neq; lia).
  replace (byte_val c =? 175) with false by (symmetry; apply Z.eqb_neq; lia).
  replace (128 <=? byte_val c) with false by (symmetry; apply Z.leb_gt; lia).
  by rewrite !andb_false_r.
Qed.

(** Trimming stops at a plain byte, from either end. *)
Lemma trim_left_plain c r : plain c = true -> trim_left (String c r) = String c r.
Proof.
  intros Hc. cbn [trim_left]. rewrite (plain_not_space c Hc).
  destruct r as [|c1 r1]; [done|]. rewrite (plain_not_space2_l c c1 Hc).
  destruct r1 as [|c2 r2]; [done|]. by rewrite (plain_not_space3_l c c1 c2 Hc).
Qed.

Lemma trim_rev_plain c r : plain c = true -> trim_rev (String c r) = String c r.
Proof.
  intros Hc. cbn [trim_rev]. rewrite (plain_not_space c Hc).
  destruct r as [|c1 r1]; [done|]. rewrite (plain_not_space2_r c c1 Hc).
  destruct r1 as [|c2 r2]; [done|]. by rewrite (plain_not_space3_r c c2 c1 Hc).
Qed.

Lemma rev_onto_cat s acc : rev_onto s acc = cat (reverse s) acc.
Proof.
  unfold reverse. revert acc. induction s as [|c s IH]; intros acc; cbn [rev_onto]; [done|].
  rewrite (IH (String c acc)), (IH (String c EmptyString)), cat_assoc. done.
Qed.

Lemma reverse_cons c s : reverse (String c s) = cat (reverse s) (String c EmptyString).
Proof. unfold reverse at 1. cbn [rev_onto]. apply rev_onto_cat. Qed.

Lemma reverse_cat a b : reverse (cat a b) = cat (reverse b) (reverse a).
Proof.
  induction a as [|c a IH]; cbn [cat].
  - by rewrite cat_nil_r.
  - by rewrite !reverse_cons, IH, cat_assoc.
Qed.

Lemma reverse_involutive s : reverse (reverse s) = s.
Proof.
  induction s as [|c s IH]; [done|]. by rewrite reverse_cons, reverse_cat, IH.
Qed.

(** Text that ends with a plain byte has nothing to trim at the end. *)
Lemma trim_right_plain s c :
  plain c = true ->
  trim_right (cat s (String c EmptyString)) = cat s (String c EmptyString).
Proof.
  intros Hc. unfold trim_right. rewrite reverse_cat.
  change (reverse (String c EmptyString)) with (String c EmptyString).
  cbn [cat]. rewrite (trim_rev_plain c _ Hc).
  change (String c (reverse s)) with (cat (reverse (String c EmptyString)) (reverse s)).
  by rewrite <- reverse_cat, reverse_involutive.
Qed.

Lemma digit_not_space c d : digit_val c = Some d -> is_space c = false.
Proof.
  intros Hd. apply digit_val_range in Hd as [Hr _]. unfold is_space.
  apply orb_false_iff. split.
  - apply andb_false_iff. right. apply Z.leb_gt. lia.
  - apply Z.eqb_neq. lia.
Qed.

Lemma digit_plain c d : digit_val c = Some d -> plain c = true.
Proof.
  intros Hd. unfold plain. rewrite (digit_not_space c d Hd).
  apply digit_val_range in Hd as [Hr _]. rewrite andb_true_r. apply Z.ltb_lt. lia.
Qed.

Lemma trim_left_digits D : all_digits D = true -> trim_left D = D.
Proof.
  destruct D as [|c r]; [done|]. cbn [all_digits].
  destruct (digit_val c) as [d|] eqn:Hd; [|done]. intros _.
  apply trim_left_plain. by eapply digit_plain.
Qed.

(** Text that is not empty has a last byte. *)
Lemma last_byte s : s <> EmptyString -> exists s' c, s = cat s' (String c EmptyString).
Proof.
  induction s as [|c s IH]; [done|]. intros _. destruct s as [|c1 s1].
  - by exists EmptyString, c.
  - destruct IH as (s' & c' & Hs); [done|]. exists (String c s'), c'. cbn [cat]. by rewrite <- Hs.
Qed.

Lemma all_digits_last s c :
  all_digits (cat s (String c EmptyString)) = true -> exists d, digit_val c = Some d.
Proof.
  rewrite all_digits_cat. intros [_ H]%andb_true_iff. cbn in H.
  destruct (digit_val c) as [d|]; [eauto|done].
Qed.

(** Decimal digits after any text: nothing is trimmed at the end. *)
Lemma trim_right_cat_digits s D :
  all_digits D = true -> D <> EmptyString -> trim_right (cat s D) = cat s D.
Proof.
  intros Hall Hne. destruct (last_byte D Hne) as (D' & c & ->).
  destruct (all_digits_last D' c Hall) as [d Hd].
  rewrite <- cat_assoc. apply trim_right_plain. by eapply digit_plain.
Qed.

Lemma trim_right_digits D : all_digits D = true -> trim_right D = D.
Proof.
  intros Hall. destruct D as [|c r] eqn:HD; [done|]. rewrite <- HD in *.
  apply (trim_right_cat_digits EmptyString D Hall). by rewrite HD.
Qed.

(** Text made of ASCII white space only. *)
Fixpoint all_space (s : string) : bool :=
  match s with
  | EmptyString => true
  | String c r => is_space c && all_space r
  end.

Lemma all_space_cat a b : all_space (cat a b) = all_space a && all_space b.
Proof. induction a as [|c a IH]; cbn; [done|]. by rewrite IH, andb_assoc. Qed.

Lemma all_space_reverse w : all_space (reverse w) = all_space w.
Proof.
  induction w as [|c w IH]; [done|]. rewrite reverse_cons, all_space_cat, IH. cbn.
  by rewrite andb_true_r, andb_comm.
Qed.

Lemma trim_left_spaces w s : all_space w = true -> trim_left (cat w s) = trim_left s.
Proof.
  induction w as [|c w IH]; [done|]. cbn [all_space cat].
  intros [Hc Hw]%andb_true_iff. cbn [trim_left]. rewrite Hc. by apply IH.
Qed.

Lemma trim_rev_spaces w s : all_space w = true -> trim_rev (cat w s) = trim_rev s.
Proof.
  induction w as [|c w IH]; [done|]. cbn [all_space cat].
  intros [Hc Hw]%andb_true_iff. cbn [trim_rev]. rewrite Hc. by apply IH.
Qed.

(** ASCII white space at the end is trimmed, whatever comes before. *)
Lemma trim_right_cat_spaces s w :
  all_space w = true -> trim_right (cat s w) = trim_right s.
Proof.
  intros Hw. unfold trim_right. rewrite reverse_cat, trim_rev_spaces; [done|].
  by rewrite all_space_reverse.
Qed.

(** White space beyond ASCII is trimmed rune by rune: U+00A0 and U+2028
    around a letter, U+3000 alone; a byte of a white space rune on its own
    is no white space (the bytes A0 and C2). *)
Example TrimSpace_examples :
  TrimSpace (String "194" (String "160" (String " " (String "x" (String " "
               (String "226" (String "128" (String "168" EmptyString))))))))
    = "x" /\
  TrimSpace (String "227" (String "128" (String "128" EmptyString))) = EmptyString /\
  TrimSpace (String "160" (String "x" EmptyString)) = String "160" (String "x" EmptyString) /\
  TrimSpace (String "x" (String "194" EmptyString)) = String "x" (String "194" EmptyString) /\
  TrimSpace (String "009" (String "x" (String "y" (String "013" (String "010" EmptyString)))))
    = "xy".
Proof. by vm_compute. Qed.

(** Text without a line feed. *)
Fixpoint no_newline (s : string) : bool :=
  match s with
  | EmptyString => true
  | String c r => negb (eqb_char c "010") && no_newline r
  end.

Lemma ReadString_nl_line s rest :
  no_newline s = true ->
  ReadString_nl (cat s (String "010" rest)) = Some (cat s (String "010" EmptyString), rest).
Proof.
  induction s as [|c s IH]; cbn; [done|].
  intros [Hc Hs]%andb_true_iff. apply negb_true_iff in Hc.
  by rewrite Hc, (IH Hs).
Qed.

Lemma no_newline_digits D : all_digits D = true -> no_newline D = true.
Proof.
  induction D as [|c r IH]; cbn; [done|].
  destruct (digit_val c) as [d|] eqn:Hd; [|done]. intros Hr.
  rewrite (IH Hr), andb_true_r. apply negb_true_iff, eqb_char_false.
  apply digit_val_range in Hd as [Hd _]. change (byte_val "010") with 10. lia.
Qed.

Lemma no_newline_cat a b : no_newline (cat a b) = no_newline a && no_newline b.
Proof.
  induction a as [|c a IH]; cbn; [done|]. by rewrite IH, andb_assoc.
Qed.

Lemma ReadFull_cat body rest :
  ReadFull (String.length body) (cat body rest) = Some (body, rest).
Proof. induction body as [|c b IH]; cbn; [done|by rewrite IH]. Qed.

Lemma ReadFull_short n inp :
  (String.length inp < n)%nat -> ReadFull n inp = None.
Proof.
  revert inp. induction n as [|k IH]; intros inp Hlt; [lia|].
  destruct inp as [|c r]; cbn; [done|]. rewrite IH; [done|]. cbn in Hlt. lia.
Qed.

(** An integer as the specification means it for Content-Length: an
    optional sign and one decimal digit or more. *)
Definition is_integer_literal (s : string) : bool :=
  match s with
  | EmptyString => false
  | String c r =>
      if eqb_char c "-" || eqb_char c "+" then
        match r with EmptyString => false | _ => all_digits r end
      else all_digits s
  end.

Lemma atoi_digits_not_digits s a : all_digits s = false -> atoi_digits s a = None.
Proof.
  revert a. induction s as [|c r IH]; intros a; cbn; [done|].
  destruct (digit_val c); [apply IH|done].
Qed.

Lemma Atoi_not_integer s : is_integer_literal s = false -> Atoi s = None.
Proof.
  unfold is_integer_literal, Atoi. destruct s as [|c r]; [done|].
  destruct (eqb_char c "-") eqn:Hm; cbn [orb].
  - destruct r as [|c' r']; [done|]. intros Hd. by rewrite atoi_digits_not_digits.
  - destruct (eqb_char c "+") eqn:Hp.
    + destruct r as [|c' r']; [done|]. intros Hd. by rewrite atoi_digits_not_digits.
    + intros Hd. by rewrite atoi_digits_not_digits.
Qed.

End strings_facts.

(** ** The framing: headers, lengths and bodies *)

Module framing_facts.
Import GoStrings jsonrpc strings_facts.

Definition CRLF : string := String "013" (String "010" EmptyString).

(** One line as the reader takes it: text without a line feed, and the
    line feed. *)
Definition is_line (line : string) : Prop :=
  exists s, line = cat s (String "010" EmptyString) /\ no_newline s = true.

(** A blank line: nothing but white space. *)
Definition is_blank (line : string) : Prop :=
  is_line line /\ TrimSpace line = EmptyString.

(** A header line with its name and value: the trimmed texts on either
    side of the first colon. *)
Definition is_header (line name value : string) : Prop :=
  is_line line /\
  exists p0 p1,
    SplitN_colon (TrimSpace line) = inr (p0, p1) /\
    name = TrimSpace p0 /\ value = TrimSpace p1.

(** [inp] starts with the header lines [hs], in order, and goes on with
    [tail]. *)
Inductive header_lines : string -> list (string * string) -> string -> Prop :=
| hl_nil tail : header_lines tail [] tail
| hl_cons line name value inp hs tail :
    is_header line name value ->
    header_lines inp hs tail ->
    header_lines (cat line inp) ((name, value) :: hs) tail.

(** The length the headers [hs] announce, starting from [cl]: the value
    of the last Content-Length among them; [None] if one of them has a value
    that Atoi rejects. *)
Fixpoint announced (hs : list (string * string)) (cl : Z) : option Z :=
  match hs with
  | [] => Some cl
  | (name, value) :: rest =>
      if EqualFold name "Content-Length" then
        match Atoi value with
        | Some n => announced rest n
        | None => None
        end
      else announced rest cl
  end.

Lemma is_line_read line rest :
  is_line line -> ReadString_nl (cat line rest) = Some (line, rest).
Proof.
  intros (s & -> & Hs). rewrite cat_assoc. cbn. by apply ReadString_nl_line.
Qed.

Lemma is_line_length line : is_line line -> (1 <= String.length line)%nat.
Proof. intros (s & -> & _). rewrite length_cat. cbn. lia. Qed.

Lemma SplitN_colon_nonempty s p0 p1 : SplitN_colon s = inr (p0, p1) -> s <> EmptyString.
Proof. by destruct s. Qed.

Lemma header_step_header line name value cl :
  is_header line name value ->
  header_step line cl =
    if EqualFold name "Content-Length" then
      match Atoi value with
      | None => HFail ErrParsingContentLength
      | Some n => HContinue n
      end
    else HContinue cl.
Proof.
  intros (_ & p0 & p1 & Hsplit & -> & ->). unfold header_step.
  pose proof (SplitN_colon_nonempty _ _ _ Hsplit) as Hne.
  destruct (TrimSpace line) as [|c r] eqn:Ht; [done|]. by rewrite Hsplit.
Qed.

Lemma header_step_blank line cl : is_blank line -> header_step line cl = HBreak.
Proof. intros [_ Ht]. unfold header_step. by rewrite Ht. Qed.

Lemma header_lines_length inp hs tail :
  header_lines inp hs tail ->
  (length hs + String.length tail <= String.length inp)%nat.
Proof.
  induction 1 as [|line name value inp hs tail [Hl _] _ IH]; cbn; [lia|].
  rewrite length_cat. apply is_line_length in Hl. lia.
Qed.

(** The header loop runs through well-formed headers and comes out with
    the length they announce. *)
Lemma read_headers_lines inp hs tail : header_lines inp hs tail ->
  forall fuel cl n, announced hs cl = Some n ->
  read_headers (length hs + fuel) inp cl = read_headers fuel tail n.
Proof.
  induction 1 as [|line name value inp hs tail Hh _ IH]; intros fuel cl n Ha; cbn in *.
  - by inversion Ha.
  - destruct Hh as [Hl Hh']. rewrite (is_line_read line inp Hl).
    rewrite (header_step_header line name value cl (conj Hl Hh')).
    destruct (EqualFold name "Content-Length").
    + destruct (Atoi value) as [k|]; [|done]. by apply IH.
    + by apply IH.
Qed.

(** A Content-Length header whose value is not an integer stops the
    loop, whatever well-formed headers came before. *)
Lemma read_headers_bad_length inp hs tail : header_lines inp hs tail ->
  forall line rest name value fuel cl,
  tail = cat line rest -> is_header line name value ->
  EqualFold name "Content-Length" = true -> Atoi value = None ->
  read_headers (length hs + S fuel) inp cl = inl ErrParsingContentLength.
Proof.
  induction 1 as [tail|line0 name0 value0 inp hs tail Hh _ IH];
    intros line rest name value fuel cl -> Hline Hname Hval; cbn.
  - destruct Hline as [Hl Hh']. rewrite (is_line_read line rest Hl).
    rewrite (header_step_header line name value cl (conj Hl Hh')).
    by rewrite Hname, Hval.
  - destruct Hh as [Hl Hh']. rewrite (is_line_read line0 inp Hl).
    rewrite (header_step_header line0 name0 value0 cl (conj Hl Hh')).
    destruct (EqualFold name0 "Content-Length").
    + destruct (Atoi value0) as [k|]; [|done]. by eapply IH.
    + by eapply IH.
Qed.

(** What [Stream_Read] does once the headers and the blank line are
    known. *)
Lemma Stream_Read_after_headers `{JSONCodec} `{Allocator} inp hs blank rest n :
  header_lines inp hs (cat blank rest) -> is_blank blank ->
  announced hs (-1) = Some n ->
  Stream_Read inp =
    if n <? 0 then Returns (inl ErrMissingContentLength, rest)
    else if maxAlloc <? n then Panics
    else match ReadFull (Z.to_nat n) rest with
         | None => Returns (inl ErrReadingBody, rest)
         | Some (body, rest') =>
             match json_Unmarshal body with
             | None => Returns (inl ErrParsingMessage, rest')
             | Some msg => Returns (inr msg, rest')
             end
         end.
Proof.
  intros Hl Hb Ha. unfold Stream_Read.
  pose proof (header_lines_length _ _ _ Hl) as Hlen.
  destruct Hb as [Hbl Hbt]. pose proof (is_line_length _ Hbl) as Hb1.
  rewrite length_cat in Hlen.
  replace (S (String.length inp))
    with (length hs + S (String.length inp - length hs))%nat by lia.
  rewrite (read_headers_lines inp hs _ Hl _ _ _ Ha). cbn [read_headers].
  rewrite (is_line_read blank rest Hbl), (header_step_blank blank n (conj Hbl Hbt)).
  reflexivity.
Qed.

Lemma announced_no_length hs cl :
  (forall name value, (name, value) ∈ hs -> EqualFold name "Content-Length" = false) ->
  announced hs cl = Some cl.
Proof.
  induction hs as [|[name value] hs IH]; intros Hno; cbn; [done|].
  rewrite (Hno name value) by (by left). apply IH.
  intros n v Hin. apply (Hno n v). by right.
Qed.

Lemma ReadString_nl_inv inp line rest :
  ReadString_nl inp = Some (line, rest) -> inp = cat line rest /\ is_line line.
Proof.
  revert line. induction inp as [|c inp IH]; intros line; cbn [ReadString_nl]; [done|].
  destruct (eqb_char c "010") eqn:Hc.
  - intros [= <- <-]. split; [done|]. apply eqb_char_true in Hc. subst c.
    exists EmptyString. by split.
  - destruct (ReadString_nl inp) as [[line' rest']|]; [|done].
    intros [= <- <-]. destruct (IH line' eq_refl) as (-> & s & -> & Hs).
    split; [done|]. exists (String c s). split; [done|].
    cbn [no_newline]. by rewrite Hc, Hs.
Qed.

Lemma ReadFull_inv k : forall inp body rest,
  ReadFull k inp = Some (body, rest) -> inp = cat body rest /\ String.length body = k.
Proof.
  induction k as [|k IH]; intros inp body rest; cbn [ReadFull].
  - by intros [= <- <-].
  - destruct inp as [|c inp]; [done|].
    destruct (ReadFull k inp) as [[b r]|] eqn:Hr; [|done].
    intros [= <- <-]. destruct (IH _ _ _ Hr) as [-> <-]. by split.
Qed.

(** What a turn of the header loop that goes on has seen. *)
Lemma header_step_continue line cl n :
  is_line line -> header_step line cl = HContinue n ->
  exists name value, is_header line name value /\
    (EqualFold name "Content-Length" = true /\ Atoi value = Some n \/
     EqualFold name "Content-Length" = false /\ n = cl).
Proof.
  intros Hl. unfold header_step.
  destruct (TrimSpace line) as [|c r] eqn:Ht; [done|]. rewrite <- Ht.
  destruct (SplitN_colon (TrimSpace line)) as [|[p0 p1]] eqn:Hs; [done|].
  intros Hstep. exists (TrimSpace p0), (TrimSpace p1). split.
  - split; [done|]. by exists p0, p1.
  - destruct (EqualFold (TrimSpace p0) "Content-Length").
    + destruct (Atoi (TrimSpace p1)) as [k|]; [|done]. inversion Hstep; subst. by left.
    + inversion Hstep; subst. by right.
Qed.

Lemma header_step_break line cl :
  is_line line -> header_step line cl = HBreak -> is_blank line.
Proof.
  intros Hl. unfold header_step. destruct (TrimSpace line) as [|c r] eqn:Ht; [done|].
  rewrite <- Ht. destruct (SplitN_colon (TrimSpace line)) as [|[p0 p1]]; [done|].
  destruct (EqualFold (TrimSpace p0) "Content-Length"); [|done].
  by destruct (Atoi (TrimSpace p1)).
Qed.

(** When the header loop comes out, it has read well-formed headers and a
    blank line, and returns the length the headers announce. *)
Lemma read_headers_inv fuel : forall inp cl n rest,
  read_headers fuel inp cl = inr (n, rest) ->
  exists hs blank,
    header_lines inp hs (cat blank rest) /\ is_blank blank /\ announced hs cl = Some n.
Proof.
  induction fuel as [|f IH]; intros inp cl n rest; cbn [read_headers]; [done|].
  destruct (ReadString_nl inp) as [[line rest1]|] eqn:Hr; [|done].
  destruct (ReadString_nl_inv _ _ _ Hr) as [-> Hl].
  destruct (header_step line cl) as [|k|e] eqn:Hstep; [| |done].
  - intros [= <- <-]. exists [], line. split; [apply hl_nil|].
    split; [by eapply header_step_break|done].
  - intros Hrec. destruct (IH _ _ _ _ Hrec) as (hs & blank & Hhl & Hb & Ha).
    destruct (header_step_continue line cl k Hl Hstep) as (name & value & Hh & Hcase).
    exists ((name, value) :: hs), blank. split; [by apply hl_cons|]. split; [done|].
    cbn [announced]. destruct Hcase as [[-> ->]|[-> ->]]; done.
Qed.

(** A length that differs from the initial one was announced by a
    Content-Length header with an integer value. *)
Lemma announced_changed hs cl n :
  announced hs cl = Some n -> n <> cl ->
  exists name value, (name, value) ∈ hs /\
    EqualFold name "Content-Length" = true /\ is_integer_literal value = true.
Proof.
  revert cl. induction hs as [|[name value] hs IH]; intros cl; cbn [announced].
  - intros [= <-]. done.
  - destruct (EqualFold name "Content-Length") eqn:Hn.
    + destruct (Atoi value) as [k|] eqn:Hv; [|done]. intros _ _.
      exists name, value. split; [by left|]. split; [done|].
      destruct (is_integer_literal value) eqn:Hi; [done|].
      by rewrite (Atoi_not_integer value Hi) in Hv.
    + intros Ha Hne. destruct (IH cl Ha Hne) as (n' & v' & Hin & H1 & H2).
      exists n', v'. split; [by right|done].
Qed.

(** [Stream_Read] does not return exactly when the header lines up to the
    blank line announce a length above what the allocator gives: the
    buffer for the body is made before a byte of the body is read. *)
Lemma Stream_Read_panics `{JSONCodec} `{Allocator} (inp : string) :
  Stream_Read inp = Panics <->
  exists hs blank rest n,
    header_lines inp hs (cat blank rest) /\ is_blank blank /\
    announced hs (-1) = Some n /\ maxAlloc < n.
Proof.
  split.
  - unfold Stream_Read.
    destruct (read_headers _ inp (-1)) as [e|[n rest]] eqn:Hr; [done|].
    destruct (read_headers_inv _ _ _ _ _ Hr) as (hs & blank & Hhl & Hb & Ha).
    destruct (n <? 0); [done|]. destruct (maxAlloc <? n) eqn:Hn.
    + intros _. apply Z.ltb_lt in Hn. by exists hs, blank, rest, n.
    + destruct (ReadFull _ rest) as [[body rest']|]; [|done].
      by destruct (json_Unmarshal body).
  - intros (hs & blank & rest & n & Hl & Hb & Ha & Hn).
    rewrite (Stream_Read_after_headers inp hs blank rest n Hl Hb Ha).
    pose proof maxAlloc_range as Hm.
    replace (n <? 0) with false by (symmetry; apply Z.ltb_ge; lia).
    by replace (maxAlloc <? n) with true by (symmetry; apply Z.ltb_lt; lia).
Qed.

(** What [Stream.Read] does with each kind of input.  It returns a message
    only when the header lines up to the blank line include a Content-Length
    header with an integer value, as many body bytes follow as the last such
    header announces, and the body is valid JSON.  It returns the
    missing-length error when the blank line comes and no header named
    Content-Length has appeared, and the parse error of the length when the
    value of a Content-Length header is not an integer.  With a length
    announced that the allocator gives, it returns the body error when
    fewer bytes follow and the message error when the body is not valid
    JSON; with a length above that, it does not return.  The header name is
    compared without regard to case; a header with any other name changes
    nothing, and the message is read all the same. *)
Theorem Stream_Read_failures `{JSONCodec} `{Allocator} (inp : string) :
  (forall msg rest, Stream_Read inp = Returns (inr msg, rest) ->
     exists hs blank body,
       header_lines inp hs (cat blank (cat body rest)) /\ is_blank blank /\
       announced hs (-1) = Some (len body) /\ len body <= maxAlloc /\
       (exists name value, (name, value) ∈ hs /\
          EqualFold name "Content-Length" = true /\
          is_integer_literal value = true) /\
       json_Valid body = true /\ json_Unmarshal body = Some msg) /\
  (forall hs tail, header_lines inp hs tail ->
  (forall blank rest, tail = cat blank rest -> is_blank blank ->
     (forall name value, (name, value) ∈ hs ->
        EqualFold name "Content-Length" = false) ->
     Stream_Read inp = Returns (inl ErrMissingContentLength, rest)) /\
  (forall line rest name value, tail = cat line rest ->
     is_header line name value ->
     EqualFold name "Content-Length" = true ->
     is_integer_literal value = false ->
     Stream_Read inp = Returns (inl ErrParsingContentLength, inp)) /\
  (forall blank rest n, tail = cat blank rest -> is_blank blank ->
     announced hs (-1) = Some n -> 0 <= n -> len rest < n ->
     Stream_Read inp =
       if maxAlloc <? n then Panics else Returns (inl ErrReadingBody, rest)) /\
  (forall blank body rest, tail = cat blank (cat body rest) -> is_blank blank ->
     announced hs (-1) = Some (len body) ->
     json_Valid body = false ->
     Stream_Read inp =
       if maxAlloc <? len body then Panics else Returns (inl ErrParsingMessage, rest)) /\
  (forall blank body rest msg, tail = cat blank (cat body rest) -> is_blank blank ->
     announced hs (-1) = Some (len body) ->
     json_Unmarshal body = Some msg ->
     Stream_Read inp =
       if maxAlloc <? len body then Panics else Returns (inr msg, rest))) /\
  (forall line name value cl n, is_header line name value ->
     ToLowerASCII name = "content-length" -> Atoi value = Some n ->
     header_step line cl = HContinue n) /\
  (forall line name value cl, is_header line name value ->
     EqualFold name "Content-Length" = false ->
     header_step line cl = HContinue cl /\
     forall more, announced ((name, value) :: more) cl = announced more cl).
Proof.
  split; [|split; [|split]].
  - intros msg rest. unfold Stream_Read.
    destruct (read_headers _ inp (-1)) as [e|[n rest1]] eqn:Hr; [done|].
    destruct (read_headers_inv _ _ _ _ _ Hr) as (hs & blank & Hhl & Hb & Ha).
    destruct (n <? 0) eqn:Hn; [done|]. apply Z.ltb_ge in Hn.
    destruct (maxAlloc <? n) eqn:Hmax; [done|]. apply Z.ltb_ge in Hmax.
    destruct (ReadFull (Z.to_nat n) rest1) as [[body rest']|] eqn:Hf; [|done].
    destruct (ReadFull_inv _ _ _ _ Hf) as [-> Hlen].
    destruct (json_Unmarshal body) as [m|] eqn:Hu; [|done].
    intros [= <- <-]. exists hs, blank, body.
    assert (Hnb : n = len body) by (unfold len; lia). subst n.
    split; [done|]. split; [done|]. split; [done|]. split; [done|]. split.
    + apply (announced_changed hs (-1) (len body) Ha). unfold len. lia.
    + split; [|done]. destruct (json_Valid body) eqn:Hv; [done|].
      by rewrite (json_Unmarshal_invalid body Hv) in Hu.
  - intros hs tail Hl. split; [|split; [|split; [|split]]].
    + intros blank rest -> Hb Hno.
      rewrite (Stream_Read_after_headers inp hs blank rest (-1) Hl Hb
                 (announced_no_length hs (-1) Hno)).
      reflexivity.
    + intros line rest name value -> Hh Hname Hval. unfold Stream_Read.
      pose proof (header_lines_length _ _ _ Hl) as Hlen.
      replace (S (String.length inp))
        with (length hs + S (String.length inp - length hs))%nat by lia.
      rewrite (read_headers_bad_length inp hs _ Hl line rest name value _ _
                 eq_refl Hh Hname (Atoi_not_integer value Hval)).
      reflexivity.
    + intros blank rest n -> Hb Ha Hn Hshort.
      rewrite (Stream_Read_after_headers inp hs blank rest n Hl Hb Ha).
      replace (n <? 0) with false by (symmetry; apply Z.ltb_ge; lia).
      destruct (maxAlloc <? n); [done|].
      rewrite ReadFull_short; [done|]. unfold len in Hshort. lia.
    + intros blank body rest -> Hb Ha Hv.
      rewrite (Stream_Read_after_headers inp hs blank _ _ Hl Hb Ha).
      replace (len body <? 0) with false by (symmetry; apply Z.ltb_ge; unfold len; lia).
      destruct (maxAlloc <? len body); [done|].
      unfold len. rewrite Nat2Z.id, ReadFull_cat.
      by rewrite (json_Unmarshal_invalid body Hv).
    + intros blank body rest msg -> Hb Ha Hm.
      rewrite (Stream_Read_after_headers inp hs blank _ _ Hl Hb Ha).
      replace (len body <? 0) with false by (symmetry; apply Z.ltb_ge; unfold len; lia).
      destruct (maxAlloc <? len body); [done|].
      unfold len. rewrite Nat2Z.id, ReadFull_cat. by rewrite Hm.
  - intros line name value cl n Hh Hname Hval.
    rewrite (header_step_header line name value cl Hh).
    unfold EqualFold. rewrite Hname. cbn. by rewrite Hval.
  - intros line name value cl Hh Hname. split.
    + rewrite (header_step_header line name value cl Hh). by rewrite Hname.
    + intros more. cbn. by rewrite Hname.
Qed.

(** The header [Stream.Write] puts before a body. *)
Definition header_for (body : string) : string :=
  cat "Content-Length: " (cat (format_d (len body)) (cat CRLF CRLF)).

(** The frame of a message: the header and the body that [Stream.Write]
    hands to its writer, [None] when marshalling fails. *)
Definition frame `{JSONCodec} (m : Message) : option string :=
  match json_Marshal m with
  | None => None
  | Some body => Some (cat (header_for body) body)
  end.

(** A writer that takes whatever it is given, as a [bytes.Buffer] does,
    holding [s]. *)
Definition buffer (s : string) : Writer := mkWriter s [].

Lemma frame_bytes `{JSONCodec} m body :
  json_Marshal m = Some body -> frame m = Some (cat (header_for body) body).
Proof. intros Hm. unfold frame. by rewrite Hm. Qed.

(** On such a writer, [Stream.Write] fails only when marshalling does, and
    adds the frame to what the writer holds. *)
Lemma Stream_Write_buffer `{JSONCodec} m s :
  Stream_Write (buffer s) m =
    match frame m with
    | Some bytes => (buffer (cat s bytes), None)
    | None => (buffer s, Some ErrMarshaling)
    end.
Proof.
  unfold Stream_Write, frame. destruct (json_Marshal m) as [body|]; [|done].
  cbn. unfold buffer. by rewrite cat_assoc.
Qed.

Lemma length_header_is_header D :
  all_digits D = true -> D <> EmptyString ->
  is_header (cat "Content-Length: " (cat D CRLF)) "Content-Length" D.
Proof.
  intros Hd Hne. split.
  - exists (cat "Content-Length: " (cat D (String "013" EmptyString))). split.
    + rewrite !cat_assoc. reflexivity.
    + rewrite no_newline_cat, no_newline_cat, (no_newline_digits D Hd). reflexivity.
  - assert (Htrim : TrimSpace (cat "Content-Length: " (cat D CRLF))
                    = cat "Content-Length: " D).
    { unfold TrimSpace.
      assert (Hl : trim_left (cat "Content-Length: " (cat D CRLF))
                   = cat "Content-Length: " (cat D CRLF)) by (by apply trim_left_plain).
      rewrite Hl, <- cat_assoc, trim_right_cat_spaces by reflexivity.
      by apply trim_right_cat_digits. }
    exists "Content-Length", (String " " D). rewrite Htrim.
    split; [reflexivity|]. split; [reflexivity|].
    unfold TrimSpace. change (String " " D) with (cat " " D).
    rewrite (trim_left_spaces " " D eq_refl).
    by rewrite trim_left_digits, trim_right_digits.
Qed.

(** The framing is lossless: reading the frame of a body that the
    allocator gives hands exactly that body to [json.Unmarshal] and leaves
    what follows unread. *)
Lemma framing_lossless `{JSONCodec} `{Allocator} body rest :
  len body <= maxAlloc ->
  Stream_Read (cat (cat (header_for body) body) rest) =
    Returns (match json_Unmarshal body with
             | Some m => inr m
             | None => inl ErrParsingMessage
             end, rest).
Proof.
  intros Hlen. pose proof maxAlloc_range as Hmax.
  destruct (udec_spec (Z.to_N (len body))) as (D & HD & Hall & Hne & Hval & _).
  assert (Hfmt : format_d (len body) = D).
  { unfold format_d. replace (len body <? 0) with false; [done|].
    symmetry. apply Z.ltb_ge. unfold len. lia. }
  assert (Hshape : cat (cat (header_for body) body) rest =
                   cat (cat "Content-Length: " (cat D CRLF)) (cat CRLF (cat body rest))).
  { unfold header_for. rewrite Hfmt, !cat_assoc. reflexivity. }
  rewrite Hshape.
  assert (Hl : header_lines
                 (cat (cat "Content-Length: " (cat D CRLF)) (cat CRLF (cat body rest)))
                 [("Content-Length", D)] (cat CRLF (cat body rest))).
  { apply hl_cons; [by apply length_header_is_header|apply hl_nil]. }
  assert (Hb : is_blank CRLF).
  { split; [|reflexivity]. exists (String "013" EmptyString). by split. }
  assert (Ha : announced [("Content-Length", D)] (-1) = Some (len body)).
  { cbn [announced]. change (EqualFold "Content-Length" "Content-Length") with true.
    cbn match. rewrite <- Hfmt, Atoi_format_d; [done|].
    unfold in_int64, len in *. lia. }
  rewrite (Stream_Read_after_headers _ _ CRLF (cat body rest) (len body) Hl Hb Ha).
  replace (len body <? 0) with false by (symmetry; apply Z.ltb_ge; unfold len; lia).
  replace (maxAlloc <? len body) with false by (symmetry; apply Z.ltb_ge; lia).
  unfold len. rewrite Nat2Z.id, ReadFull_cat.
  by destruct (json_Unmarshal body).
Qed.

End framing_facts.

(** ** The JSON codec: what is written is read back *)

Module codec_facts.
Import GoStrings jsonrpc gojson strings_facts.

Lemma piece_cons_Some c k p l o r :
  piece_cons c k p = Some (l, o, r) ->
  exists l' o', p = Some (l', o', r) /\ l = cat c l' /\ o = cat k o'.
Proof.
  destruct p as [[[l' o'] r']|]; cbn; [|done]. intros [= <- <- <-]. eauto.
Qed.

Lemma piece_cons_eq c k l o r : piece_cons c k (Some (l, o, r)) = Some (cat c l, cat k o, r).
Proof. reflexivity. Qed.

(** The input goes on with a byte that cannot continue a number. *)
Definition number_stop (rest : string) : Prop :=
  match rest with
  | EmptyString => True
  | String c _ =>
      is_digit c = false /\ is_char c 46 = false /\ is_char c 101 = false /\
      is_char c 69 = false /\ is_char c 43 = false /\ is_char c 45 = false
  end.

Lemma ws_cat r w r1 rest :
  ws r = (w, r1) -> r1 <> EmptyString -> ws (cat r rest) = (w, cat r1 rest).
Proof.
  revert w. induction r as [|c r IH]; intros w; cbn [ws cat].
  - intros [= <- <-]. done.
  - destruct (is_ws c) eqn:Hc.
    + destruct (ws r) as [w' r'] eqn:Hr. intros [= <- <-] Hne.
      by rewrite (IH w' eq_refl Hne).
    + intros [= <- <-] _. reflexivity.
Qed.

Lemma ws_not_ws c r : is_ws c = false -> ws (String c r) = (EmptyString, String c r).
Proof. intros Hc. cbn [ws]. by rewrite Hc. Qed.

Lemma span_digits_cat s d r rest :
  span_digits s = (d, r) -> (r = EmptyString -> number_stop rest) ->
  span_digits (cat s rest) = (d, cat r rest).
Proof.
  revert d. induction s as [|c s IH]; intros d; cbn [span_digits cat].
  - intros [= <- <-] Hstop. specialize (Hstop eq_refl).
    destruct rest as [|c rest]; cbn [span_digits]; [done|].
    destruct Hstop as [-> _]. done.
  - destruct (is_digit c) eqn:Hc.
    + destruct (span_digits s) as [d' r'] eqn:Hs. intros [= <- <-] Hstop.
      by rewrite (IH d' eq_refl Hstop).
    + intros [= <- <-] _. reflexivity.
Qed.

(** A piece reader is stable under more input, as long as it did not stop
    merely because the input ended. *)
Definition ext (p : Sub) : Prop :=
  forall s l r rest, p s = Some (l, r) -> (r = EmptyString -> number_stop rest) ->
    p (cat s rest) = Some (l, cat r rest).

Definition nil_in (p : Sub) : Prop :=
  forall l r, p EmptyString = Some (l, r) -> r = EmptyString.

Lemma ext_seq2 p q : ext p -> ext q -> nil_in q -> ext (seq2 p q).
Proof.
  intros Hp Hq Hn s l r rest. unfold seq2.
  destruct (p s) as [[l1 r1]|] eqn:H1; [|done].
  destruct (q r1) as [[l2 r2]|] eqn:H2; [|done].
  intros [= <- <-] Hstop.
  rewrite (Hp s l1 r1 rest H1).
  - by rewrite (Hq r1 l2 r2 rest H2 Hstop).
  - intros ->. apply Hstop. by eapply Hn.
Qed.

Lemma nil_in_seq2 p q : nil_in p -> nil_in q -> nil_in (seq2 p q).
Proof.
  intros Hp Hq l r. unfold seq2.
  destruct (p EmptyString) as [[l1 r1]|] eqn:H1; [|done].
  rewrite (Hp l1 r1 H1).
  destruct (q EmptyString) as [[l2 r2]|] eqn:H2; [|done].
  intros [= <- <-]. by eapply Hq.
Qed.

Lemma ext_opt_char f :
  (forall c r, number_stop (String c r) -> f c = false) -> ext (opt_char f).
Proof.
  intros Hf s l r rest. unfold opt_char. destruct s as [|c s]; cbn [cat].
  - intros [= <- <-] Hstop. specialize (Hstop eq_refl).
    destruct rest as [|c rest]; [done|]. by rewrite (Hf c rest Hstop).
  - destruct (f c); intros [= <- <-] _; reflexivity.
Qed.

Lemma nil_in_opt_char f : nil_in (opt_char f).
Proof. intros l r. cbn. by intros [= <- <-]. Qed.

Lemma ext_digits1 : ext digits1.
Proof.
  intros s l r rest. unfold digits1.
  destruct (span_digits s) as [d r'] eqn:Hs. destruct d as [|c d]; [done|].
  intros [= <- <-] Hstop. by rewrite (span_digits_cat s _ _ rest Hs Hstop).
Qed.

Lemma nil_in_digits1 : nil_in digits1.
Proof. intros l r. by cbn. Qed.

Lemma ext_int_part : ext int_part.
Proof.
  intros s l r rest. unfold int_part. destruct s as [|c s]; [done|]. cbn [cat].
  destruct (is_char c 48); [by intros [= <- <-]|].
  destruct (is_digit c); [|done].
  destruct (span_digits s) as [d r'] eqn:Hs. intros [= <- <-] Hstop.
  by rewrite (span_digits_cat s _ _ rest Hs Hstop).
Qed.

Lemma ext_opt_after f p :
  (forall c r, number_stop (String c r) -> f c = false) -> ext p -> ext (opt_after f p).
Proof.
  intros Hf Hp s l r rest. unfold opt_after. destruct s as [|c s]; cbn [cat].
  - intros [= <- <-] Hstop. specialize (Hstop eq_refl).
    destruct rest as [|c rest]; [done|]. by rewrite (Hf c rest Hstop).
  - destruct (f c); [|by intros [= <- <-]].
    destruct (p s) as [[l' r']|] eqn:Hps; [|done]. intros [= <- <-] Hstop.
    by rewrite (Hp s l' r' rest Hps Hstop).
Qed.

Lemma nil_in_opt_after f p : nil_in (opt_after f p).
Proof. intros l r. cbn. by intros [= <- <-]. Qed.

Lemma ext_pnumber : ext pnumber.
Proof.
  unfold pnumber, frac_part, exp_part.
  apply ext_seq2; [| |].
  - apply ext_opt_char. intros c r (_ & _ & _ & _ & _ & H). exact H.
  - apply ext_seq2; [apply ext_int_part| |].
    + apply ext_seq2; [| |apply nil_in_opt_after].
      * apply ext_opt_after; [|apply ext_digits1].
        intros c r (_ & H & _). exact H.
      * apply ext_opt_after.
        -- intros c r (_ & _ & H1 & H2 & _). by rewrite H1, H2.
        -- apply ext_seq2; [|apply ext_digits1|apply nil_in_digits1].
           apply ext_opt_char. intros c r (_ & _ & _ & _ & H1 & H2). by rewrite H1, H2.
    + apply nil_in_seq2; apply nil_in_opt_after.
  - intros l r. unfold seq2. cbn. done.
Qed.

(** A recursive call under [piece_cons], on a shorter text. *)
Ltac piece_step IH rest :=
  let H := fresh "H" in
  let l' := fresh "l'" in
  let o' := fresh "o'" in
  intros H; apply piece_cons_Some in H as (l' & o' & H & -> & ->);
  match type of H with
  | pstr_body ?s = _ =>
      let E := fresh "E" in
      pose proof (IH s ltac:(cbn [String.length] in *; lia) _ _ _ rest H) as E;
      cbn [cat] in E; rewrite E; reflexivity
  end.

Lemma pstr_body_single c1 l o r :
  pstr_body (String c1 EmptyString) = Some (l, o, r) -> is_char c1 34 = true.
Proof.
  cbn [pstr_body]. destruct (is_char c1 34); [done|].
  destruct (is_char c1 92); [done|].
  destruct (byte_val c1 <? 32); [done|].
  destruct (is_char c1 60 || is_char c1 62 || is_char c1 38); [done|].
  destruct (is_char c1 226); done.
Qed.

Lemma is_char_excl c a b : is_char c a = true -> a <> b -> is_char c b = false.
Proof.
  unfold is_char. intros Ha%Z.eqb_eq Hne. apply Z.eqb_neq. lia.
Qed.

(** Reading a string literal does not depend on what follows it. *)
Lemma pstr_body_cat_len n : forall s, (String.length s <= n)%nat ->
  forall l o r rest, pstr_body s = Some (l, o, r) ->
  pstr_body (cat s rest) = Some (l, o, cat r rest).
Proof.
  induction n as [|n IH]; intros s Hlen l o r rest.
  { destruct s; [done|cbn in Hlen; lia]. }
  destruct s as [|c s]; [done|]. cbn [pstr_body cat].
  destruct (is_char c 34); [by intros [= <- <- <-]|].
  destruct (is_char c 92).
  { destruct s as [|e r2]; [done|]. cbn [cat].
    destruct (is_char e 98 || is_char e 102 || is_char e 110 || is_char e 114
              || is_char e 116 || is_char e 92 || is_char e 47 || is_char e 34).
    { piece_step IH rest. }
    destruct (is_char e 117); [|done].
    destruct r2 as [|h1 [|h2 [|h3 [|h4 r6]]]]; try done. cbn [cat].
    destruct (is_hex h1 && is_hex h2 && is_hex h3 && is_hex h4); [|done].
    piece_step IH rest. }
  destruct (byte_val c <? 32); [done|].
  destruct (is_char c 60 || is_char c 62 || is_char c 38).
  { piece_step IH rest. }
  destruct (is_char c 226).
  - destruct s as [|c1 [|c2 r3]].
    + done.
    + intros H. apply piece_cons_Some in H as (l' & o' & H & -> & ->).
      pose proof (pstr_body_single _ _ _ _ H) as Hq.
      assert (H128 : is_char c1 128 = false) by (by eapply is_char_excl).
      rewrite (IH (String c1 EmptyString) ltac:(cbn [String.length] in *; lia) _ _ _ rest H).
      cbn [cat]. destruct rest as [|c2 r3]; [reflexivity|]. rewrite H128. reflexivity.
    + cbn [cat].
      destruct (is_char c1 128 && (is_char c2 168 || is_char c2 169)).
      * piece_step IH rest.
      * piece_step IH rest.
  - piece_step IH rest.
Qed.

Lemma pstr_body_cat s l o r rest :
  pstr_body s = Some (l, o, r) -> pstr_body (cat s rest) = Some (l, o, cat r rest).
Proof. by apply (pstr_body_cat_len (String.length s)). Qed.

Lemma strip_prefix_cat w s r rest :
  strip_prefix w s = Some r -> strip_prefix w (cat s rest) = Some (cat r rest).
Proof.
  revert s. induction w as [|a w IH]; intros s; cbn [strip_prefix].
  - by intros [= <-].
  - destruct s as [|b s]; [done|]. cbn [cat]. destruct (eqb_char a b); [apply IH|done].
Qed.

Lemma pword_cat w s l o r rest :
  pword w s = Some (l, o, r) -> pword w (cat s rest) = Some (l, o, cat r rest).
Proof.
  unfold pword. destruct (strip_prefix w s) as [r0|] eqn:Hs; [|done].
  intros [= <- <- <-]. by rewrite (strip_prefix_cat w s r0 rest Hs).
Qed.

Lemma pvalue_nil fuel d : pvalue fuel d EmptyString = None.
Proof. by destruct fuel. Qed.

Lemma pelems_nil fuel d : pelems fuel d EmptyString = None.
Proof. destruct fuel as [|f]; [done|]. cbn [pelems]. by rewrite pvalue_nil. Qed.

Lemma pmembers_nil fuel d : pmembers fuel d EmptyString = None.
Proof. by destruct fuel. Qed.

(** A reader reads the same from a longer input, with more fuel and more
    depth to spare. *)
Definition stable (P : nat -> Z -> string -> Piece) (fuel : nat) : Prop :=
  forall d s l o r, P fuel d s = Some (l, o, r) ->
  forall fuel' d' rest, (fuel <= fuel')%nat -> d <= d' ->
    (r = EmptyString -> number_stop rest) ->
    P fuel' d' (cat s rest) = Some (l, o, cat r rest).

Lemma pvalue_stable_step f :
  stable pelems f -> stable pmembers f -> stable pvalue (S f).
Proof.
  intros He Hm d s l o r Hp fuel' d' rest Hfuel Hd Hstop.
  destruct fuel' as [|f']; [lia|]. assert (Hf : (f <= f')%nat) by lia.
  destruct s as [|c r0]; [done|]. cbn [pvalue cat] in *.
  destruct (is_char c 34).
  { apply piece_cons_Some in Hp as (l' & o' & Hp & -> & ->).
    by rewrite (pstr_body_cat r0 l' o' r rest Hp). }
  destruct (is_char c 123).
  { destruct (d <=? 0) eqn:Hd0; [done|]. apply Z.leb_gt in Hd0.
    replace (d' <=? 0) with false by (symmetry; apply Z.leb_gt; lia).
    destruct (ws r0) as [w r1] eqn:Hw. destruct r1 as [|c1 r2]; [done|].
    rewrite (ws_cat r0 w (String c1 r2) rest Hw) by done. cbn [cat].
    destruct (is_char c1 125); [by inversion Hp; subst|].
    apply piece_cons_Some in Hp as (l' & o' & Hp & -> & ->).
    pose proof (Hm _ _ _ _ _ Hp f' (d' - 1) rest Hf ltac:(lia) Hstop) as E.
    cbn [cat] in E. by rewrite E. }
  destruct (is_char c 91).
  { destruct (d <=? 0) eqn:Hd0; [done|]. apply Z.leb_gt in Hd0.
    replace (d' <=? 0) with false by (symmetry; apply Z.leb_gt; lia).
    destruct (ws r0) as [w r1] eqn:Hw. destruct r1 as [|c1 r2]; [done|].
    rewrite (ws_cat r0 w (String c1 r2) rest Hw) by done. cbn [cat].
    destruct (is_char c1 93); [by inversion Hp; subst|].
    apply piece_cons_Some in Hp as (l' & o' & Hp & -> & ->).
    pose proof (He _ _ _ _ _ Hp f' (d' - 1) rest Hf ltac:(lia) Hstop) as E.
    cbn [cat] in E. by rewrite E. }
  destruct (is_char c 116).
  { pose proof (pword_cat _ _ _ _ _ rest Hp) as E. cbn [cat] in E. exact E. }
  destruct (is_char c 102).
  { pose proof (pword_cat _ _ _ _ _ rest Hp) as E. cbn [cat] in E. exact E. }
  destruct (is_char c 110).
  { pose proof (pword_cat _ _ _ _ _ rest Hp) as E. cbn [cat] in E. exact E. }
  destruct (pnumber (String c r0)) as [[ln rn]|] eqn:Hn; [|done].
  inversion Hp; subst; clear Hp.
  pose proof (ext_pnumber _ _ _ rest Hn Hstop) as E. cbn [cat] in E. by rewrite E.
Qed.

Lemma pelems_stable_step f :
  stable pvalue f -> stable pelems f -> stable pelems (S f).
Proof.
  intros Hv He d s l o r Hp fuel' d' rest Hfuel Hd Hstop.
  destruct fuel' as [|f']; [lia|]. assert (Hf : (f <= f')%nat) by lia.
  cbn [pelems] in *.
  destruct (pvalue f d s) as [[[lv ov] rv]|] eqn:Hpv; [|done].
  destruct (ws rv) as [w1 r1] eqn:Hw1. destruct r1 as [|c r2]; [done|].
  assert (Hrv : rv <> EmptyString) by (intros ->; discriminate Hw1).
  rewrite (Hv _ _ _ _ _ Hpv f' d' rest Hf Hd) by done.
  rewrite (ws_cat rv w1 (String c r2) rest Hw1) by done. cbn [cat].
  destruct (is_char c 93); [by inversion Hp; subst|].
  destruct (is_char c 44); [|done].
  destruct (ws r2) as [w2 r3] eqn:Hw2.
  apply piece_cons_Some in Hp as (l' & o' & Hp & -> & ->).
  assert (Hr3 : r3 <> EmptyString) by (intros ->; by rewrite pelems_nil in Hp).
  rewrite (ws_cat r2 w2 r3 rest Hw2 Hr3).
  by rewrite (He _ _ _ _ _ Hp f' d' rest Hf Hd Hstop).
Qed.

Lemma pmembers_stable_step f :
  stable pvalue f -> stable pmembers f -> stable pmembers (S f).
Proof.
  intros Hv Hm d s l o r Hp fuel' d' rest Hfuel Hd Hstop.
  destruct fuel' as [|f']; [lia|]. assert (Hf : (f <= f')%nat) by lia.
  destruct s as [|q rq]; [done|]. cbn [pmembers cat] in *.
  destruct (is_char q 34); [|done].
  destruct (pstr_body rq) as [[[kl ko] rk]|] eqn:Hk; [|done].
  rewrite (pstr_body_cat rq kl ko rk rest Hk).
  destruct (ws rk) as [w0 r0] eqn:Hw0. destruct r0 as [|cc rc]; [done|].
  rewrite (ws_cat rk w0 (String cc rc) rest Hw0) by done. cbn [cat].
  destruct (is_char cc 58); [|done].
  destruct (ws rc) as [wv rv] eqn:Hwv.
  destruct (pvalue f d rv) as [[[lv ov] rv']|] eqn:Hpv; [|done].
  assert (Hrv : rv <> EmptyString) by (intros ->; by rewrite pvalue_nil in Hpv).
  rewrite (ws_cat rc wv rv rest Hwv Hrv).
  destruct (ws rv') as [w1 r1] eqn:Hw1. destruct r1 as [|c r2]; [done|].
  assert (Hrv' : rv' <> EmptyString) by (intros ->; discriminate Hw1).
  rewrite (Hv _ _ _ _ _ Hpv f' d' rest Hf Hd) by done.
  rewrite (ws_cat rv' w1 (String c r2) rest Hw1) by done. cbn [cat].
  destruct (is_char c 125); [by inversion Hp; subst|].
  destruct (is_char c 44); [|done].
  destruct (ws r2) as [w2 r3] eqn:Hw2.
  apply piece_cons_Some in Hp as (l' & o' & Hp & -> & ->).
  assert (Hr3 : r3 <> EmptyString) by (intros ->; by rewrite pmembers_nil in Hp).
  rewrite (ws_cat r2 w2 r3 rest Hw2 Hr3).
  by rewrite (Hm _ _ _ _ _ Hp f' d' rest Hf Hd Hstop).
Qed.

Lemma readers_stable fuel :
  stable pvalue fuel /\ stable pelems fuel /\ stable pmembers fuel.
Proof.
  induction fuel as [|f (Hv & He & Hm)].
  - repeat split; intros d s l o r Hp; discriminate Hp.
  - split; [by apply pvalue_stable_step|].
    split; [by apply pelems_stable_step|by apply pmembers_stable_step].
Qed.

Lemma pvalue_stable fuel d s l o r fuel' d' rest :
  pvalue fuel d s = Some (l, o, r) ->
  (fuel <= fuel')%nat -> d <= d' -> (r = EmptyString -> number_stop rest) ->
  pvalue fuel' d' (cat s rest) = Some (l, o, cat r rest).
Proof. intros Hp. by apply (proj1 (readers_stable fuel)). Qed.

(** *** Strings *)

(** Text of bytes below 0x80. *)
Fixpoint ascii_text (s : string) : bool :=
  match s with
  | EmptyString => true
  | String c r => (byte_val c <? 128) && ascii_text r
  end.

(** The letters of the two-byte escapes. *)
Definition simple_esc (e : ascii) : bool :=
  is_char e 98 || is_char e 102 || is_char e 110 || is_char e 114
  || is_char e 116 || is_char e 92 || is_char e 47 || is_char e 34.


Lemma is_char_neq c k : byte_val c <> k -> is_char c k = false.
Proof. intros H. by apply Z.eqb_neq. Qed.

Lemma chr_byte_val c : chr (byte_val c) = c.
Proof. unfold chr, byte_val. by rewrite N2Z.id, ascii_N_embedding. Qed.

Lemma byte_val_eq_chr c k : byte_val c = k -> c = chr k.
Proof. intros <-. by rewrite chr_byte_val. Qed.

Lemma hex_char_ok n : 0 <= n < 16 ->
  is_hex (hex_char n) = true /\ hex_val (hex_char n) = n.
Proof.
  intros Hn.
  assert (Hall : forallb (fun k => is_hex (hex_char (Z.of_nat k))
                                   && (hex_val (hex_char (Z.of_nat k)) =? Z.of_nat k))
                   (seq 0 16) = true) by (by vm_compute).
  rewrite forallb_forall in Hall.
  assert (Hin : In (Z.to_nat n) (seq 0 16)) by (apply in_seq; lia).
  apply Hall in Hin. rewrite Z2Nat.id in Hin by lia.
  apply andb_true_iff in Hin as [Hh Hv].
  split; [done|by apply Z.eqb_eq].
Qed.

(** The three shapes of an escaped byte. *)
Lemma escape_byte_cases c :
  (exists e, escape_byte c = String bslash (str1 e) /\
     simple_esc e = true /\ is_char e 117 = false /\ unescape_char e = Some c) \/
  (escape_byte c = u00 c /\ byte_val c < 128) \/
  (escape_byte c = str1 c /\ is_char c 34 = false /\ is_char c 92 = false /\
   (byte_val c <? 32) = false /\
   (is_char c 60 || is_char c 62 || is_char c 38) = false).
Proof.
  unfold escape_byte.
  destruct ((byte_val c =? 34) || (byte_val c =? 92)) eqn:H1.
  { left. exists c. split; [done|].
    apply orb_true_iff in H1 as [H1|H1]; apply Z.eqb_eq in H1;
      apply byte_val_eq_chr in H1; subst c; by vm_compute. }
  apply orb_false_iff in H1 as [H34 H92].
  destruct (byte_val c =? 8) eqn:H8.
  { left. exists "b"%char. apply Z.eqb_eq, byte_val_eq_chr in H8. subst c. by vm_compute. }
  destruct (byte_val c =? 12) eqn:H12.
  { left. exists "f"%char. apply Z.eqb_eq, byte_val_eq_chr in H12. subst c. by vm_compute. }
  destruct (byte_val c =? 10) eqn:H10.
  { left. exists "n"%char. apply Z.eqb_eq, byte_val_eq_chr in H10. subst c. by vm_compute. }
  destruct (byte_val c =? 13) eqn:H13.
  { left. exists "r"%char. apply Z.eqb_eq, byte_val_eq_chr in H13. subst c. by vm_compute. }
  destruct (byte_val c =? 9) eqn:H9.
  { left. exists "t"%char. apply Z.eqb_eq, byte_val_eq_chr in H9. subst c. by vm_compute. }
  destruct ((byte_val c <? 32) || (byte_val c =? 60) || (byte_val c =? 62)
            || (byte_val c =? 38)) eqn:Hu.
  { right. left. split; [done|].
    repeat (apply orb_true_iff in Hu as [Hu|Hu]);
      [apply Z.ltb_lt in Hu|apply Z.eqb_eq in Hu..]; lia. }
  right. right. split; [done|].
  repeat (apply orb_false_iff in Hu as [Hu ?]).
  unfold is_char. repeat split; try done.
  repeat (apply orb_false_iff; split); done.
Qed.

Lemma u00_shape c : byte_val c < 128 ->
  exists h1 h2, u00 c = String bslash (String "u" (String "0" (String "0"
                          (String h1 (str1 h2))))) /\
    is_hex h1 = true /\ is_hex h2 = true /\ hex4 "0" "0" h1 h2 = byte_val c.
Proof.
  intros Hc. pose proof (byte_val_range c) as Hr.
  exists (hex_char (byte_val c / 16)), (hex_char (byte_val c mod 16)).
  destruct (hex_char_ok (byte_val c / 16)) as [Hh1 Hv1].
  { split; [apply Z.div_pos; lia|apply Z.div_lt_upper_bound; lia]. }
  destruct (hex_char_ok (byte_val c mod 16)) as [Hh2 Hv2].
  { apply Z.mod_pos_bound. lia. }
  repeat split; try done.
  unfold hex4. rewrite Hv1, Hv2. change (hex_val "0") with 0.
  pose proof (Z.div_mod (byte_val c) 16). lia.
Qed.

Lemma ascii_not_226 c : byte_val c < 128 -> is_char c 226 = false.
Proof. intros H. apply is_char_neq. lia. Qed.

(** The scanner reads an escaped text up to the closing quote, and
    compaction leaves it as it is. *)
Lemma pstr_body_escape s rest :
  ascii_text s = true ->
  pstr_body (cat (escape s) (String dquote rest)) =
    Some (cat (escape s) (str1 dquote), cat (escape s) (str1 dquote), rest).
Proof.
  induction s as [|c s IH]; cbn [escape ascii_text cat].
  - intros _. reflexivity.
  - intros [Hc Hs]%andb_true_iff. apply Z.ltb_lt in Hc. specialize (IH Hs).
    rewrite !cat_assoc.
    destruct (escape_byte_cases c) as
      [(e & -> & He & Hu & _)|[[-> _]|(-> & H34 & H92 & H32 & Hhtml)]].
    + cbn [cat str1 pstr_body].
      change (is_char bslash 34) with false. change (is_char bslash 92) with true.
      cbn match. fold (simple_esc e). rewrite He, IH. reflexivity.
    + destruct (u00_shape c Hc) as (h1 & h2 & -> & Hh1 & Hh2 & _).
      cbn [cat str1 pstr_body].
      change (is_char bslash 34) with false. change (is_char bslash 92) with true.
      cbn match. change (is_char "u" 98 || is_char "u" 102 || is_char "u" 110
                         || is_char "u" 114 || is_char "u" 116 || is_char "u" 92
                         || is_char "u" 47 || is_char "u" 34) with false.
      change (is_char "u" 117) with true. change (is_hex "0") with true.
      cbn match. rewrite Hh1, Hh2. cbn [andb]. rewrite IH. reflexivity.
    + cbn [cat str1 pstr_body]. rewrite H34, H92, H32, Hhtml, (ascii_not_226 c Hc), IH.
      reflexivity.
Qed.

(** Unquoting gives the text back. *)
Lemma unquote_body_escape s :
  ascii_text s = true -> unquote_body (cat (escape s) (str1 dquote)) = Some s.
Proof.
  induction s as [|c s IH]; cbn [escape ascii_text cat].
  - intros _. reflexivity.
  - intros [Hc Hs]%andb_true_iff. apply Z.ltb_lt in Hc. specialize (IH Hs).
    rewrite !cat_assoc.
    destruct (escape_byte_cases c) as
      [(e & -> & He & Hu & Hun)|[[-> _]|(-> & H34 & H92 & H32 & Hhtml)]].
    + cbn [cat str1 unquote_body].
      change (is_char bslash 34) with false. change (is_char bslash 92) with true.
      cbn match. rewrite Hu, Hun, IH. reflexivity.
    + destruct (u00_shape c Hc) as (h1 & h2 & -> & Hh1 & Hh2 & Hv).
      cbn [cat str1 unquote_body].
      change (is_char bslash 34) with false. change (is_char bslash 92) with true.
      cbn match. change (is_char "u" 117) with true. change (is_hex "0") with true.
      cbn match. rewrite Hh1, Hh2, Hv. cbn [andb].
      pose proof (byte_val_range c) as Hr.
      replace ((55296 <=? byte_val c) && (byte_val c <? 57344)) with false
        by (symmetry; apply andb_false_iff; left; apply Z.leb_gt; lia).
      rewrite IH. unfold encode_rune.
      replace (byte_val c <? 128) with true by (symmetry; apply Z.ltb_lt; lia).
      cbn. by rewrite chr_byte_val.
    + cbn [cat str1 unquote_body]. rewrite H34, H92, IH. reflexivity.
Qed.

(** *** Numbers *)

Lemma is_digit_digit_val c : is_digit c = true <-> exists d, digit_val c = Some d.
Proof.
  unfold is_digit, digit_val.
  destruct ((48 <=? byte_val c) && (byte_val c <=? 57)); split; eauto; try done.
  intros [d Hd]. done.
Qed.

Lemma span_digits_all D : all_digits D = true -> span_digits D = (D, EmptyString).
Proof.
  induction D as [|c r IH]; cbn [all_digits span_digits]; [done|].
  destruct (digit_val c) as [d|] eqn:Hd; [|done]. intros Hr.
  rewrite (proj2 (is_digit_digit_val c)) by eauto. by rewrite (IH Hr).
Qed.

Lemma int_part_digits D :
  all_digits D = true -> D <> EmptyString ->
  (leading_nonzero D \/ D = "0") -> int_part D = Some (D, EmptyString).
Proof.
  intros Hall Hne [Hlead| ->]; [|reflexivity].
  destruct D as [|c r]; [done|]. cbn in Hall, Hlead |- *.
  destruct (digit_val c) as [d|] eqn:Hd; [|done].
  rewrite (is_char_neq c 48 Hlead), (proj2 (is_digit_digit_val c)) by eauto.
  by rewrite (span_digits_all r Hall).
Qed.

Lemma udec_shape n :
  all_digits (udec n) = true /\ udec n <> EmptyString /\
  (leading_nonzero (udec n) \/ udec n = "0").
Proof.
  destruct (N.eq_dec n 0%N) as [->|Hn].
  { split; [done|]. split; [done|]. by right. }
  destruct (udec_spec n) as (D & -> & Hall & Hne & _ & Hlead).
  split; [done|]. split; [done|]. left. by apply Hlead.
Qed.

Lemma pnumber_digits D :
  all_digits D = true -> D <> EmptyString ->
  (leading_nonzero D \/ D = "0") ->
  pnumber D = Some (D, EmptyString) /\
  pnumber (String "-" D) = Some (String "-" D, EmptyString).
Proof.
  intros Hall Hne Hlead.
  pose proof (int_part_digits D Hall Hne Hlead) as Hint.
  assert (Hrest : seq2 int_part (seq2 frac_part exp_part) D = Some (D, EmptyString)).
  { unfold seq2. rewrite Hint. cbn. by rewrite cat_nil_r. }
  split.
  - unfold pnumber, seq2 at 1. destruct D as [|c r]; [done|].
    cbn [opt_char]. cbn in Hall. destruct (digit_val c) as [d|] eqn:Hd; [|done].
    apply digit_val_range in Hd as [Hd _].
    rewrite (is_char_neq c 45) by lia. by rewrite Hrest.
  - unfold pnumber, seq2 at 1. cbn [opt_char].
    change (is_char "-" 45) with true. cbn match. by rewrite Hrest.
Qed.

Lemma pnumber_format_d z : pnumber (format_d z) = Some (format_d z, EmptyString).
Proof.
  unfold format_d. destruct (z <? 0).
  - destruct (udec_shape (Z.to_N (- z))) as (Hall & Hne & Hlead).
    by apply pnumber_digits.
  - destruct (udec_shape (Z.to_N z)) as (Hall & Hne & Hlead).
    by apply pnumber_digits.
Qed.

(** The first byte of a decimal number: a digit or the minus sign. *)
Lemma format_d_first z :
  exists c r, format_d z = String c r /\
    (byte_val c = 45 \/ 48 <= byte_val c <= 57).
Proof.
  unfold format_d. destruct (z <? 0).
  - exists "-"%char, (udec (Z.to_N (- z))). split; [done|]. by left.
  - destruct (udec_shape (Z.to_N z)) as (Hall & Hne & _).
    destruct (udec (Z.to_N z)) as [|c r]; [done|]. exists c, r. split; [done|].
    cbn in Hall. destruct (digit_val c) as [d|] eqn:Hd; [|done].
    apply digit_val_range in Hd as [Hd _]. by right.
Qed.

(** A value that the scanner reads exactly, with nothing left, and that
    compaction leaves as it is, within [d] levels of nesting. *)
Definition cv (d : Z) (lit : string) : Prop :=
  pvalue (S (String.length lit)) d lit = Some (lit, lit, EmptyString).

Lemma cv_read d lit fuel' d' rest :
  cv d lit -> (S (String.length lit) <= fuel')%nat -> d <= d' -> number_stop rest ->
  pvalue fuel' d' (cat lit rest) = Some (lit, lit, rest).
Proof.
  intros Hcv Hf Hd Hstop.
  exact (pvalue_stable _ _ _ _ _ _ fuel' d' rest Hcv Hf Hd (fun _ => Hstop)).
Qed.

Lemma cv_mono d d' lit : cv d lit -> d <= d' -> cv d' lit.
Proof.
  intros Hcv Hd. unfold cv.
  pose proof (cv_read d lit (S (String.length lit)) d' EmptyString Hcv
                ltac:(lia) Hd I) as E.
  by rewrite cat_nil_r in E.
Qed.

Lemma cv_number d z : cv d (format_d z).
Proof.
  unfold cv. destruct (format_d_first z) as (c & r & Hs & Hc).
  pose proof (pnumber_format_d z) as Hn. rewrite Hs in *. cbn [pvalue].
  rewrite !is_char_neq by lia. by rewrite Hn.
Qed.

Lemma cv_quote d s : ascii_text s = true -> cv d (quote s).
Proof.
  intros Hs. unfold cv, quote. cbn [pvalue].
  change (is_char dquote 34) with true. cbn match.
  pose proof (pstr_body_escape s EmptyString Hs) as E.
  unfold str1 in *. by rewrite E.
Qed.

Lemma unquote_quote s : ascii_text s = true -> unquote (quote s) = Some s.
Proof.
  intros Hs. unfold unquote, quote. change (is_char dquote 34) with true.
  cbn match. by apply unquote_body_escape.
Qed.

(** *** Objects *)

Lemma is_ws_cases c : is_ws c = true ->
  byte_val c = 32 \/ byte_val c = 9 \/ byte_val c = 13 \/ byte_val c = 10.
Proof.
  unfold is_ws, is_char. intros H.
  repeat (apply orb_true_iff in H as [H|H]); apply Z.eqb_eq in H; lia.
Qed.

Lemma pvalue_first_not_ws fuel d c r x :
  pvalue fuel d (String c r) = Some x -> is_ws c = false.
Proof.
  destruct (is_ws c) eqn:Hws; [|done]. intros Hp. exfalso.
  apply is_ws_cases in Hws. destruct fuel as [|f]; [done|]. cbn [pvalue] in Hp.
  rewrite !is_char_neq in Hp by lia.
  unfold pnumber, seq2, opt_char, int_part in Hp.
  rewrite !is_char_neq in Hp by lia.
  replace (is_digit c) with false in Hp; [done|].
  symmetry. unfold is_digit. apply andb_false_iff. left. apply Z.leb_gt. lia.
Qed.

Lemma cv_nonempty d lit : cv d lit -> lit <> EmptyString.
Proof. unfold cv. by destruct lit. Qed.

Lemma cv_ws d v Y : cv d v -> ws (cat v Y) = (EmptyString, cat v Y).
Proof.
  intros Hcv. destruct v as [|c r]; [by apply cv_nonempty in Hcv|].
  cbn [cat]. apply ws_not_ws. by eapply pvalue_first_not_ws.
Qed.

(** A key that is written as it is. *)
Definition plain (k : string) : Prop := escape k = k /\ ascii_text k = true.

Definition field_ok (d : Z) (kv : string * string) : Prop :=
  plain (fst kv) /\ cv d (snd kv).

Lemma plain_read k rest : plain k ->
  pstr_body (cat k (String dquote rest)) =
    Some (cat k (str1 dquote), cat k (str1 dquote), rest).
Proof.
  intros [He Ha]. pose proof (pstr_body_escape k rest Ha) as E. by rewrite He in E.
Qed.

Lemma plain_unquote k : plain k -> unquote (String dquote (cat k (str1 dquote))) = Some k.
Proof.
  intros [He Ha]. pose proof (unquote_quote k Ha) as E. unfold quote in E.
  by rewrite He in E.
Qed.

Lemma length_key k : String.length (key k) = (String.length k + 3)%nat.
Proof. unfold key. cbn. rewrite length_cat. cbn. lia. Qed.

(** The text of the members after the first. *)
Definition more_members (fs : list (string * string)) : string :=
  match fs with
  | [] => EmptyString
  | _ => String "," (print_members fs)
  end.

Lemma print_members_cons k v fs :
  print_members ((k, v) :: fs) = cat (key k) (cat v (more_members fs)).
Proof. destruct fs; cbn [print_members more_members]; by rewrite ?cat_nil_r. Qed.

Lemma key_cat k X :
  cat (key k) X = String dquote (cat k (String dquote (String ":" X))).
Proof. unfold key. cbn [cat]. by rewrite cat_assoc. Qed.

Lemma more_members_stop fs rest : number_stop (cat (more_members fs) (String "}" rest)).
Proof. destruct fs; by vm_compute. Qed.

Lemma more_members_ws fs rest :
  ws (cat (more_members fs) (String "}" rest)) =
    (EmptyString, cat (more_members fs) (String "}" rest)).
Proof. destruct fs; reflexivity. Qed.

Lemma print_members_ws k v fs X :
  ws (cat (print_members ((k, v) :: fs)) X) =
    (EmptyString, cat (print_members ((k, v) :: fs)) X).
Proof. rewrite print_members_cons, key_cat. reflexivity. Qed.

(** The scanner reads the members that were printed, up to the closing
    brace, and compaction leaves them as they are. *)
Lemma pmembers_print d fs : fs <> [] -> Forall (field_ok d) fs ->
  forall fuel d' rest,
    (S (String.length (print_members fs)) <= fuel)%nat -> d <= d' ->
    pmembers fuel d' (cat (print_members fs) (String "}" rest)) =
      Some (cat (print_members fs) "}", cat (print_members fs) "}", rest).
Proof.
  induction fs as [|[k v] fs IH]; [done|]. intros _ Hall fuel d' rest Hfuel Hd.
  inversion Hall as [|kv fs' [Hk Hv] Hall' E1]; subst. cbn [fst snd] in Hk, Hv.
  destruct fuel as [|f]; [lia|].
  rewrite print_members_cons in *. rewrite !length_cat, length_key in Hfuel.
  rewrite !cat_assoc, key_cat. cbn [pmembers].
  change (is_char dquote 34) with true. cbn match.
  rewrite (plain_read k _ Hk). cbn [ws]. change (is_ws ":") with false. cbn match.
  change (is_char ":" 58) with true. cbn match.
  rewrite (cv_ws d v _ Hv).
  rewrite (cv_read d v f d' _ Hv ltac:(lia) Hd (more_members_stop fs rest)).
  rewrite more_members_ws.
  destruct fs as [|kv2 fs2].
  - cbn [more_members cat]. change (is_char "}" 125) with true. cbn match.
    unfold str1. cbn [cat]. rewrite !cat_assoc. cbn [cat]. rewrite !key_cat.
    reflexivity.
  - cbn [more_members cat]. change (is_char "," 125) with false.
    change (is_char "," 44) with true. cbn match.
    destruct kv2 as [k2 v2]. rewrite print_members_ws.
    rewrite (IH ltac:(done) Hall' f d' rest); [|cbn [more_members String.length] in Hfuel; lia|done].
    cbn [piece_cons]. unfold str1. cbn [cat]. rewrite !cat_assoc. cbn [cat].
    rewrite !key_cat, ?cat_assoc. reflexivity.
Qed.

(** An object of compact values is a compact value, one level deeper. *)
Lemma cv_object d fs : fs <> [] -> Forall (field_ok d) fs -> 0 <= d ->
  cv (d + 1) (print_object fs).
Proof.
  intros Hne Hall Hd. unfold cv, print_object. cbn [pvalue].
  change (is_char "{" 34) with false. change (is_char "{" 123) with true. cbn match.
  replace (d + 1 <=? 0) with false by (symmetry; apply Z.leb_gt; lia).
  destruct fs as [|[k v] fs]; [done|].
  rewrite print_members_ws.
  rewrite (pmembers_print d _ Hne Hall _ (d + 1 - 1) EmptyString);
    [| cbn [String.length]; rewrite length_cat; cbn; lia | lia].
  set (X := cat (print_members ((k, v) :: fs)) "}").
  assert (HX : exists T, X = String dquote T)
    by (subst X; rewrite print_members_cons, key_cat; eauto).
  destruct HX as [T ->]. reflexivity.
Qed.

(** The decoder finds the members that were printed. *)
Lemma split_members_print d fs : fs <> [] -> Forall (field_ok d) fs ->
  d <= maxNestingDepth ->
  forall fuel rest, (length fs <= fuel)%nat ->
    split_members fuel (cat (print_members fs) (String "}" rest)) = Some fs.
Proof.
  intros Hne Hall Hd. induction fs as [|[k v] fs IH]; [done|]. intros fuel rest Hfuel.
  inversion Hall as [|kv fs' [Hk Hv] Hall' E1]; subst. cbn [fst snd] in Hk, Hv.
  destruct fuel as [|f]; [cbn in Hfuel; lia|].
  rewrite print_members_cons. rewrite !cat_assoc, key_cat. cbn [split_members].
  rewrite (plain_read k _ Hk), (plain_unquote k Hk).
  cbn [ws]. change (is_ws ":") with false. cbn match.
  rewrite (cv_ws d v _ Hv).
  rewrite (cv_read d v _ maxNestingDepth _ Hv); [|rewrite length_cat; lia|done|
    apply more_members_stop].
  rewrite more_members_ws.
  destruct fs as [|kv2 fs2].
  - cbn [more_members cat]. change (is_char "}" 44) with false. reflexivity.
  - cbn [more_members cat]. change (is_char "," 44) with true. cbn match.
    destruct kv2 as [k2 v2]. rewrite print_members_ws.
    rewrite (IH ltac:(done) Hall' f rest); [done|]. cbn in Hfuel |- *. lia.
Qed.

Lemma object_members_print d fs : fs <> [] -> Forall (field_ok d) fs ->
  d <= maxNestingDepth -> object_members (print_object fs) = Some fs.
Proof.
  intros Hne Hall Hd. unfold object_members, print_object.
  destruct fs as [|[k v] fs]; [done|].
  rewrite print_members_ws.
  assert (Hlen : forall gs : list (string * string),
            (length gs <= String.length (print_members gs))%nat).
  { clear. induction gs as [|[k2 v2] gs IH]; [cbn; lia|].
    rewrite print_members_cons, !length_cat, length_key.
    destruct gs; cbn [length more_members String.length] in *; lia. }
  pose proof (split_members_print d _ Hne Hall Hd
                (String.length (cat (print_members ((k, v) :: fs)) "}")) EmptyString) as E.
  rewrite length_cat in E. specialize (E ltac:(specialize (Hlen ((k, v) :: fs)); lia)).
  rewrite <- length_cat in E.
  set (X := cat (print_members ((k, v) :: fs)) "}") in *.
  assert (HX : exists T, X = String dquote T)
    by (subst X; rewrite print_members_cons, key_cat; eauto).
  destruct HX as [T HX]. rewrite HX in *. exact E.
Qed.

(** *** Messages *)

(** A raw field that is written as it is: empty, or one compact value
    with room for the two levels a message puts around it. *)
Definition raw_ok (raw : RawMessage) : Prop :=
  raw = EmptyString \/ cv (maxNestingDepth - 2) raw.

(** An id made by [NewNumberID] or [NewStringID], not the null id. *)
Definition id_ok (id : ID) : Prop :=
  (exists n, id = NewNumberID n /\ in_int64 n) \/
  (exists s, id = NewStringID s /\ ascii_text s = true).

Definition error_ok (e : Error) : Prop :=
  in_int64 (Code e) /\ ascii_text (EMessage e) = true /\ raw_ok (Data e).

(** The messages the codec gives back unchanged: ASCII text, a number or
    string id if any, raw fields in compact form. *)
Definition canonical (m : Message) : Prop :=
  ascii_text (JSONRPC m) = true /\
  (forall id, MID m = Some id -> id_ok id) /\
  ascii_text (Method m) = true /\
  raw_ok (Params m) /\ raw_ok (Result m) /\
  (forall e, MError m = Some e -> error_ok e).

Lemma pdocument_cv d lit :
  cv d lit -> d <= maxNestingDepth -> pdocument lit = Some (lit, lit).
Proof.
  intros Hcv Hd. unfold pdocument.
  pose proof (cv_ws d lit EmptyString Hcv) as Hw. rewrite cat_nil_r in Hw. rewrite Hw.
  pose proof (cv_mono d maxNestingDepth lit Hcv Hd) as Hm. unfold cv in Hm.
  by rewrite Hm.
Qed.

Lemma compact_cv d lit : cv d lit -> d <= maxNestingDepth -> compact lit = Some lit.
Proof. intros Hcv Hd. unfold compact. by rewrite (pdocument_cv d lit Hcv Hd). Qed.

Lemma assign_all_app {A} (f : A -> string * string -> option A) a b x :
  assign_all f (a ++ b) x =
  match assign_all f a x with Some y => assign_all f b y | None => None end.
Proof.
  revert x. induction a as [|kv a IH]; intros x; cbn; [done|].
  destruct (f x kv); [apply IH|done].
Qed.

Lemma kind_of_format_d z : kind_of (format_d z) = KNumber.
Proof.
  destruct (format_d_first z) as (c & r & -> & Hc). cbn [kind_of].
  rewrite !is_char_neq by lia. reflexivity.
Qed.

Lemma decode_string_quote s cur :
  ascii_text s = true -> decode_string (quote s) cur = Some s.
Proof. intros Hs. unfold decode_string. cbn [kind_of quote]. by apply unquote_quote. Qed.

Lemma decode_int_format_d z cur : in_int64 z -> decode_int (format_d z) cur = Some z.
Proof.
  intros Hz. unfold decode_int. rewrite kind_of_format_d. by apply Atoi_format_d.
Qed.

Lemma decode_id_ok id :
  id_ok id ->
  exists lit, compact (ID_MarshalJSON id) = Some lit /\
    (forall d, cv d lit) /\ decode_id lit None = Some (Some id).
Proof.
  intros [(n & -> & Hn)|(s & -> & Hs)]; cbn [ID_MarshalJSON num str NewNumberID NewStringID].
  - exists (format_d n).
    split; [apply (compact_cv 0); [apply cv_number|unfold maxNestingDepth; lia]|].
    split; [intros d; apply cv_number|].
    unfold decode_id, ID_UnmarshalJSON. rewrite kind_of_format_d.
    by rewrite (Atoi_format_d n Hn).
  - exists (quote s).
    split; [apply (compact_cv 0); [by apply cv_quote|unfold maxNestingDepth; lia]|].
    split; [intros d; by apply cv_quote|].
    unfold decode_id, ID_UnmarshalJSON. cbn [kind_of quote].
    change (is_char dquote 34) with true. cbn match.
    by rewrite (unquote_quote s Hs).
Qed.

Lemma plain_keys :
  plain "jsonrpc" /\ plain "id" /\ plain "method" /\ plain "params" /\
  plain "result" /\ plain "error" /\ plain "code" /\ plain "message" /\ plain "data".
Proof. repeat split; reflexivity. Qed.

(** A raw field with [omitempty]: what is written for it. *)
Lemma raw_field_ok k raw :
  raw_ok raw ->
  raw_field k raw = Some (if nonempty raw then [(k, raw)] else []) /\
  (nonempty raw = true -> cv (maxNestingDepth - 2) raw).
Proof.
  intros [->|Hcv]; [by split|].
  pose proof (cv_nonempty _ _ Hcv) as Hne.
  destruct raw as [|c r]; [done|]. unfold raw_field, marshaler_field. cbn [nonempty negb].
  rewrite (compact_cv _ _ Hcv) by (unfold maxNestingDepth; lia). by split.
Qed.

(** The fields of a canonical error, and the error read back from them. *)
Lemma Error_fields_ok e :
  error_ok e ->
  exists fs, Error_fields e = Some fs /\ fs <> [] /\
    Forall (field_ok (maxNestingDepth - 2)) fs /\
    assign_all assign_Error fs (mkError 0 EmptyString EmptyString) = Some e.
Proof.
  destruct e as [code msg data]. intros (Hc & Hm & Hd). cbn [Code EMessage Data] in *.
  destruct (raw_field_ok "data" data Hd) as [Hf Hcv].
  unfold Error_fields. cbn [Data Code EMessage]. rewrite Hf.
  eexists. split; [reflexivity|]. split; [done|].
  destruct plain_keys as (_ & _ & _ & _ & _ & _ & Hk1 & Hk2 & Hk3).
  split.
  - constructor; [split; [exact Hk1|apply cv_number]|].
    constructor; [split; [exact Hk2|by apply cv_quote]|].
    destruct (nonempty data); [|constructor].
    constructor; [split; [exact Hk3|by apply Hcv]|constructor].
  - cbn [app assign_all].
    change (assign_Error (mkError 0 EmptyString EmptyString) ("code", format_d code))
      with (option_map (fun c => mkError c EmptyString EmptyString)
              (decode_int (format_d code) 0)).
    rewrite (decode_int_format_d code 0 Hc). cbn [option_map].
    change (assign_Error (mkError code EmptyString EmptyString) ("message", quote msg))
      with (option_map (fun s => mkError code s EmptyString)
              (decode_string (quote msg) EmptyString)).
    rewrite (decode_string_quote msg EmptyString Hm). cbn [option_map].
    destruct data as [|c r]; reflexivity.
Qed.

Lemma decode_error_ok e :
  error_ok e ->
  exists fs, Error_fields e = Some fs /\
    cv (maxNestingDepth - 1) (print_object fs) /\
    decode_error (print_object fs) None = Some (Some e).
Proof.
  intros He. destruct (Error_fields_ok e He) as (fs & Hf & Hne & Hall & Ha).
  exists fs. split; [done|]. split.
  - replace (maxNestingDepth - 1) with (maxNestingDepth - 2 + 1) by lia.
    apply cv_object; [done|done|unfold maxNestingDepth; lia].
  - unfold decode_error. change (kind_of (print_object fs)) with KObject.
    rewrite (object_members_print _ fs Hne Hall) by (unfold maxNestingDepth; lia).
    cbn [default]. by rewrite Ha.
Qed.

(** The fields of a canonical message, and the message read back from
    them. *)
Lemma Message_fields_ok m :
  canonical m ->
  exists fs, Message_fields m = Some fs /\ fs <> [] /\
    Forall (field_ok (maxNestingDepth - 1)) fs /\
    assign_all assign_Message fs zeroMessage = Some m.
Proof.
  destruct m as [j i me pa re er]. intros (Hj & Hi & Hme & Hpa & Hre & Her).
  cbn [JSONRPC MID Method Params Result MError] in *.
  destruct (raw_field_ok "params" pa Hpa) as [Hfp Hcp].
  destruct (raw_field_ok "result" re Hre) as [Hfr Hcr].
  destruct plain_keys as (Hk1 & Hk2 & Hk3 & Hk4 & Hk5 & Hk6 & _).
  assert (Hup : forall lit, cv (maxNestingDepth - 2) lit -> cv (maxNestingDepth - 1) lit)
    by (intros lit H; apply (cv_mono _ _ _ H); lia).
  (* the id *)
  assert (Hid : exists fid,
    match i with
    | None => Some []
    | Some id => marshaler_field false "id" (ID_MarshalJSON id)
    end = Some fid /\
    Forall (field_ok (maxNestingDepth - 1)) fid /\
    forall j0, assign_all assign_Message fid
                 (mkMessage j0 None EmptyString EmptyString EmptyString None)
               = Some (mkMessage j0 i EmptyString EmptyString EmptyString None)).
  { destruct i as [id|]; [|exists []; repeat split; constructor].
    destruct (decode_id_ok id (Hi id eq_refl)) as (lit & Hc & Hcv & Hdec).
    exists [("id", lit)]. unfold marshaler_field. rewrite Hc.
    split; [done|]. split; [constructor; [by split|constructor]|].
    intros j0. cbn [assign_all].
    change (assign_Message (mkMessage j0 None EmptyString EmptyString EmptyString None)
              ("id", lit))
      with (option_map
              (fun i' => mkMessage j0 i' EmptyString EmptyString EmptyString None)
              (decode_id lit None)).
    by rewrite Hdec. }
  destruct Hid as (fid & Hfid & Hallid & Haid).
  (* the error *)
  assert (Herr : exists fe,
    match er with
    | None => Some []
    | Some e => option_map (fun fs => [("error", print_object fs)]) (Error_fields e)
    end = Some fe /\
    Forall (field_ok (maxNestingDepth - 1)) fe /\
    forall j0 i0 me0 pa0 re0,
      assign_all assign_Message fe (mkMessage j0 i0 me0 pa0 re0 None)
      = Some (mkMessage j0 i0 me0 pa0 re0 er)).
  { destruct er as [e|]; [|exists []; repeat split; constructor].
    destruct (decode_error_ok e (Her e eq_refl)) as (fs & Hf & Hcv & Hdec).
    exists [("error", print_object fs)]. rewrite Hf.
    split; [done|]. split; [constructor; [by split|constructor]|].
    intros j0 i0 me0 pa0 re0. cbn [assign_all].
    change (assign_Message (mkMessage j0 i0 me0 pa0 re0 None) ("error", print_object fs))
      with (option_map (fun e' => mkMessage j0 i0 me0 pa0 re0 e')
              (decode_error (print_object fs) None)).
    by rewrite Hdec. }
  destruct Herr as (fe & Hfe & Hallfe & Hafe).
  unfold Message_fields. cbn [JSONRPC MID Method Params Result MError].
  rewrite Hfid, Hfp, Hfr, Hfe. unfold RawMessage in *.
  eexists. split; [reflexivity|]. split; [done|]. split.
  - apply Forall_app. split; [constructor; [split; [exact Hk1|by apply cv_quote]|constructor]|].
    apply Forall_app. split; [done|].
    apply Forall_app. split.
    { destruct (nonempty me); [|constructor].
      constructor; [split; [exact Hk3|by apply cv_quote]|constructor]. }
    apply Forall_app. split.
    { destruct (nonempty pa); [|constructor].
      constructor; [split; [exact Hk4|by apply Hup, Hcp]|constructor]. }
    apply Forall_app. split; [|done].
    destruct (nonempty re); [|constructor].
    constructor; [split; [exact Hk5|by apply Hup, Hcr]|constructor].
  - rewrite assign_all_app. cbn [assign_all].
    change (assign_Message zeroMessage ("jsonrpc", quote j))
      with (option_map
              (fun s => mkMessage s None EmptyString EmptyString EmptyString None)
              (decode_string (quote j) EmptyString)).
    rewrite (decode_string_quote j EmptyString Hj). cbn [option_map].
    rewrite assign_all_app, Haid.
    assert (Hm : assign_all assign_Message
                   (if nonempty me then [("method", quote me)] else [])
                   (mkMessage j i EmptyString EmptyString EmptyString None)
                 = Some (mkMessage j i me EmptyString EmptyString None)).
    { destruct me as [|c r]; [reflexivity|]. cbn [nonempty assign_all].
      change (assign_Message (mkMessage j i EmptyString EmptyString EmptyString None)
                ("method", quote (String c r)))
        with (option_map
                (fun s => mkMessage j i s EmptyString EmptyString None)
                (decode_string (quote (String c r)) EmptyString)).
      by rewrite (decode_string_quote _ EmptyString Hme). }
    rewrite assign_all_app, Hm.
    assert (Hp : assign_all assign_Message
                   (if nonempty pa then [("params", pa)] else [])
                   (mkMessage j i me EmptyString EmptyString None)
                 = Some (mkMessage j i me pa EmptyString None))
      by (destruct pa; reflexivity).
    rewrite assign_all_app, Hp.
    assert (Hr : assign_all assign_Message
                   (if nonempty re then [("result", re)] else [])
                   (mkMessage j i me pa EmptyString None)
                 = Some (mkMessage j i me pa re None))
      by (destruct re; reflexivity).
    rewrite assign_all_app, Hr. apply Hafe.
Qed.

(** The codec gives a canonical message back unchanged. *)
Lemma codec_roundtrip m :
  canonical m ->
  exists body, Marshal m = Some body /\ Unmarshal body = Some m.
Proof.
  intros Hm. destruct (Message_fields_ok m Hm) as (fs & Hf & Hne & Hall & Ha).
  exists (print_object fs). unfold Marshal. rewrite Hf. split; [reflexivity|].
  assert (Hcv : cv maxNestingDepth (print_object fs)).
  { replace maxNestingDepth with (maxNestingDepth - 1 + 1) by lia.
    apply cv_object; [done|done|unfold maxNestingDepth; lia]. }
  unfold Unmarshal. rewrite (pdocument_cv _ _ Hcv) by lia.
  change (kind_of (print_object fs)) with KObject. cbn match.
  rewrite (object_members_print _ fs Hne Hall) by lia. exact Ha.
Qed.

End codec_facts.

(** ** Writing a message and reading it back *)

Module roundtrip_facts.
Import GoStrings jsonrpc gojson strings_facts framing_facts codec_facts.

(** Writing and reading back.  For every message in canonical form (text
    fields in ASCII; the id absent, a number or a string; params, result and
    error data each empty or one compact JSON value), whether request,
    notification, response or error response, Stream.Write on a writer that
    takes the bytes adds the Content-Length header and the marshalled body
    to it, and Stream.Read on these bytes, when the allocator gives a buffer
    of the length of the body, returns the message unchanged and leaves what
    follows unread. *)
Theorem framing_roundtrip `{Allocator} (m : Message) :
  canonical m ->
  exists body,
    json_Marshal m = Some body /\
    (forall s,
       Stream_Write (buffer s) m = (buffer (cat s (cat (header_for body) body)), None)) /\
    (len body <= maxAlloc ->
     forall rest,
       Stream_Read (cat (cat (header_for body) body) rest) = Returns (inr m, rest)).
Proof.
  intros Hm. destruct (codec_roundtrip m Hm) as (body & Hmar & Hun).
  exists body. split; [exact Hmar|]. split.
  - intros s. by rewrite Stream_Write_buffer, (@frame_bytes GoJSON m body Hmar).
  - intros Hlen rest. rewrite (framing_lossless body rest Hlen).
    change (json_Unmarshal body) with (Unmarshal body). by rewrite Hun.
Qed.

(** A hover request with the numeric id 7. *)
Definition hover_request : Message :=
  mkMessage "2.0" (Some (NewNumberID 7)) "textDocument/hover"
    (print_object [("position", print_object [("line", "3"); ("character", "14")])])
    EmptyString None.

Lemma hover_request_canonical : canonical hover_request.
Proof.
  split; [reflexivity|]. split.
  { intros id [= <-]. left. exists 7. split; [reflexivity|]. unfold in_int64. lia. }
  split; [reflexivity|]. split; [right; by vm_compute|].
  split; [by left|]. intros e He. discriminate He.
Qed.

(** The error response that answers unparseable input carries the null
    id. *)
Definition null_id_error : Message :=
  mkMessage "2.0" (Some NullID) EmptyString EmptyString EmptyString
    (Some (mkError ParseError "Parse error" EmptyString)).

(** A header block with an unknown header and no Content-Length. *)
Definition no_length_input : string :=
  cat (cat "X-Trace: 1" CRLF) (cat CRLF "{}").

Lemma no_length_header_lines :
  header_lines no_length_input [("X-Trace", "1")] (cat CRLF "{}").
Proof.
  apply hl_cons; [|apply hl_nil]. split.
  - exists (cat "X-Trace: 1" (String "013" EmptyString)). by split.
  - exists "X-Trace", " 1". by repeat split.
Qed.

Lemma no_length_is_missing `{Allocator} :
  Stream_Read no_length_input = Returns (inl ErrMissingContentLength, "{}").
Proof.
  destruct (Stream_Read_failures no_length_input) as (_ & H' & _).
  refine (proj1 (H' [("X-Trace", "1")] (cat CRLF "{}") no_length_header_lines)
            CRLF "{}" eq_refl _ _).
  - split; [|reflexivity]. exists (String "013" EmptyString). by split.
  - intros name value Hin. apply list_elem_of_singleton in Hin.
    inversion Hin; subst. reflexivity.
Qed.

(** A header block that announces the largest 64-bit length and ends the
    input: 9223372036854775807 is 2^63 - 1. *)
Definition huge_length_input : string :=
  cat "Content-Length: 9223372036854775807" (cat CRLF CRLF).

(** C6. The code breaks the claim on a header block that announces more
    bytes than can be allocated and is followed by the end of the input:
    where the claim has Stream.Read fail because the input ends before the
    announced bytes, the call does not return an error, it does not return
    at all.  The headers are read as a Content-Length of 2^63 - 1, and
    making the buffer panics before the body is looked at.  This holds with
    every codec and every allocator; with a length of 5 announced and two
    bytes following, the same code returns the error of reading the body. *)
Theorem Read_panics_on_huge_length `{JSONCodec} `{Allocator} :
  read_headers (S (String.length huge_length_input)) huge_length_input (-1)
    = inr (2 ^ 63 - 1, EmptyString) /\
  Stream_Read huge_length_input = Panics /\
  (5 <= maxAlloc ->
   Stream_Read (cat "Content-Length: 5" (cat CRLF (cat CRLF "{}")))
     = Returns (inl ErrReadingBody, "{}")).
Proof.
  pose proof maxAlloc_range as Hmax.
  assert (Hh : read_headers (S (String.length huge_length_input)) huge_length_input (-1)
               = inr (2 ^ 63 - 1, EmptyString)) by (by vm_compute).
  split; [exact Hh|]. split.
  - unfold Stream_Read. rewrite Hh.
    change (2 ^ 63 - 1 <? 0) with false. cbv iota.
    by replace (maxAlloc <? 2 ^ 63 - 1) with true by (symmetry; apply Z.ltb_lt; lia).
  - intros H5. unfold Stream_Read.
    assert (Hh5 : read_headers (S (String.length (cat "Content-Length: 5" (cat CRLF (cat CRLF "{}")))))
                    (cat "Content-Length: 5" (cat CRLF (cat CRLF "{}"))) (-1)
                  = inr (5, "{}")) by (by vm_compute).
    rewrite Hh5. change (5 <? 0) with false. cbv iota.
    by replace (maxAlloc <? 5) with false by (symmetry; apply Z.ltb_ge; lia).
Qed.

Section OnLinux.
Local Existing Instance linux_amd64.

Lemma framing_roundtrip_witness :
  exists body,
    json_Marshal hover_request = Some body /\
    (forall s,
       Stream_Write (buffer s) hover_request
         = (buffer (cat s (cat (header_for body) body)), None)) /\
    (len body <= maxAlloc ->
     forall rest,
       Stream_Read (cat (cat (header_for body) body) rest) = Returns (inr hover_request, rest)).
Proof. exact (framing_roundtrip hover_request hover_request_canonical). Defined.

(** Each kind of message and each kind of id, written and read back. *)
Definition reads_back (m : Message) : bool :=
  match Stream_Write (buffer EmptyString) m with
  | (w, None) =>
      match Stream_Read (written w) with
      | Returns (inr m', EmptyString) =>
          String.eqb (JSONRPC m') (JSONRPC m) && String.eqb (Method m') (Method m)
          && String.eqb (Params m') (Params m) && String.eqb (Result m') (Result m)
          && bool_decide (option_map ID_String (MID m') = option_map ID_String (MID m))
          && bool_decide (option_map IsNull (MID m') = option_map IsNull (MID m))
          && bool_decide (option_map Code (MError m') = option_map Code (MError m))
      | _ => false
      end
  | _ => false
  end.

Example kinds_read_back :
  reads_back hover_request = true /\
  reads_back (mkMessage "2.0" None "initialized" "{}" "" None) = true /\
  reads_back (mkMessage "2.0" (Some (NewStringID "a<b")) "" "" "null" None) = true /\
  reads_back (mkMessage "2.0" (Some (NewNumberID (-3))) "" "" ""
                (Some (mkError MethodNotFound "no such method" "[1,2]"))) = true.
Proof. by vm_compute. Qed.

(** C5. The code breaks the claim for the null id.  The error response
    with the null id is written with an id member that is null; reading
    these bytes back gives a message with no id at all, so the message read
    is not the message written, and what was a response is a response no
    more. *)
Theorem null_id_is_read_back_absent :
  exists bytes m',
    Stream_Write (buffer EmptyString) null_id_error = (buffer bytes, None) /\
    Stream_Read bytes = Returns (inr m', EmptyString) /\
    MID null_id_error = Some NullID /\ MID m' = None /\
    m' <> null_id_error /\
    IsResponse null_id_error = true /\ IsResponse m' = false.
Proof.
  eexists. eexists. split; [by vm_compute|]. split; [by vm_compute|].
  repeat split. discriminate.
Qed.

(** The failures of Stream.Read on concrete inputs, with the Go codec.
    White space beyond ASCII is trimmed as well: the third input has U+00A0
    after the length, the last has it before the header name and as the
    whole of the blank line. *)
Example Stream_Read_examples :
  Stream_Read (cat "Content-Length: abc" (cat CRLF CRLF))
    = Returns (inl ErrParsingContentLength, cat "Content-Length: abc" (cat CRLF CRLF)) /\
  Stream_Read (cat "content-LENGTH: 5" (cat CRLF (cat CRLF "{}")))
    = Returns (inl ErrReadingBody, "{}") /\
  Stream_Read (cat "Content-Length: 2" (String "194" (String "160" (cat CRLF (cat CRLF "{}")))))
    = Returns (inr (mkMessage "" None "" "" "" None), EmptyString) /\
  Stream_Read (cat "Content-Length: 2" (cat CRLF (cat CRLF "{]")))
    = Returns (inl ErrParsingMessage, EmptyString) /\
  Stream_Read (cat "Content-Length: 2" (cat CRLF "{}"))
    = Returns (inl ErrReadingHeaderLine, cat "Content-Length: 2" (cat CRLF "{}")) /\
  Stream_Read (cat "Content-Type: x" (cat CRLF (cat "CONTENT-LENGTH: 2"
         (cat CRLF (cat CRLF "{}")))))
    = Returns (inr (mkMessage "" None "" "" "" None), EmptyString) /\
  Stream_Read (cat "Content-Length: 281474976710657" (cat CRLF CRLF)) = Panics /\
  Stream_Read (cat (String "194" (String "160" "Content-Length")) (cat ": 2"
         (cat CRLF (String "194" (String "160" (cat CRLF "{}"))))))
    = Returns (inr (mkMessage "" None "" "" "" None), EmptyString).
Proof. by vm_compute. Qed.

End OnLinux.

End roundtrip_facts.

(** ** The session: the read loop, the life of a call, fresh ids *)

Module conn_facts.
Import GoStrings jsonrpc gojson session_facts strings_facts framing_facts.

Lemma header_lines_suffix inp hs tail :
  header_lines inp hs tail -> exists read, inp = cat read tail.
Proof.
  induction 1 as [tail|line name value inp hs tail _ _ [read ->]].
  - by exists EmptyString.
  - exists (cat line read). by rewrite cat_assoc.
Qed.

(** A successful read takes bytes off the front of the input, at least
    one. *)
Lemma Stream_Read_shorter `{JSONCodec} `{Allocator} inp msg rest :
  Stream_Read inp = Returns (inr msg, rest) ->
  (String.length rest < String.length inp)%nat /\ exists read, inp = cat read rest.
Proof.
  intros Hr. destruct (Stream_Read_failures inp) as (Hok & _).
  destruct (Hok msg rest Hr) as (hs & blank & body & Hl & [Hline _] & _).
  split.
  - apply header_lines_length in Hl. apply is_line_length in Hline.
    rewrite !length_cat in Hl. lia.
  - destruct (header_lines_suffix _ _ _ Hl) as [read ->].
    exists (cat read (cat blank body)). by rewrite !cat_assoc.
Qed.

(** What the steps of a connection leave alone. *)
Lemma handleResponse_keeps c msg c' :
  handleResponse c msg = Some c' ->
  handler c' = handler c /\ nextID c' = nextID c /\ closed c' = closed c /\
  closeErr c' = closeErr c /\ wire c' = wire c /\ pending c' ⊆ pending c.
Proof.
  unfold handleResponse. destruct (MID msg) as [id|]; [|done].
  destruct (pending c !! ID_String id) as [ch|]; [|by intros [= <-]].
  destruct (chan_send _ _ _) as [h1|]; [|done].
  destruct (chan_close _ _) as [h2|]; [|done].
  intros [= <-]. cbn. repeat split. apply delete_subseteq.
Qed.

Lemma stream_Write_keeps c msg io :
  let c' := fst (stream_Write c msg io) in
  handler c' = handler c /\ nextID c' = nextID c /\ closed c' = closed c /\
  closeErr c' = closeErr c /\ pending c' = pending c /\ chans c' = chans c /\
  (wire c' = wire c \/ wire c' = wire c ++ [msg]).
Proof. destruct io; cbn; repeat split; auto. Qed.

Lemma handleMessage_cases c msg io c' :
  handleMessage c msg io = Some c' ->
  c' = c \/ exists m, handler c <> None /\ c' = fst (stream_Write c m io).
Proof.
  unfold handleMessage. destruct (handler c) as [h|] eqn:Hh; [|intros [= <-]; by left].
  destruct (h msg) as [[resp|] [err|]].
  - destruct (IsRequest msg); [|intros [= <-]; by left].
    destruct (MID msg); [|done]. cbn. intros [= <-]. right. eauto.
  - intros [= <-]. right. eauto.
  - destruct (IsRequest msg); [|intros [= <-]; by left].
    destruct (MID msg); [|done]. cbn. intros [= <-]. right. eauto.
  - intros [= <-]. by left.
Qed.

Lemma handleMessage_keeps c msg io c' :
  handleMessage c msg io = Some c' ->
  handler c' = handler c /\ nextID c' = nextID c /\ closed c' = closed c /\
  closeErr c' = closeErr c /\ pending c' = pending c /\ chans c' = chans c /\
  (wire c' = wire c \/ exists m, wire c' = wire c ++ [m]) /\
  (handler c = None -> c' = c).
Proof.
  intros Hm. apply handleMessage_cases in Hm as [->|(m & Hh & ->)].
  - repeat split; auto.
  - destruct (stream_Write_keeps c m io) as (?&?&?&?&?&?&Hw).
    repeat split; try done. destruct Hw; eauto.
Qed.

Lemma closeErr_step c c' : conn_step c c' -> closeErr c' = closeErr c.
Proof.
  intros Hs. destruct Hs as [c method params io c' r H|c id ch sc c' r H|
    c msg io c' H|c method params io|c id result io|c id code message data io|c].
  - unfold Call_begin, NextID in H. cbn in H.
    destruct (NewRequest _ method params); [by inversion H|].
    destruct io; cbn in H; by inversion H.
  - destruct sc; cbn in H; [by inversion H|].
    destruct (chans c !! ch) as [[[|resp rest] cl]|]; try done.
    destruct (MError resp); by inversion H.
  - unfold dispatch in H. destruct (IsResponse msg).
    + by apply handleResponse_keeps in H as (_ & _ & _ & ? & _).
    + by apply handleMessage_keeps in H as (_ & _ & _ & ? & _).
  - unfold Notify. destruct (NewNotification method params); [done|].
    apply stream_Write_keeps.
  - unfold Reply. destruct (NewResponse id result); [done|]. apply stream_Write_keeps.
  - unfold ReplyError. destruct (NewErrorResponse id code message data); [done|].
    apply stream_Write_keeps.
  - reflexivity.
Qed.

(** Nothing in the package assigns [closeErr]. *)
Lemma closeErr_reachable h c : rtc conn_step (NewConn h) c -> closeErr c = None.
Proof.
  intros Hr. apply rtc_nsteps in Hr as [n Hn]. revert c Hn.
  induction n as [|n IH]; intros c Hn.
  - by inversion Hn; subst.
  - apply nsteps_inv_r in Hn as (c1 & Hn & Hs).
    rewrite (closeErr_step _ _ Hs). by apply IH.
Qed.

(** A header block at the front of [tail] that announces more bytes than
    the allocator gives. *)
Definition announces_too_much `{Allocator} (tail : string) : Prop :=
  exists hs blank rest n,
    header_lines tail hs (cat blank rest) /\ is_blank blank /\
    announced hs (-1) = Some n /\ maxAlloc < n.

Lemma Run_total `{JSONCodec} `{Allocator} fuel : forall c inp spawned,
  (String.length inp < fuel)%nat -> wf c ->
  exists c' spawned' r,
    Run fuel c inp spawned = Some (c', spawned', r) /\
    ((r = RunPanics /\ exists read tail, inp = cat read tail /\ announces_too_much tail) \/
     (closed c = true /\ r = ReturnCloseErr (closeErr c)) \/
     (closed c = false /\ exists e, r = ReturnReadErr e)) /\
    wire c' = wire c /\ nextID c' = nextID c /\ closed c' = closed c /\
    pending c' ⊆ pending c.
Proof.
  induction fuel as [|f IH]; intros c inp spawned Hlen Hwf; [lia|].
  cbn [Run]. destruct (Stream_Read inp) as [[[e|msg] rest]|] eqn:Hr.
  - destruct (closed c) eqn:Hc.
    + do 3 eexists. split; [reflexivity|]. split_and!; try done. right. by left.
    + do 3 eexists. split; [reflexivity|]. split_and!; try done. right. right. eauto.
  - apply Stream_Read_shorter in Hr as [Hshort [read0 Hread0]].
    assert (Hgo : forall c1 sp1, wf c1 -> closed c1 = closed c -> closeErr c1 = closeErr c ->
              wire c1 = wire c -> nextID c1 = nextID c -> pending c1 ⊆ pending c ->
              exists c' spawned' r,
                Run f c1 rest sp1 = Some (c', spawned', r) /\
                ((r = RunPanics /\
                  exists read tail, inp = cat read tail /\ announces_too_much tail) \/
                 (closed c = true /\ r = ReturnCloseErr (closeErr c)) \/
                 (closed c = false /\ exists e, r = ReturnReadErr e)) /\
                wire c' = wire c /\ nextID c' = nextID c /\ closed c' = closed c /\
                pending c' ⊆ pending c).
    { intros c1 sp1 Hwf1 Hcl Hce Hw Hn Hp.
      destruct (IH c1 rest sp1 ltac:(lia) Hwf1)
        as (c' & sp' & r & HR & Hcase & Hw' & Hn' & Hcl' & Hp').
      exists c', sp', r. split; [done|]. split.
      - destruct Hcase as [[-> (read & tail & -> & Hbig)]|[[H1 ->]|[H1 He]]].
        + left. split; [done|]. exists (cat read0 read), tail.
          split; [by rewrite Hread0, cat_assoc|done].
        + right. left. by rewrite <- Hcl, <- Hce.
        + right. right. by rewrite <- Hcl.
      - split_and!; try congruence. by etrans. }
    destruct (IsResponse msg) eqn:Hresp.
    + unfold IsResponse in Hresp. destruct (MID msg) as [id|] eqn:Hid; [|done].
      assert (exists c1, handleResponse c msg = Some c1) as [c1 H1].
      { destruct (pending c !! ID_String id) as [ch|] eqn:Hp.
        - rewrite (handleResponse_pending c msg id ch Hwf Hid Hp). eauto.
        - unfold handleResponse. rewrite Hid, Hp. eauto. }
      rewrite H1.
      destruct (handleResponse_keeps _ _ _ H1) as (_ & Hn & Hcl & Hce & Hw & Hp).
      by apply Hgo; [eapply wf_handleResponse| | | | |].
    + by apply Hgo.
  - do 3 eexists. split; [reflexivity|]. split_and!; try done. left. split; [done|].
    exists EmptyString, inp. split; [done|]. by apply Stream_Read_panics.
Qed.

(** X1. On every finite input, [Run] ends, and only because a read gave no
    message.  Either a read failed, and [Run] returns: nil when the session
    has been closed (nothing ever assigns [closeErr]), the error of the read
    otherwise.  Or a read did not return, and [Run] ends with it; that
    happens only when the input, after some bytes read, goes on with a
    header block that announces more bytes than the allocator gives; when
    the input starts with such a block, [Run] ends so at the first read.
    [Run] itself writes nothing, mints no id and registers no pending
    call. *)
Theorem Run_returns_when_reading_fails `{JSONCodec} `{Allocator} (h : option Handler)
    (c : Conn) (inp : string) :
  rtc conn_step (NewConn h) c ->
  exists c' spawned r,
    Run (S (String.length inp)) c inp [] = Some (c', spawned, r) /\
    ((r = RunPanics /\ exists read tail, inp = cat read tail /\ announces_too_much tail) \/
     (closed c = true /\ r = ReturnCloseErr None) \/
     (closed c = false /\ exists e, r = ReturnReadErr e)) /\
    (announces_too_much inp -> r = RunPanics /\ c' = c /\ spawned = []) /\
    wire c' = wire c /\ nextID c' = nextID c /\ pending c' ⊆ pending c.
Proof.
  intros Hr.
  destruct (Run_total (S (String.length inp)) c inp [] ltac:(lia) (wf_reachable h c Hr))
    as (c' & sp & r & HR & Hcase & Hw & Hn & _ & Hp).
  exists c', sp, r. rewrite (closeErr_reachable h c Hr) in Hcase. split_and!; try done.
  intros Hbig. apply Stream_Read_panics in Hbig. cbn [Run] in HR. rewrite Hbig in HR.
  by injection HR as <- <- <-.
Qed.

(** A closed connection at the end of its input: [Run] returns nil. *)
Lemma Run_returns_when_reading_fails_witness :
  exists c' spawned,
    Run (Alloc := linux_amd64) 1 (Close (NewConn None)) EmptyString []
      = Some (c', spawned, ReturnCloseErr None) /\
    wire c' = [] /\ nextID c' = 0.
Proof.
  destruct (Run_returns_when_reading_fails (H0 := linux_amd64) None (Close (NewConn None))
              EmptyString (rtc_once _ _ (step_Close (NewConn None))))
    as (c' & spawned & r & HR & Hcase & _ & Hw & Hn & _).
  exists c', spawned. split; [|by split].
  change (S (String.length EmptyString)) with 1%nat in HR.
  pose proof HR as HR'. vm_compute in HR'. injection HR' as _ _ <-. exact HR.
Defined.

Lemma handleResponse_Close c msg :
  handleResponse (Close c) msg = option_map Close (handleResponse c msg).
Proof.
  unfold handleResponse. cbn. destruct (MID msg) as [id|]; [|done].
  destruct (pending c !! ID_String id) as [ch|]; [|done].
  destruct (chan_send _ _ _) as [h1|]; [|done].
  by destruct (chan_close _ _).
Qed.

(** X2. [Close] does not stop the read loop: after it, [Run] reads and
    dispatches exactly the messages it would have, and no pending call is
    released; the only difference is that [Run] returns [closeErr] instead
    of the read error when reading fails at last.  (A read that does not
    return ends [Run] the same way, closed or not.) *)
Theorem Close_does_not_stop_Run `{JSONCodec} `{Allocator} (fuel : nat) (c : Conn)
    (inp : string) (spawned : list Message) :
  Run fuel (Close c) inp spawned =
    match Run fuel c inp spawned with
    | Some (c', spawned', RunPanics) => Some (Close c', spawned', RunPanics)
    | Some (c', spawned', _) => Some (Close c', spawned', ReturnCloseErr (closeErr c))
    | None => None
    end /\
  pending (Close c) = pending c /\ chans (Close c) = chans c /\ wire (Close c) = wire c.
Proof.
  split; [|done].
  revert c inp spawned. induction fuel as [|f IH]; intros c inp spawned; [done|].
  cbn [Run]. destruct (Stream_Read inp) as [[[e|msg] rest]|].
  - cbn. by destruct (closed c).
  - destruct (IsResponse msg); [|apply IH].
    rewrite handleResponse_Close.
    destruct (handleResponse c msg) as [c1|] eqn:H1; [|done]. cbn.
    rewrite IH. apply handleResponse_keeps in H1 as (_ & _ & _ & -> & _). done.
  - done.
Qed.

(** X4. The life of a call whose key is not yet pending: whichever way it
    ends (the request cannot be made or written, the context is done, the
    response arrives), the pending map is afterwards what it was before the
    call; and a response that arrives after the call was cancelled finds no
    slot and is dropped. *)
Theorem Call_leaves_no_slot (c : Conn) (method : string) (params : AnyJSON)
    (io : option error) :
  wf c -> pending c !! ID_String (snd (NextID c)) = None ->
  match Call_begin c method params io with
  | (c1, CallFailed _) => pending c1 = pending c /\ wire c1 = wire c
  | (c1, CallWaiting id ch) =>
      id = snd (NextID c) /\ pending c1 !! ID_String id = Some ch /\
      (forall e, exists c2,
         Call_select c1 id ch (CtxDone e) = Some (c2, inl (ctxError e)) /\
         pending c2 = pending c /\
         forall resp, MID resp = Some id -> handleResponse c2 resp = Some c2) /\
      (forall resp, MID resp = Some id ->
         exists c2 c3,
           handleResponse c1 resp = Some c2 /\
           Call_select c2 id ch Recv =
             Some (c3, match MError resp with
                       | Some e => inl (rpcError e)
                       | None => inr (Result resp)
                       end) /\
           pending c3 = pending c)
  end.
Proof.
  intros Hwf Hfresh.
  destruct (Call_begin c method params io) as [c1 st] eqn:Hb.
  assert (Hwf1 : wf c1) by (by eapply wf_Call_begin).
  destruct st as [err|id ch].
  - unfold Call_begin, NextID in Hb. cbn in Hb, Hfresh.
    destruct (NewRequest _ method params) as [e|msg]; [by inversion Hb|].
    destruct io as [e|]; cbn in Hb; inversion Hb; subst; cbn.
    split; [|done]. rewrite delete_insert_eq. by apply delete_id.
  - destruct (Call_begin_waiting _ _ _ _ _ _ _ Hb) as (Hid & Hch & Hp & Hchans & _).
    assert (Hkey : pending c1 !! ID_String id = Some ch)
      by (rewrite Hp; apply lookup_insert_eq).
    assert (Hdel : delete (ID_String id) (pending c1) = pending c).
    { rewrite Hp, delete_insert_eq. apply delete_id. by rewrite Hid. }
    split; [done|]. split; [done|]. split.
    + intros e. eexists. split; [reflexivity|]. cbn. split; [done|].
      intros resp Hr. unfold handleResponse. rewrite Hr. cbn.
      by rewrite lookup_delete_eq.
    + intros resp Hr. rewrite (handleResponse_pending c1 resp id ch Hwf1 Hr Hkey).
      destruct (Hwf1 _ _ Hkey) as [Hlook _].
      assert (Hlt : (ch < length (chans c1))%nat) by (eapply lookup_lt_Some; eauto).
      do 2 eexists. split; [reflexivity|]. cbn.
      rewrite list_lookup_insert_eq by done. split; [by destruct (MError resp)|].
      destruct (MError resp); cbn; done.
Qed.

(** A hover call on a new connection. *)
Lemma Call_leaves_no_slot_witness :
  exists c1 id ch,
    Call_begin (NewConn None) "textDocument/hover" AnyNil None = (c1, CallWaiting id ch) /\
    pending c1 !! "1" = Some ch /\
    forall e, exists c2,
      Call_select c1 id ch (CtxDone e) = Some (c2, inl (ctxError e)) /\ pending c2 = ∅.
Proof.
  pose proof (Call_leaves_no_slot (NewConn None) "textDocument/hover" AnyNil None
                (wf_NewConn None) eq_refl) as H.
  destruct (Call_begin (NewConn None) "textDocument/hover" AnyNil None) as [c1 st] eqn:Hb.
  vm_compute in Hb. inversion Hb; subst c1 st. clear Hb.
  destruct H as (_ & Hp & Hc & _). do 3 eexists. split; [reflexivity|].
  split; [exact Hp|]. intros e. destruct (Hc e) as (c2 & H1 & H2 & _). by exists c2.
Defined.

Lemma wrap64_id z : in_int64 z -> wrap64 z = z.
Proof. unfold in_int64, wrap64. intros Hz. rewrite Z.mod_small; lia. Qed.

Lemma format_d_inj a b : in_int64 a -> in_int64 b -> format_d a = format_d b -> a = b.
Proof.
  intros Ha Hb Heq. pose proof (Atoi_format_d a Ha) as H1.
  rewrite Heq, (Atoi_format_d b Hb) in H1. by inversion H1.
Qed.

(** The keys of the pending calls are the decimal forms of ids already
    minted. *)
Definition keys_below (c : Conn) : Prop :=
  forall k ch, pending c !! k = Some ch ->
    exists i, 1 <= i <= nextID c /\ k = format_d i.

Lemma keys_below_mono c c' :
  keys_below c -> pending c' ⊆ pending c -> nextID c <= nextID c' -> keys_below c'.
Proof.
  intros Hk Hsub Hle k ch Hl.
  destruct (Hk k ch) as (i & Hi & ->); [by eapply lookup_weaken|].
  exists i. split; [lia|done].
Qed.

Lemma keys_below_step c c' :
  conn_step c c' -> 0 <= nextID c < 2 ^ 63 - 1 -> keys_below c ->
  nextID c <= nextID c' <= nextID c + 1 /\ keys_below c'.
Proof.
  intros Hs Hn Hk.
  destruct Hs as [c method params io c' r H|c id ch sc c' r H|
    c msg io c' H|c method params io|c id result io|c id code message data io|c].
  - unfold Call_begin, NextID in H. cbn in H.
    rewrite wrap64_id in H by (unfold in_int64; lia).
    destruct (NewRequest _ method params) as [e|msg].
    { inversion H; subst; cbn. split; [lia|].
      eapply keys_below_mono; [exact Hk|done|cbn; lia]. }
    assert (Hins : keys_below
      (set_pending (<[format_d (nextID c + 1) := length (chans c)]> (pending c))
         (set_nextID (nextID c + 1) c))).
    { intros k ch Hl. cbn in *.
      destruct (decide (k = format_d (nextID c + 1))) as [->|Hne].
      - exists (nextID c + 1). split; [lia|done].
      - rewrite lookup_insert_ne in Hl by done.
        destruct (Hk k ch Hl) as (i & Hi & ->). exists i. split; [lia|done]. }
    destruct io as [e|]; cbn in H; inversion H; subst; cbn; (split; [lia|]).
    + eapply keys_below_mono; [exact Hins|cbn; apply delete_subseteq|cbn; lia].
    + exact Hins.
  - destruct sc as [e|]; cbn in H.
    + inversion H; subst; cbn. split; [lia|].
      eapply keys_below_mono; [exact Hk|cbn; apply delete_subseteq|cbn; lia].
    + destruct (chans c !! ch) as [[[|resp rest] cl]|]; try done.
      assert (c' = set_chans (<[ch := mkChan rest cl]> (chans c)) c)
        by (destruct (MError resp); by inversion H).
      subst c'. cbn. split; [lia|]. exact Hk.
  - unfold dispatch in H. destruct (IsResponse msg).
    + apply handleResponse_keeps in H as (_ & Hn' & _ & _ & _ & Hp).
      split; [lia|]. eapply keys_below_mono; [exact Hk|done|lia].
    + apply handleMessage_keeps in H as (_ & Hn' & _ & _ & Hp & _).
      split; [lia|]. eapply keys_below_mono; [exact Hk|by rewrite Hp|lia].
  - unfold Notify. destruct (NewNotification method params); [cbn; split; [lia|done]|].
    destruct (stream_Write_keeps c m io) as (_ & Hn' & _ & _ & Hp & _).
    split; [lia|]. eapply keys_below_mono; [exact Hk|by rewrite Hp|lia].
  - unfold Reply. destruct (NewResponse id result); [cbn; split; [lia|done]|].
    destruct (stream_Write_keeps c m io) as (_ & Hn' & _ & _ & Hp & _).
    split; [lia|]. eapply keys_below_mono; [exact Hk|by rewrite Hp|lia].
  - unfold ReplyError. destruct (NewErrorResponse id code message data);
      [cbn; split; [lia|done]|].
    destruct (stream_Write_keeps c m io) as (_ & Hn' & _ & _ & Hp & _).
    split; [lia|]. eapply keys_below_mono; [exact Hk|by rewrite Hp|lia].
  - cbn. split; [lia|]. exact Hk.
Qed.

Lemma keys_below_nsteps h n : forall c,
  nsteps conn_step n (NewConn h) c -> Z.of_nat n < 2 ^ 63 ->
  0 <= nextID c <= Z.of_nat n /\ keys_below c.
Proof.
  induction n as [|n IH]; intros c Hn Hlt.
  - inversion Hn; subst. cbn. split; [lia|]. intros k ch Hl.
    cbn in Hl. by rewrite lookup_empty in Hl.
  - apply nsteps_inv_r in Hn as (c1 & Hn & Hs).
    destruct (IH c1 Hn ltac:(lia)) as [Hb Hk].
    destruct (keys_below_step c1 c Hs ltac:(lia) Hk) as [Hb' Hk'].
    split; [lia|done].
Qed.

(** X5. While fewer than 2^63 - 1 steps have been taken on a connection, the
    id the next call mints is one more than the last, and its key is not
    pending: a call never takes over the slot of a call that still waits. *)
Theorem Call_key_is_fresh (h : option Handler) (n : nat) (c : Conn) :
  nsteps conn_step n (NewConn h) c -> Z.of_nat n < 2 ^ 63 - 1 ->
  snd (NextID c) = NewNumberID (nextID c + 1) /\
  pending c !! ID_String (snd (NextID c)) = None /\
  forall method params io c1 id ch,
    Call_begin c method params io = (c1, CallWaiting id ch) ->
    forall k ch', pending c !! k = Some ch' ->
      k <> ID_String id /\ pending c1 !! k = Some ch'.
Proof.
  intros Hn Hlt. destruct (keys_below_nsteps h n c Hn ltac:(lia)) as [Hb Hk].
  assert (Hid : snd (NextID c) = NewNumberID (nextID c + 1)).
  { unfold NextID. cbn. rewrite wrap64_id; [done|unfold in_int64; lia]. }
  assert (Hfresh : pending c !! ID_String (snd (NextID c)) = None).
  { rewrite Hid. cbn. destruct (pending c !! format_d (nextID c + 1)) as [ch|] eqn:Hl; [|done].
    destruct (Hk _ _ Hl) as (i & Hi & Heq).
    apply format_d_inj in Heq; [lia|unfold in_int64; lia..]. }
  split; [done|]. split; [done|].
  intros method params io c1 id ch Hb1 k ch' Hl.
  apply Call_begin_waiting in Hb1 as (-> & _ & Hp & _).
  fold (snd (NextID c)) in Hp. unfold NextID in Hp. cbn in Hp.
  unfold NextID in Hfresh. cbn in Hfresh.
  assert (Hne : k <> format_d (wrap64 (nextID c + 1))) by (intros ->; congruence).
  split; [done|]. rewrite Hp. by rewrite lookup_insert_ne.
Qed.

(** The second call on a connection: its key is not the pending one. *)
Lemma Call_key_is_fresh_witness :
  let c := fst (Call_begin (NewConn None) "textDocument/hover" AnyNil None) in
  pending c !! "1" = Some 0%nat /\
  snd (NextID c) = NewNumberID 2 /\ pending c !! "2" = None.
Proof.
  cbv zeta. split; [reflexivity|].
  destruct (Call_key_is_fresh None 1
              (fst (Call_begin (NewConn None) "textDocument/hover" AnyNil None))
              (nsteps_once _ _
                 (step_Call_begin (NewConn None) "textDocument/hover" AnyNil None _ _ eq_refl))
              eq_refl)
    as (H1 & H2 & _).
  split; [exact H1|]. rewrite H1 in H2. exact H2.
Defined.

(** X6. What arrives from the peer never registers a pending call and never
    mints an id: a response at most removes the slot it is delivered to and
    writes nothing; any other message leaves the pending map alone and makes
    the connection write at most one message, none when there is no
    handler. *)
Theorem inbound_never_registers (c : Conn) (msg : Message) (io : option error) :
  forall c', dispatch c msg io = Some c' ->
    pending c' ⊆ pending c /\ nextID c' = nextID c /\ closed c' = closed c /\
    (wire c' = wire c \/ exists m, wire c' = wire c ++ [m]) /\
    (IsResponse msg = true -> wire c' = wire c) /\
    (IsResponse msg = false -> pending c' = pending c /\ chans c' = chans c) /\
    (handler c = None -> wire c' = wire c).
Proof.
  intros c'. unfold dispatch. destruct (IsResponse msg).
  - intros H. apply handleResponse_keeps in H as (_ & Hn & Hc & _ & Hw & Hp).
    split_and!; auto. done.
  - intros H. destruct (handleMessage_keeps _ _ _ _ H) as (_ & Hn & Hc & _ & Hp & Hch & Hw & Hnil).
    split_and!; auto; try done.
    + by rewrite Hp.
    + intros Hh. by rewrite (Hnil Hh).
Qed.

(** The response to the one pending call. *)
Lemma inbound_never_registers_witness :
  let c := fst (Call_begin (NewConn None) "textDocument/hover" AnyNil None) in
  let msg := mkMessage "2.0" (Some (NewNumberID 1)) "" "" "{}" None in
  exists c', dispatch c msg None = Some c' /\
    pending c' ⊆ pending c /\ nextID c' = 1 /\ wire c' = wire c.
Proof.
  cbv zeta.
  destruct (dispatch (fst (Call_begin (NewConn None) "textDocument/hover" AnyNil None))
              (mkMessage "2.0" (Some (NewNumberID 1)) "" "" "{}" None) None)
    as [c'|] eqn:Hd; [|by vm_compute in Hd].
  exists c'. split; [reflexivity|].
  destruct (inbound_never_registers _ _ _ c' Hd) as (H1 & H2 & _ & _ & H5 & _).
  split; [exact H1|]. split; [exact H2|]. by apply H5.
Defined.

(** X7. How the four constructors are classified: a request made with an
    empty method counts as a response, a notification made with an empty
    method as nothing at all, and both kinds of response always as
    responses; the three classes exclude each other, and a message with
    neither id nor method is in none. *)
Theorem constructors_classify (id : ID) (method : string) (a : AnyJSON) (code : Z)
    (text : string) (m : Message) :
  (NewRequest id method a = inr m ->
     IsRequest m = nonempty method /\ IsResponse m = negb (nonempty method) /\
     IsNotification m = false) /\
  (NewNotification method a = inr m ->
     IsNotification m = nonempty method /\ IsRequest m = false /\ IsResponse m = false) /\
  (NewResponse id a = inr m ->
     IsResponse m = true /\ IsRequest m = false /\ IsNotification m = false /\
     MError m = None) /\
  (NewErrorResponse id code text a = inr m ->
     IsResponse m = true /\ IsRequest m = false /\ IsNotification m = false /\
     exists raw, MError m = Some (mkError code text raw) /\ Result m = EmptyString) /\
  (IsRequest m && IsNotification m = false) /\
  (IsRequest m && IsResponse m = false) /\
  (IsNotification m && IsResponse m = false) /\
  (IsRequest m || IsNotification m || IsResponse m = false <->
   MID m = None /\ Method m = EmptyString).
Proof.
  split_and!.
  - unfold NewRequest. destruct (marshal_any _ a); [done|]. by intros [= <-].
  - unfold NewNotification. destruct (marshal_any _ a); [done|]. by intros [= <-].
  - unfold NewResponse. destruct (marshal_any _ a); [done|]. by intros [= <-].
  - unfold NewErrorResponse. destruct (marshal_any _ a); [done|]. intros [= <-].
    cbn. split_and!; try done. eauto.
  - unfold IsRequest, IsNotification. by destruct (MID m), (nonempty (Method m)).
  - unfold IsRequest, IsResponse. by destruct (MID m), (nonempty (Method m)).
  - unfold IsNotification, IsResponse. by destruct (MID m), (nonempty (Method m)).
  - unfold IsRequest, IsNotification, IsResponse.
    destruct (MID m), (Method m); cbn; split; try done; intros [? ?]; done.
Qed.

End conn_facts.

(** ** The wire: a stream of frames, and the encoding of ids *)

Module wire_facts.
Import GoStrings jsonrpc gojson strings_facts framing_facts codec_facts session_facts
  roundtrip_facts conn_facts.

(** The frames of the messages [ms], one after the other; [None] when one
    of them cannot be marshalled. *)
Fixpoint frames (ms : list Message) : option string :=
  match ms with
  | [] => Some EmptyString
  | m :: rest =>
      match frame m, frames rest with
      | Some bytes, Some more => Some (cat bytes more)
      | _, _ => None
      end
  end.

(** [Stream.Write] called for the messages [ms] in turn, up to the first
    call that returns an error. *)
Fixpoint Write_each (w : Writer) (ms : list Message) : Writer * option WriteErr :=
  match ms with
  | [] => (w, None)
  | m :: rest =>
      match Stream_Write w m with
      | (w', None) => Write_each w' rest
      | failed => failed
      end
  end.

(** The frames are what a writer that takes every byte holds once every
    message has been written; and when one of the messages cannot be
    marshalled, writing them stops with that error. *)
Lemma Write_each_buffer ms : forall s,
  match frames ms with
  | Some inp => Write_each (buffer s) ms = (buffer (cat s inp), None)
  | None => snd (Write_each (buffer s) ms) = Some ErrMarshaling
  end.
Proof.
  induction ms as [|m ms IH]; intros s; cbn [frames Write_each].
  - by rewrite cat_nil_r.
  - rewrite Stream_Write_buffer. destruct (frame m) as [bytes|]; [|done].
    specialize (IH (cat s bytes)). destruct (frames ms) as [more|]; [|done].
    by rewrite IH, cat_assoc.
Qed.

Lemma len_cat a b : len (cat a b) = len a + len b.
Proof. unfold len. rewrite length_cat. lia. Qed.

Lemma len_nonneg a : 0 <= len a.
Proof. unfold len. lia. Qed.

(** The bodies of the messages [ms] are of a length the allocator gives. *)
Definition allocable `{Allocator} (ms : list Message) : Prop :=
  forall m body, m ∈ ms -> json_Marshal m = Some body -> len body <= maxAlloc.

Lemma Stream_Read_frame `{Allocator} m bytes more :
  canonical m -> frame m = Some bytes -> allocable [m] ->
  Stream_Read (cat bytes more) = Returns (inr m, more).
Proof.
  intros Hm Hw Hlen. destruct (codec_roundtrip m Hm) as (body & Hmar & Hun).
  rewrite (@frame_bytes GoJSON m body Hmar) in Hw.
  assert (Hb : bytes = cat (header_for body) body) by congruence. subst bytes. clear Hw.
  rewrite (framing_lossless body more).
  - change (json_Unmarshal body) with (Unmarshal body). by rewrite Hun.
  - apply (Hlen m body); [by left|done].
Qed.

Lemma Run_frames `{Allocator} c : pending c = ∅ -> closed c = false ->
  forall ms inp fuel spawned,
  Forall canonical ms -> frames ms = Some inp -> allocable ms ->
  (length ms < fuel)%nat ->
  Run fuel c inp spawned =
    Some (c, spawned ++ List.filter (fun m => negb (IsResponse m)) ms,
          ReturnReadErr ErrReadingHeaderLine).
Proof.
  intros Hp Hc. induction ms as [|m ms IH]; intros inp fuel spawned Hall Hf Hlen Hfuel.
  - cbn in Hf. inversion Hf; subst inp. destruct fuel as [|f]; [cbn in Hfuel; lia|].
    cbn. rewrite Hc. by rewrite app_nil_r.
  - destruct fuel as [|f]; [cbn in Hfuel; lia|].
    cbn [frames] in Hf. destruct (frame m) as [bytes|] eqn:Hw; [|done].
    destruct (frames ms) as [more|] eqn:Hmore; [|done]. inversion Hf; subst inp.
    inversion Hall as [|? ? Hm Hrest]; subst.
    assert (Hlen1 : allocable [m]).
    { intros m' body Hin. apply list_elem_of_singleton in Hin as ->.
      apply Hlen. by left. }
    assert (Hlen' : allocable ms).
    { intros m' body Hin. apply Hlen. by right. }
    cbn [Run]. rewrite (Stream_Read_frame m bytes more Hm Hw Hlen1).
    cbn [List.filter]. destruct (IsResponse m) eqn:Hr; cbn [negb].
    + unfold IsResponse in Hr. destruct (MID m) as [id|] eqn:Hid; [|done].
      unfold handleResponse. rewrite Hid, Hp, lookup_empty.
      apply IH; try done. cbn in Hfuel. lia.
    + rewrite (IH more f (spawned ++ [m])); try done; [|cbn in Hfuel; lia].
      by rewrite <- app_assoc.
Qed.

(** X3. A stream of frames is read back message by message: on the bytes
    that [Stream.Write] wrote for a list of canonical messages, each with a
    body of a length the allocator gives, [Run] on a connection without
    pending calls reads every one of them, hands those that are not
    responses to the handler in the order written, drops the responses,
    leaves the connection as it was, and returns the error of the read that
    met the end of the input. *)
Theorem Run_reads_every_frame `{Allocator} (c : Conn) (ms : list Message) (inp : string)
    (fuel : nat) :
  Forall canonical ms -> frames ms = Some inp -> allocable ms ->
  pending c = ∅ -> closed c = false -> (length ms < fuel)%nat ->
  Write_each (buffer EmptyString) ms = (buffer inp, None) /\
  Run fuel c inp [] =
    Some (c, List.filter (fun m => negb (IsResponse m)) ms,
          ReturnReadErr ErrReadingHeaderLine).
Proof.
  intros Hall Hf Hlen Hp Hc Hfuel. split.
  - pose proof (Write_each_buffer ms EmptyString) as Hw. by rewrite Hf in Hw.
  - by rewrite (Run_frames c Hp Hc ms inp fuel [] Hall Hf Hlen Hfuel).
Qed.

(** Two hover requests, one after the other. *)
Lemma Run_reads_every_frame_witness :
  exists inp,
    frames [hover_request; hover_request] = Some inp /\
    Run (Alloc := linux_amd64) 3 (NewConn None) inp [] =
      Some (NewConn None, [hover_request; hover_request],
            ReturnReadErr ErrReadingHeaderLine).
Proof.
  destruct (frames [hover_request; hover_request]) as [inp|] eqn:Hf;
    [|by vm_compute in Hf].
  exists inp. split; [reflexivity|].
  apply (Run_reads_every_frame (H := linux_amd64) (NewConn None)
           [hover_request; hover_request] inp 3).
  - repeat (constructor; [apply hover_request_canonical|]). constructor.
  - exact Hf.
  - intros m body Hin Hmar.
    assert (Hm : m = hover_request).
    { apply elem_of_cons in Hin as [->|Hin]; [done|].
      by apply list_elem_of_singleton in Hin. }
    subst m. vm_compute in Hmar. injection Hmar as <-. by vm_compute.
  - reflexivity.
  - reflexivity.
  - cbn. lia.
Defined.

Lemma kind_of_quote s : kind_of (quote s) = KString.
Proof. reflexivity. Qed.

(** X8. The encoding of an id on the wire can be told apart where its key
    cannot: [UnmarshalJSON] gives back the id that [MarshalJSON] encoded,
    so two number or string ids with the same encoding are the same id; and
    the encoding null leaves the id it is decoded into as it was. *)
Theorem ID_encoding_is_injective (a b : ID) :
  id_ok a -> id_ok b ->
  ID_UnmarshalJSON (ID_MarshalJSON a) NullID = Some a /\
  (ID_MarshalJSON a = ID_MarshalJSON b -> a = b) /\
  ID_MarshalJSON a <> ID_MarshalJSON NullID /\
  ID_UnmarshalJSON (ID_MarshalJSON NullID) a = Some a.
Proof.
  assert (Hrt : forall x, id_ok x -> ID_UnmarshalJSON (ID_MarshalJSON x) NullID = Some x).
  { intros x [(n & -> & Hn)|(s & -> & Hs)]; unfold ID_UnmarshalJSON; cbn [ID_MarshalJSON num str NewNumberID NewStringID].
    - rewrite kind_of_format_d. by rewrite (Atoi_format_d n Hn).
    - rewrite kind_of_quote. by rewrite (unquote_quote s Hs). }
  intros Ha Hb. split; [by apply Hrt|]. split; [|split].
  - intros Heq. pose proof (Hrt a Ha) as H1. rewrite Heq, (Hrt b Hb) in H1.
    by inversion H1.
  - destruct Ha as [(n & -> & Hn)|(s & -> & Hs)]; cbn.
    + destruct (format_d_first n) as (c & r & -> & Hc). intros [= -> _].
      destruct Hc as [Hc|Hc]; vm_compute in Hc; [done|]. destruct Hc. done.
    + done.
  - reflexivity.
Qed.

(** The number 7 and the string 7 are encoded differently. *)
Lemma ID_encoding_is_injective_witness :
  ID_UnmarshalJSON (ID_MarshalJSON (NewNumberID 7)) NullID = Some (NewNumberID 7) /\
  ID_MarshalJSON (NewNumberID 7) <> ID_MarshalJSON (NewStringID "7").
Proof.
  assert (H7 : id_ok (NewNumberID 7)).
  { left. exists 7. split; [reflexivity|]. unfold in_int64. lia. }
  assert (Hs : id_ok (NewStringID "7")).
  { right. exists "7". split; reflexivity. }
  destruct (ID_encoding_is_injective (NewNumberID 7) (NewStringID "7") H7 Hs)
    as (H1 & H2 & _).
  split; [exact H1|]. intros Heq. specialize (H2 Heq). discriminate H2.
Defined.

(** X9. Within one variant the keys of ids do not collide: two number ids, or
    two string ids, with the same key are the same id.  A number id and a
    string id collide exactly when the string is the decimal form of the
    number, the null id collides exactly with the string id of its
    placeholder, and a number id never collides with the null id. *)
Theorem ID_String_collisions (a b : Z) (s t : string) :
  in_int64 a -> in_int64 b ->
  (ID_String (NewNumberID a) = ID_String (NewNumberID b) -> a = b) /\
  (ID_String (NewStringID s) = ID_String (NewStringID t) -> s = t) /\
  (ID_String (NewNumberID a) = ID_String (NewStringID s) <-> s = format_d a) /\
  (ID_String NullID = ID_String (NewStringID s) <-> s = "<null>") /\
  ID_String (NewNumberID a) <> ID_String NullID.
Proof.
  intros Ha Hb. cbn. split_and!.
  - by apply format_d_inj.
  - done.
  - split; congruence.
  - split; congruence.
  - destruct (format_d_first a) as (c & r & -> & Hc). intros [= -> _].
    destruct Hc as [Hc|Hc]; vm_compute in Hc; [done|]. destruct Hc. done.
Qed.

(** The ids 7 and 8, and the strings that are and are not the decimal
    form of 7. *)
Lemma ID_String_collisions_witness :
  ID_String (NewNumberID 7) <> ID_String (NewNumberID 8) /\
  ID_String (NewNumberID 7) = ID_String (NewStringID "7") /\
  ID_String (NewNumberID 7) <> ID_String (NewStringID "07").
Proof.
  assert (H7 : in_int64 7) by (unfold in_int64; lia).
  assert (H8 : in_int64 8) by (unfold in_int64; lia).
  destruct (ID_String_collisions 7 8 "7" "7" H7 H8) as (H1 & _ & H3 & _).
  destruct (ID_String_collisions 7 8 "07" "7" H7 H8) as (_ & _ & H3' & _).
  split; [intros Heq; specialize (H1 Heq); lia|].
  split; [by apply H3|]. intros Heq. apply H3' in Heq. discriminate Heq.
Defined.

Lemma raw_field_None k raw :
  raw_field k raw = None <-> raw <> EmptyString /\ Valid raw = false.
Proof.
  unfold raw_field, marshaler_field, compact, Valid.
  destruct raw as [|c r]; cbn [nonempty negb]; [split; [done|by intros [? _]]|].
  destruct (pdocument (String c r)) as [[l o]|]; split; try done. by intros [_ ?].
Qed.

Lemma id_field_Some id :
  id_ok id \/ id = NullID ->
  marshaler_field false "id" (ID_MarshalJSON id) = Some [("id", ID_MarshalJSON id)].
Proof.
  unfold marshaler_field. intros [[(n & -> & Hn)|(s & -> & Hs)]| ->];
    cbn [ID_MarshalJSON num str NewNumberID NewStringID NullID].
  - by rewrite (compact_cv 0 _ (cv_number 0 n)) by (unfold maxNestingDepth; lia).
  - by rewrite (compact_cv 0 _ (cv_quote 0 s Hs)) by (unfold maxNestingDepth; lia).
  - reflexivity.
Qed.

(** A raw field of the message that is not empty and not valid JSON. *)
Definition bad_raw (m : Message) : Prop :=
  (Params m <> EmptyString /\ Valid (Params m) = false) \/
  (Result m <> EmptyString /\ Valid (Result m) = false) \/
  (exists e, MError m = Some e /\ Data e <> EmptyString /\ Valid (Data e) = false).

(** The writer answers its call number [i] from now, counted from 0, with
    an error. *)
Definition refuses (i : nat) (w : Writer) : bool :=
  match answers w !! i with
  | Some (Some _) => true
  | _ => false
  end.

Lemma Marshal_None_bad_raw (m : Message) :
  (forall id, MID m = Some id -> id_ok id \/ id = NullID) ->
  Marshal m = None <-> bad_raw m.
Proof.
  intros Hid. unfold bad_raw, Marshal, Message_fields.
  assert (Hfid : exists fid,
    match MID m with
    | Some id => marshaler_field false "id" (ID_MarshalJSON id)
    | None => Some []
    end = Some fid).
  { destruct (MID m) as [id|]; [|by eexists].
    rewrite id_field_Some; [by eexists|by apply Hid]. }
  destruct Hfid as [fid ->].
  rewrite <- (raw_field_None "params"), <- (raw_field_None "result").
  destruct (raw_field "params" (Params m)) as [fp|];
    [|cbn; split; [by left|done]].
  destruct (raw_field "result" (Result m)) as [fr|];
    [|cbn; split; [by right; left|done]].
  destruct (MError m) as [e|]; cbn.
  + unfold Error_fields. destruct (raw_field "data" (Data e)) as [fd|] eqn:Hd; cbn.
    * split; [done|]. intros [H|[H|(e' & [= <-] & H)]]; try done.
      apply (raw_field_None "data") in H. congruence.
    * split; [|done]. intros _. right. right. exists e. split; [done|].
      by apply (raw_field_None "data").
  + split; [done|]. intros [H|[H|(e' & H & _)]]; done.
Qed.

(** What [Stream.Write] does once the message is marshalled, by the next
    two answers of the writer. *)
Lemma Stream_Write_marshalled (w : Writer) (m : Message) (body : string) :
  Marshal m = Some body ->
  match answers w with
  | Some n :: rest =>
      Stream_Write w m
      = (mkWriter (cat (written w) (String.substring 0 n (header_for body))) rest,
         Some ErrWritingHeader)
  | _ :: Some n :: rest =>
      Stream_Write w m
      = (mkWriter (cat (written w) (cat (header_for body) (String.substring 0 n body))) rest,
         Some ErrWritingBody)
  | _ =>
      Stream_Write w m
      = (mkWriter (cat (written w) (cat (header_for body) body)) (drop 2 (answers w)),
         None)
  end.
Proof.
  intros Hm. unfold Stream_Write. change (json_Marshal m) with (Marshal m). rewrite Hm.
  change (cat "Content-Length: " (cat (format_d (len body))
            (String "013" (String "010" (String "013" (String "010" EmptyString))))))
    with (header_for body).
  unfold Writer_Write. destruct (answers w) as [|[n|] [|[n'|] rest]];
    cbn [written answers drop]; by rewrite ?cat_assoc.
Qed.

(** X10. The errors of Stream.Write, on a writer that answers each call of
    Write by taking all the bytes or by failing after some of them, and for
    a message whose id, if any, is a number, an ASCII string or null.  It
    returns the marshalling error exactly when params, result or the data
    of the error is not empty and not valid JSON, and then it leaves the
    writer alone.  It returns the header error exactly when the message can
    be marshalled and the writer fails on the first write: the body is not
    handed over.  It returns the body error exactly when the first write
    went through and the second failed: the writer then holds a complete
    header that its body does not follow.  It returns nil exactly when none
    of this happens, and the writer then holds the header followed by the
    marshalled body. *)
Theorem Stream_Write_errors (w : Writer) (m : Message) :
  (forall id, MID m = Some id -> id_ok id \/ id = NullID) ->
  (snd (Stream_Write w m) = Some ErrMarshaling <-> bad_raw m) /\
  (bad_raw m -> fst (Stream_Write w m) = w) /\
  (snd (Stream_Write w m) = Some ErrWritingHeader <->
     ~ bad_raw m /\ refuses 0 w = true) /\
  (snd (Stream_Write w m) = Some ErrWritingBody <->
     ~ bad_raw m /\ refuses 0 w = false /\ refuses 1 w = true) /\
  (snd (Stream_Write w m) = None <->
     ~ bad_raw m /\ refuses 0 w = false /\ refuses 1 w = false) /\
  (forall body, Marshal m = Some body ->
     match snd (Stream_Write w m) with
     | None =>
         written (fst (Stream_Write w m)) = cat (written w) (cat (header_for body) body)
     | Some ErrWritingBody =>
         exists n, written (fst (Stream_Write w m))
                   = cat (written w) (cat (header_for body) (String.substring 0 n body))
     | Some ErrWritingHeader =>
         exists n, written (fst (Stream_Write w m))
                   = cat (written w) (String.substring 0 n (header_for body))
     | Some ErrMarshaling => False
     end).
Proof.
  intros Hid. pose proof (Marshal_None_bad_raw m Hid) as Hbad.
  destruct (Marshal m) as [body|] eqn:Hm.
  - assert (Hgood : ~ bad_raw m) by (intros Hb; apply Hbad in Hb; discriminate Hb).
    pose proof (Stream_Write_marshalled w m body Hm) as Hw.
    assert (Hsnd : snd (Stream_Write w m) =
                   if refuses 0 w then Some ErrWritingHeader
                   else if refuses 1 w then Some ErrWritingBody else None).
    { unfold refuses.
      destruct (answers w) as [|[n|] [|[n'|] rest]]; by rewrite Hw. }
    split_and!.
    + rewrite Hsnd. split; [|done]. by destruct (refuses 0 w), (refuses 1 w).
    + done.
    + rewrite Hsnd. destruct (refuses 0 w), (refuses 1 w); split; try done; by intros [_ ?].
    + rewrite Hsnd.
      destruct (refuses 0 w), (refuses 1 w); split; try done; by intros (_ & ? & ?).
    + rewrite Hsnd.
      destruct (refuses 0 w), (refuses 1 w); split; try done; by intros (_ & ? & ?).
    + intros body' [= <-].
      destruct (answers w) as [|[n|] [|[n'|] rest]]; rewrite Hw; cbn [fst snd written];
        by eauto.
  - assert (Hb : bad_raw m) by (by apply Hbad).
    assert (Hw : Stream_Write w m = (w, Some ErrMarshaling)).
    { unfold Stream_Write. change (json_Marshal m) with (Marshal m). by rewrite Hm. }
    rewrite Hw. cbn [fst snd].
    split_and!; try done; split; try done; by intros [? _].
Qed.

(** A response whose result is not JSON is not written, whatever the
    writer. *)
Lemma Stream_Write_errors_witness :
  Stream_Write (buffer EmptyString)
    (mkMessage "2.0" (Some (NewNumberID 1)) "" "" "{]" None)
  = (buffer EmptyString, Some ErrMarshaling).
Proof.
  pose proof (Stream_Write_errors (buffer EmptyString)
                (mkMessage "2.0" (Some (NewNumberID 1)) "" "" "{]" None)) as Hw.
  destruct Hw as (He & Hk & _).
  - intros id [= <-]. left. left. exists 1. split; [reflexivity|]. unfold in_int64. lia.
  - assert (Hb : bad_raw (mkMessage "2.0" (Some (NewNumberID 1)) "" "" "{]" None)).
    { right. left. split; [discriminate|]. by vm_compute. }
    apply He in Hb as Hs. apply Hk in Hb as Hf.
    destruct (Stream_Write _ _) as [w' e']. cbn in Hs, Hf. by subst.
Defined.

(** X11. A nil result, like nil params, is left out of what is written: the
    response that Reply makes for a nil result is written with the members
    jsonrpc and id and neither result nor error, and read back it is a
    response whose result is empty and whose error is nil. *)
Theorem nil_result_is_left_out (c : Conn) (id : ID) :
  id_ok id ->
  exists m,
    NewResponse id AnyNil = inr m /\
    Reply c id AnyNil None = (set_wire (wire c ++ [m]) c, None) /\
    Marshal m = Some (print_object [("jsonrpc", quote Version); ("id", ID_MarshalJSON id)]) /\
    Unmarshal (print_object [("jsonrpc", quote Version); ("id", ID_MarshalJSON id)])
      = Some m /\
    IsResponse m = true /\ Result m = EmptyString /\ MError m = None.
Proof.
  intros Hid. eexists. split; [reflexivity|]. split; [reflexivity|].
  assert (Hmar : Marshal (mkMessage Version (Some id) EmptyString EmptyString EmptyString None)
                 = Some (print_object [("jsonrpc", quote Version); ("id", ID_MarshalJSON id)])).
  { unfold Marshal, Message_fields. cbn [MID Params Result MError Method JSONRPC].
    rewrite id_field_Some by (by left). reflexivity. }
  split; [exact Hmar|]. split; [|done].
  destruct (codec_roundtrip (mkMessage Version (Some id) EmptyString EmptyString EmptyString None))
    as (body & Hb & Hun).
  { split; [done|]. split; [by intros i [= <-]|]. split; [done|].
    split; [by left|]. split; [by left|]. intros e He. discriminate He. }
  rewrite Hmar in Hb. inversion Hb; subst body. exact Hun.
Qed.

(** Reply with a nil result to the request with id 1. *)
Lemma nil_result_is_left_out_witness :
  exists m,
    Reply (NewConn None) (NewNumberID 1) AnyNil None
      = (set_wire [m] (NewConn None), None) /\
    Marshal m = Some (print_object [("jsonrpc", quote "2.0"); ("id", "1")]) /\
    Result m = EmptyString /\ MError m = None.
Proof.
  assert (H1 : id_ok (NewNumberID 1)).
  { left. exists 1. split; [reflexivity|]. unfold in_int64. lia. }
  destruct (nil_result_is_left_out (NewConn None) (NewNumberID 1) H1)
    as (m & _ & Hr & Hm & _ & _ & Hres & Herr).
  exists m. split; [exact Hr|]. split; [exact Hm|]. by split.
Defined.

End wire_facts.

(** ** The matcher set: registration order, and matching by one criterion *)

Module matcherset_facts.
Import GoStrings filematch filematch_facts.

Section Facts.
Context `{MatchLibs}.

Lemma compile_all_None pats : forall acc,
  compile_all pats acc = None <-> exists pat, pat ∈ pats /\ glob_Compile pat = None.
Proof.
  induction pats as [|pat pats IH]; intros acc; cbn.
  - split; [done|]. intros (pat & Hin & _). by apply elem_of_nil in Hin.
  - destruct (glob_Compile pat) as [g|] eqn:Hg.
    + rewrite IH. split.
      * intros (x & Hin & Hx). exists x. split; [by right|done].
      * intros (x & Hin & Hx). apply elem_of_cons in Hin as [->|Hin]; [congruence|].
        eauto.
    + split; [|done]. intros _. exists pat. split; [by left|done].
Qed.

Lemma Match_app ms x p e l :
  Match (ms ++ [x]) p e l =
    if existsb (fun y => Matches (matcher y) p e l) ms then Match ms p e l
    else if Matches (matcher x) p e l then name x else EmptyString.
Proof.
  induction ms as [|y ms IH]; cbn; [done|].
  destruct (Matches (matcher y) p e l); [done|]. exact IH.
Qed.

(** X12. Registration fails exactly when one of the patterns does not compile,
    whatever the extensions and language ids, and then changes nothing; a
    registration that succeeds never takes precedence over an earlier one:
    for an input that an earlier matcher accepts the answer stays the same,
    and for any other input the new matcher alone decides. *)
Theorem Add_keeps_earlier_matchers (ms : MatcherSet) (nm : string)
    (exts pats langs : list string) :
  (Add ms nm exts pats langs = None <->
   exists pat, pat ∈ pats /\ glob_Compile pat = None) /\
  (forall ms', Add ms nm exts pats langs = Some ms' ->
     exists m, New exts pats langs = Some m /\
       forall p e l,
         Match ms' p e l =
           if existsb (fun x => Matches (matcher x) p e l) ms then Match ms p e l
           else if Matches m p e l then nm else EmptyString).
Proof.
  unfold Add, New. split.
  - rewrite <- (compile_all_None pats []).
    destruct (compile_all pats []); split; done.
  - intros ms'. destruct (compile_all pats []) as [gs|]; [|done].
    intros [= <-]. eexists. split; [reflexivity|]. intros p e l. apply Match_app.
Qed.

Lemma Matches_ext_only m e :
  Matches m EmptyString e EmptyString = nonempty e && MatchesExtension m e.
Proof. unfold Matches. cbn. by destruct (nonempty e && MatchesExtension m e). Qed.

Lemma Matches_lang_only m l :
  Matches m EmptyString EmptyString l = nonempty l && MatchesLanguageID m l.
Proof. unfold Matches. cbn. by destruct (nonempty l && MatchesLanguageID m l). Qed.

(** X13. Matching by extension alone or by language id alone is matching with
    the other inputs empty, as long as the extension or language id is not
    empty itself; with all three inputs empty nothing matches.  Like Match,
    both return the name of the first matcher in registration order that
    matches, and the empty string when none does. *)
Theorem Match_by_one_criterion (ms : MatcherSet) (e l : string) :
  (e <> EmptyString -> Match ms EmptyString e EmptyString = MatchByExtension ms e) /\
  (l <> EmptyString -> Match ms EmptyString EmptyString l = MatchByLanguageID ms l) /\
  Match ms EmptyString EmptyString EmptyString = EmptyString /\
  MatchByExtension ms e =
    match List.find (fun x => MatchesExtension (matcher x) e) ms with
    | Some x => name x
    | None => EmptyString
    end /\
  MatchByLanguageID ms l =
    match List.find (fun x => MatchesLanguageID (matcher x) l) ms with
    | Some x => name x
    | None => EmptyString
    end.
Proof.
  split_and!.
  - intros He. apply nonempty_true in He.
    induction ms as [|x ms IH]; cbn [Match MatchByExtension]; [done|].
    rewrite Matches_ext_only, He. cbn [andb].
    destruct (MatchesExtension (matcher x) e); [done|exact IH].
  - intros Hl. apply nonempty_true in Hl.
    induction ms as [|x ms IH]; cbn [Match MatchByLanguageID]; [done|].
    rewrite Matches_lang_only, Hl. cbn [andb].
    destruct (MatchesLanguageID (matcher x) l); [done|exact IH].
  - induction ms as [|x ms IH]; cbn [Match]; [done|].
    rewrite Matches_ext_only. cbn. exact IH.
  - induction ms as [|x ms IH]; cbn; [done|].
    destruct (MatchesExtension (matcher x) e); [done|exact IH].
  - induction ms as [|x ms IH]; cbn; [done|].
    destruct (MatchesLanguageID (matcher x) l); [done|exact IH].
Qed.

End Facts.

End matcherset_facts.

(** ** The pool: what its operations do to one instance and to the others *)

Module pool_ops_facts.
Import GoStrings jsonrpc subprocess pool_facts.

(** The name an operation works on. *)
Definition op_name (op : PoolOp) : option string :=
  match op with
  | OpRegister nm _ _ => Some nm
  | OpGetOrStart _ nm _ _ => Some nm
  | OpStop nm _ => Some nm
  | OpRunFailed nm _ => Some nm
  | OpCancel _ => None
  end.

(** All the ways through [GetOrStart] once the instance is known and is
    neither Running nor Starting. *)
Ltac start_cases env ip :=
  destruct (build env) as [?|?] eqn:?; cbn;
  [|destruct (execute env) as [?|?] eqn:?; cbn;
    [|destruct ip as [?|]; cbn;
      [destruct (initialize env) as [?|?] eqn:?; cbn;
       [|destruct (parse_init env) as [?|?] eqn:?; cbn;
         [|destruct (initialized env) as [?|] eqn:?; cbn]]|]]].

(** What [GetOrStart] does to the map of instances: nothing, or it puts
    back the instance of that name with the same name, flake and
    arguments. *)
Lemma GetOrStart_record p dctx nm ip env :
  instances (fst (GetOrStart p dctx nm ip env)) = instances p \/
  exists inst inst',
    instances p !! nm = Some inst /\
    instances (fst (GetOrStart p dctx nm ip env)) = <[nm := inst']> (instances p) /\
    Name inst' = Name inst /\ Flake inst' = Flake inst /\ Args inst' = Args inst.
Proof.
  unfold GetOrStart. destruct (instances p !! nm) as [inst|] eqn:Hnm; [|by left].
  destruct (State inst) eqn:Hst; try (by left); right; exists inst;
    start_cases env ip; eexists; (split; [done|]); (split; [reflexivity|]); done.
Qed.

Lemma Stop_record p nm exited :
  instances (fst (Stop p nm exited)) = instances p \/
  exists inst inst',
    instances p !! nm = Some inst /\
    instances (fst (Stop p nm exited)) = <[nm := inst']> (instances p) /\
    Name inst' = Name inst /\ Flake inst' = Flake inst /\ Args inst' = Args inst.
Proof.
  unfold Stop. destruct (instances p !! nm) as [inst|] eqn:Hnm; [|by left].
  destruct (State inst); try (by left). right. exists inst. eexists.
  split; [done|]. split; [reflexivity|]. done.
Qed.

Lemma run_failed_record p nm err :
  instances (run_failed p nm err) = instances p \/
  exists inst inst',
    instances p !! nm = Some inst /\
    instances (run_failed p nm err) = <[nm := inst']> (instances p) /\
    Name inst' = Name inst /\ Flake inst' = Flake inst /\ Args inst' = Args inst.
Proof.
  unfold run_failed. destruct (instances p !! nm) as [inst|] eqn:Hnm; [|by left].
  right. exists inst. eexists. split; [done|]. split; [reflexivity|]. done.
Qed.

(** X14. An operation on one name never changes the record of another: the
    instances registered under the other names are exactly what they were,
    whether the operation registers, starts, stops or fails a backend. *)
Theorem operations_touch_one_instance (p : Pool) (op : PoolOp) (nm : string) :
  op_name op <> Some nm ->
  instances (apply_op p op) !! nm = instances p !! nm.
Proof.
  intros Hne. destruct op as [n fl args|dctx n ip env|n ex|n err|k]; cbn in *.
  - rewrite lookup_insert_ne; [done|congruence].
  - destruct (GetOrStart_record p dctx n ip env) as [->|(i & i' & _ & -> & _)]; [done|].
    rewrite lookup_insert_ne; [done|congruence].
  - destruct (Stop_record p n ex) as [->|(i & i' & _ & -> & _)]; [done|].
    rewrite lookup_insert_ne; [done|congruence].
  - destruct (run_failed_record p n err) as [->|(i & i' & _ & -> & _)]; [done|].
    rewrite lookup_insert_ne; [done|congruence].
  - done.
Qed.

(** Two registered backends: starting one leaves the other as it is. *)
Lemma operations_touch_one_instance_witness :
  let p := run_ops NewPool [OpRegister "gopls" "nixpkgs#gopls" [];
                            OpRegister "pyright" "nixpkgs#pyright" []] in
  instances (apply_op p (OpGetOrStart context.Background "gopls" None all_well))
    !! "pyright"
  = instances p !! "pyright".
Proof. cbv zeta. apply operations_touch_one_instance. discriminate. Defined.

(** The registrations made by a sequence of operations: for each name,
    the flake and the arguments of its last Register. *)
Definition registered (reg : gmap string (string * list string)) (op : PoolOp)
  : gmap string (string * list string) :=
  match op with
  | OpRegister nm flake args => <[nm := (flake, args)]> reg
  | _ => reg
  end.

Definition registration (nm : string) (i : LSPInstance) : string * string * list string :=
  (Name i, Flake i, Args i).

Definition agrees (p : Pool) (reg : gmap string (string * list string)) : Prop :=
  forall nm, registration nm <$> (instances p !! nm)
             = (fun fa => (nm, fst fa, snd fa)) <$> (reg !! nm).

Lemma agrees_put p reg nm inst inst' m :
  agrees p reg -> instances p !! nm = Some inst -> m = <[nm := inst']> (instances p) ->
  Name inst' = Name inst -> Flake inst' = Flake inst -> Args inst' = Args inst ->
  forall x, registration x <$> (m !! x) = (fun fa => (x, fst fa, snd fa)) <$> (reg !! x).
Proof.
  intros Ha Hnm -> Hn Hf Hg x. destruct (decide (nm = x)) as [->|Hne].
  - rewrite lookup_insert_eq. rewrite <- (Ha x), Hnm. cbn. unfold registration.
    by rewrite Hn, Hf, Hg.
  - rewrite lookup_insert_ne by done. apply Ha.
Qed.

Lemma agrees_step p reg op : agrees p reg -> agrees (apply_op p op) (registered reg op).
Proof.
  intros Ha. destruct op as [n fl args|dctx n ip env|n ex|n err|k]; cbn.
  - intros x. cbn. destruct (decide (n = x)) as [->|Hne].
    + by rewrite !lookup_insert_eq.
    + rewrite !lookup_insert_ne by done. apply Ha.
  - intros x.
    destruct (GetOrStart_record p dctx n ip env) as [->|(i & i' & Hi & Hm & H1 & H2 & H3)];
      [apply Ha|]. by eapply agrees_put.
  - intros x.
    destruct (Stop_record p n ex) as [->|(i & i' & Hi & Hm & H1 & H2 & H3)];
      [apply Ha|]. by eapply agrees_put.
  - intros x.
    destruct (run_failed_record p n err) as [->|(i & i' & Hi & Hm & H1 & H2 & H3)];
      [apply Ha|]. by eapply agrees_put.
  - exact Ha.
Qed.

Lemma agrees_run ops : forall p reg,
  agrees p reg -> agrees (run_ops p ops) (fold_left registered ops reg).
Proof.
  induction ops as [|op ops IH]; intros p reg Ha; cbn; [done|].
  apply IH. by apply agrees_step.
Qed.

(** X15. An instance is in the pool exactly when its name has been
    registered; it is never removed, and starting, stopping and failing
    never change its name, flake or arguments: they are those of the last
    Register of that name, and the name is the key it is stored under. *)
Theorem instance_keeps_its_registration (ops : list PoolOp) (nm : string) :
  match instances (run_ops NewPool ops) !! nm, fold_left registered ops ∅ !! nm with
  | Some inst, Some (flake, args) =>
      Name inst = nm /\ Flake inst = flake /\ Args inst = args
  | None, None => True
  | _, _ => False
  end.
Proof.
  assert (Ha : agrees NewPool ∅) by (intros x; cbn; by rewrite !lookup_empty).
  pose proof (agrees_run ops NewPool ∅ Ha nm) as Hnm.
  destruct (instances (run_ops NewPool ops) !! nm) as [inst|],
    (fold_left registered ops ∅ !! nm) as [[flake args]|]; cbn in Hnm; try done.
  by inversion Hnm.
Qed.

(** X16. The guard of LSPInstance.Call and LSPInstance.Notify lets through
    exactly the Running instances, and in every state the pool can reach
    such an instance has its session and its process: the call that follows
    the guard never meets a nil session. *)
Theorem guarded_call_has_a_session (ops : list PoolOp) (nm : string)
    (inst : LSPInstance) :
  instances (run_ops NewPool ops) !! nm = Some inst ->
  (Instance_guard inst = None <-> State inst = LSPStateRunning) /\
  (Instance_guard inst = None -> Conn inst <> None /\ Process inst <> None) /\
  (State inst <> LSPStateRunning ->
   Instance_guard inst =
     Some (errorString (cat "LSP " (cat (Name inst) " is not running")))).
Proof.
  intros Hnm.
  assert (Hinv : code_invariant inst).
  { eapply run_ops_invariant; [|exact Hnm].
    intros y i Hy. cbn in Hy. by rewrite lookup_empty in Hy. }
  unfold Instance_guard, code_invariant in *.
  destruct (State inst); split_and!; try done; try (split; done); try tauto.
Qed.

(** A backend that was registered and started. *)
Lemma guarded_call_has_a_session_witness :
  exists inst,
    instances (run_ops NewPool
      [OpRegister "gopls" "nixpkgs#gopls" [];
       OpGetOrStart context.Background "gopls" (Some "{}") all_well]) !! "gopls"
      = Some inst /\
    Instance_guard inst = None /\ Conn inst <> None /\ Process inst <> None.
Proof.
  eexists. split; [reflexivity|].
  destruct (guarded_call_has_a_session
              [OpRegister "gopls" "nixpkgs#gopls" [];
               OpGetOrStart context.Background "gopls" (Some "{}") all_well]
              "gopls" _ eq_refl) as (_ & H2 & _).
  split; [reflexivity|]. apply H2. reflexivity.
Defined.

(** X17. Stop acts on a Running instance only.  For an unknown name it returns
    an error and for an instance in any other state nil, and in both cases
    the pool is unchanged: in particular a Failed instance keeps the process
    and session it had.  After Stop the instance is not Running, and a second
    Stop changes nothing more and returns the same. *)
Theorem Stop_acts_on_running_only (p : Pool) (nm : string) (exited : bool) :
  (instances p !! nm = None ->
   Stop p nm exited = (p, Some (errorString (cat "unknown LSP: " nm)))) /\
  (forall inst, instances p !! nm = Some inst -> State inst <> LSPStateRunning ->
     Stop p nm exited = (p, None)) /\
  (forall inst', instances (fst (Stop p nm exited)) !! nm = Some inst' ->
     State inst' <> LSPStateRunning) /\
  (forall exited', Stop (fst (Stop p nm exited)) nm exited' =
     (fst (Stop p nm exited), snd (Stop p nm exited))).
Proof.
  unfold Stop. destruct (instances p !! nm) as [inst|] eqn:Hnm.
  - destruct (State inst) eqn:Hst; cbn; split_and!; try done;
      try (intros i [= <-]; congruence);
      try (intros i' Hi'; rewrite Hnm in Hi'; inversion Hi'; subst; congruence);
      try (intros ex'; by rewrite Hnm, Hst).
    + intros i' Hi'. rewrite lookup_insert_eq in Hi'. by inversion Hi'; subst.
    + intros ex'. by rewrite lookup_insert_eq.
  - cbn. split_and!; try done.
    + intros i' Hi'. congruence.
    + intros ex'. by rewrite Hnm.
Qed.

Lemma GetOrStart_Got p dctx nm ip env n :
  snd (GetOrStart p dctx nm ip env) = Got n ->
  n = nm /\ killed (fst (GetOrStart p dctx nm ip env)) = killed p /\
  exists inst, instances (fst (GetOrStart p dctx nm ip env)) !! nm = Some inst /\
    State inst = LSPStateRunning.
Proof.
  unfold GetOrStart. destruct (instances p !! nm) as [inst|] eqn:Hnm; [|done].
  destruct (State inst) eqn:Hst; try done; cbn;
    try (intros [= <-]; split; [done|]; split; [done|]; by exists inst);
    start_cases env ip; try done; intros [= <-];
    (split; [done|]); (split; [done|]); rewrite lookup_insert_eq; eexists;
    (split; [reflexivity|]); done.
Qed.

(** X18. Once GetOrStart has returned the instance, asking again with any
    context, parameters and outside world returns it again and changes
    nothing: no second build, no second process, no new context. *)
Theorem GetOrStart_again_changes_nothing (p : Pool) (dctx : context.Context)
    (nm : string) (initParams : option RawMessage) (env : StartEnv) (n : string) :
  snd (GetOrStart p dctx nm initParams env) = Got n ->
  forall dctx' initParams' env',
    GetOrStart (fst (GetOrStart p dctx nm initParams env)) dctx' nm initParams' env'
    = (fst (GetOrStart p dctx nm initParams env), Got nm).
Proof.
  intros Hg dctx' ip' env'.
  apply GetOrStart_Got in Hg as (_ & _ & inst & Hi & Hst).
  unfold GetOrStart at 1. by rewrite Hi, Hst.
Qed.

(** A second demand, in a world in which a start would fail. *)
Lemma GetOrStart_again_changes_nothing_witness :
  let p := fst (GetOrStart (Register NewPool "gopls" "nixpkgs#gopls" [])
                  context.Background "gopls" None all_well) in
  GetOrStart p context.Background "gopls" (Some "{}") init_fails = (p, Got "gopls").
Proof.
  cbv zeta.
  exact (GetOrStart_again_changes_nothing (Register NewPool "gopls" "nixpkgs#gopls" [])
           context.Background "gopls" None all_well "gopls" eq_refl
           context.Background (Some "{}") init_fails).
Defined.

(** X19. What GetOrStart has done when it returns.  It never calls a cancel
    function.  When it returns the instance, the instance is Running and no
    process was killed.  When it returns an error, either the name is
    unknown and nothing has changed, or the instance is Failed and holds the
    error; if the failure came before the process was spawned nothing was
    killed, and if it came after, that process has been killed and the
    instance still points to it and to its session. *)
Theorem GetOrStart_outcome (p : Pool) (dctx : context.Context) (nm : string)
    (initParams : option RawMessage) (env : StartEnv) :
  let p' := fst (GetOrStart p dctx nm initParams env) in
  context.cancelled (ctxs p') = context.cancelled (ctxs p) /\
  match snd (GetOrStart p dctx nm initParams env) with
  | Got n =>
      n = nm /\ killed p' = killed p /\
      exists inst, instances p' !! nm = Some inst /\ State inst = LSPStateRunning
  | Polling =>
      p' = p /\
      exists inst, instances p !! nm = Some inst /\ State inst = LSPStateStarting
  | GetErr e =>
      (instances p !! nm = None /\ p' = p /\
       e = errorString (cat "unknown LSP: " nm)) \/
      exists inst err,
        instances p' !! nm = Some inst /\ State inst = LSPStateFailed /\
        Error inst = Some err /\
        ((killed p' = killed p /\ (build env = inl err \/ execute env = inl err)) \/
         exists proc, execute env = inr proc /\ killed p' = killed p ++ [proc] /\
           Process inst = Some proc /\ Conn inst = Some (mkConnRef proc))
  end.
Proof.
  cbv zeta. split.
  { unfold GetOrStart. destruct (instances p !! nm) as [inst|]; [|done].
    destruct (State inst); try done; start_cases env initParams; done. }
  destruct (snd (GetOrStart p dctx nm initParams env)) as [n|e|] eqn:Hr.
  - by apply GetOrStart_Got.
  - revert Hr. unfold GetOrStart.
    destruct (instances p !! nm) as [inst|] eqn:Hnm; [|intros [= <-]; by left].
    destruct (State inst) eqn:Hst; try done; cbn;
      start_cases env initParams;
      match goal with
      | He : execute env = inr ?proc |- _ =>
          try done; intros _; right; do 2 eexists; rewrite lookup_insert_eq;
          (split; [reflexivity|]); (split; [reflexivity|]); (split; [reflexivity|]);
          right; exists proc; by split_and!
      | _ =>
          try done; intros _; right; do 2 eexists; rewrite lookup_insert_eq;
          (split; [reflexivity|]); (split; [reflexivity|]); (split; [reflexivity|]);
          left; split; [done|]; auto
      end.
  - revert Hr. unfold GetOrStart.
    destruct (instances p !! nm) as [inst|] eqn:Hnm; [|done].
    destruct (State inst) eqn:Hst; try done; cbn;
      try (intros _; split; [done|]; by exists inst);
      start_cases env initParams; done.
Qed.

(** X20. Register over an existing name replaces the instance by a new Idle
    one without stopping what was there: no process is killed and no context
    is cancelled, and since the new instance is Idle, Stop no longer reaches
    the process the old instance had. *)
Theorem Register_forgets_without_stopping (p : Pool) (nm flake : string)
    (args : list string) :
  let p' := Register p nm flake args in
  Get p' nm = Some (mkInstance nm flake args LSPStateIdle None None None 0 None None None) /\
  (forall nm', nm' <> nm -> Get p' nm' = Get p nm') /\
  killed p' = killed p /\ ctxs p' = ctxs p /\
  (forall exited, Stop p' nm exited = (p', None)).
Proof.
  cbv zeta. unfold Register, Get, set_instance. cbn. split_and!; try done.
  - apply lookup_insert_eq.
  - intros nm' Hne. by rewrite lookup_insert_ne.
  - intros ex. unfold Stop. cbn. by rewrite lookup_insert_eq.
Qed.

(** What Stop makes of a Running instance; any other is left alone. *)
Definition stopped (i : LSPInstance) : LSPInstance :=
  match State i with
  | LSPStateRunning =>
      with_caps None
        (with_proc None None (with_state LSPStateStopped (with_state LSPStateStopping i)))
  | _ => i
  end.

Lemma stopped_idemp i : stopped (stopped i) = stopped i.
Proof. unfold stopped. by destruct (State i) eqn:Hs; cbn; rewrite ?Hs. Qed.

Lemma Stop_lookup p n ex nm :
  instances (fst (Stop p n ex)) !! nm =
    if decide (n = nm) then stopped <$> (instances p !! nm) else instances p !! nm.
Proof.
  unfold Stop. destruct (decide (n = nm)) as [->|Hne].
  - destruct (instances p !! nm) as [inst|] eqn:Hnm; [|by rewrite ?Hnm].
    unfold stopped. destruct (State inst) eqn:Hst; cbn; rewrite ?Hnm, ?Hst; try done.
    by rewrite lookup_insert_eq.
  - destruct (instances p !! n) as [inst|]; [|done].
    destruct (State inst); try done. cbn. by rewrite lookup_insert_ne.
Qed.

Lemma Stop_grows p n ex :
  context.cancelled (ctxs p) ⊆ context.cancelled (ctxs (fst (Stop p n ex))) /\
  killed p `prefix_of` killed (fst (Stop p n ex)).
Proof.
  unfold Stop. destruct (instances p !! n) as [inst|]; [|done].
  destruct (State inst); try done. cbn. split.
  - destruct (cancel inst); cbn; [set_solver|done].
  - destruct (Process inst); [|done]. destruct ex; [done|]. by apply prefix_app_r.
Qed.

Lemma StopAll_cons p n names ex :
  StopAll p (n :: names) ex = StopAll (fst (Stop p n (ex n))) names ex.
Proof. reflexivity. Qed.

Lemma StopAll_grows names ex : forall p,
  context.cancelled (ctxs p) ⊆ context.cancelled (ctxs (StopAll p names ex)) /\
  killed p `prefix_of` killed (StopAll p names ex).
Proof.
  induction names as [|n names IH]; intros p; [done|].
  rewrite StopAll_cons. destruct (Stop_grows p n (ex n)) as [H1 H2].
  destruct (IH (fst (Stop p n (ex n)))) as [H3 H4]. split; by etrans.
Qed.

Lemma StopAll_lookup names ex nm : forall p,
  instances (StopAll p names ex) !! nm =
    if bool_decide (nm ∈ names) then stopped <$> (instances p !! nm)
    else instances p !! nm.
Proof.
  induction names as [|n names IH]; intros p.
  - rewrite bool_decide_false; [done|]. apply not_elem_of_nil.
  - rewrite StopAll_cons, IH, Stop_lookup.
    destruct (decide (n = nm)) as [->|Hne].
    + rewrite (bool_decide_true (nm ∈ nm :: names)) by (by left).
      case_bool_decide; [|done].
      destruct (instances p !! nm); cbn; [|done]. by rewrite stopped_idemp.
    + case_bool_decide as Hin.
      * rewrite bool_decide_true; [done|by right].
      * rewrite bool_decide_false; [done|]. intros Hc.
        apply elem_of_cons in Hc as [->|Hc]; done.
Qed.

Lemma StopAll_releases names ex nm inst : forall p,
  nm ∈ names -> instances p !! nm = Some inst -> State inst = LSPStateRunning ->
  (forall k, cancel inst = Some k ->
     k ∈ context.cancelled (ctxs (StopAll p names ex))) /\
  (forall proc, Process inst = Some proc -> ex nm = false ->
     proc ∈ killed (StopAll p names ex)).
Proof.
  induction names as [|n names IH]; intros p Hin Hnm Hst.
  - by apply elem_of_nil in Hin.
  - rewrite StopAll_cons. destruct (decide (n = nm)) as [->|Hne].
    + destruct (StopAll_grows names ex (fst (Stop p nm (ex nm)))) as [Hc Hk].
      split.
      * intros k Hk'. apply Hc. unfold Stop. rewrite Hnm, Hst. cbn. rewrite Hk'.
        cbn. apply elem_of_union. left. by apply elem_of_singleton.
      * intros proc Hp Hex. eapply elem_of_prefix; [|exact Hk].
        unfold Stop. rewrite Hnm, Hst. cbn. rewrite Hp, Hex.
        apply elem_of_app. right. by left.
    + apply IH; [|by rewrite Stop_lookup, decide_False|done].
      apply elem_of_cons in Hin as [->|Hin]; done.
Qed.

(** X21. StopAll stops every instance it visits.  An instance under a name
    that the range yields is afterwards not Running; if it was Running it
    is Stopped with process, session and capabilities cleared, its cancel
    function has been called, and its process has been killed if it did not
    exit in time; an instance in any other state, or under a name the range
    did not yield, is exactly what it was. *)
Theorem StopAll_leaves_none_running (p : Pool) (names : list string)
    (exited : string -> bool) (nm : string) (inst : LSPInstance) :
  instances p !! nm = Some inst ->
  (nm ∉ names -> instances (StopAll p names exited) !! nm = Some inst) /\
  (nm ∈ names ->
   exists inst',
     instances (StopAll p names exited) !! nm = Some inst' /\
     State inst' <> LSPStateRunning /\
     (State inst <> LSPStateRunning -> inst' = inst) /\
     (State inst = LSPStateRunning ->
        State inst' = LSPStateStopped /\ Process inst' = None /\ Conn inst' = None /\
        Capabilities inst' = None /\
        (forall k, cancel inst = Some k ->
           k ∈ context.cancelled (ctxs (StopAll p names exited))) /\
        (forall proc, Process inst = Some proc -> exited nm = false ->
           proc ∈ killed (StopAll p names exited)))).
Proof.
  intros Hnm. rewrite StopAll_lookup, Hnm. split.
  - intros Hout. by rewrite bool_decide_false.
  - intros Hin. rewrite bool_decide_true by done. exists (stopped inst).
    split; [done|]. unfold stopped. split_and!.
    + by destruct (State inst) eqn:Hs; cbn; rewrite ?Hs.
    + by destruct (State inst).
    + intros Hs. rewrite Hs. cbn. split_and!; try done;
        by apply (StopAll_releases names exited nm inst p).
Qed.

(** A running backend whose process does not exit in time. *)
Lemma StopAll_leaves_none_running_witness :
  let p := run_ops NewPool
             [OpRegister "gopls" "nixpkgs#gopls" [];
              OpGetOrStart context.Background "gopls" None all_well] in
  exists inst',
    instances (StopAll p ["gopls"] (fun _ => false)) !! "gopls" = Some inst' /\
    State inst' = LSPStateStopped /\ Process inst' = None /\
    1%nat ∈ killed (StopAll p ["gopls"] (fun _ => false)).
Proof.
  cbv zeta.
  destruct (StopAll_leaves_none_running
              (run_ops NewPool
                 [OpRegister "gopls" "nixpkgs#gopls" [];
                  OpGetOrStart context.Background "gopls" None all_well])
              ["gopls"] (fun _ => false) "gopls" _ eq_refl) as [_ H].
  destruct (H ltac:(by left)) as (inst' & H1 & _ & _ & H4).
  destruct (H4 eq_refl) as (Hs & Hp & _ & _ & _ & Hk).
  exists inst'. split; [exact H1|]. split; [exact Hs|]. split; [exact Hp|].
  exact (Hk 1%nat eq_refl eq_refl).
Defined.

End pool_ops_facts.

(** ** The capability caches *)

Module cache_facts.
Import GoStrings lsp capabilities strings_facts.

Lemma get_cat_r k s j : String.get (String.length k + j) (cat k s) = String.get j s.
Proof. induction k as [|c k IH]; cbn; [done|exact IH]. Qed.

Lemma substring_cat_r k s m :
  String.substring (String.length k) m (cat k s) = String.substring 0 m s.
Proof. induction k as [|c k IH]; cbn; [done|exact IH]. Qed.

Lemma substring_cat_l k s : String.substring 0 (String.length k) (cat k s) = k.
Proof.
  induction k as [|c k IH]; cbn; [by destruct s|]. by rewrite IH.
Qed.

Lemma substring_full s : String.substring 0 (String.length s) s = s.
Proof. induction s as [|c s IH]; cbn; [done|]. by rewrite IH. Qed.

Lemma substring_split s : forall i, (i <= String.length s)%nat ->
  s = cat (String.substring 0 i s) (String.substring i (String.length s - i) s).
Proof.
  induction s as [|c s IH]; intros i Hi.
  - cbn in Hi. assert (i = 0%nat) by lia. by subst.
  - destruct i as [|i].
    + cbn [String.substring cat]. rewrite Nat.sub_0_r.
      change (String.length (String c s)) with (S (String.length s)).
      cbn [String.substring]. by rewrite substring_full.
    + cbn in Hi. cbn [String.substring cat String.length Nat.sub].
      f_equal. apply IH. lia.
Qed.

Lemma length_substring s : forall i m, (i + m <= String.length s)%nat ->
  String.length (String.substring i m s) = m.
Proof.
  induction s as [|c s IH]; intros i m Him.
  - cbn in Him. assert (i = 0%nat) by lia. assert (m = 0%nat) by lia. by subst.
  - destruct i as [|i]; cbn [String.substring].
    + destruct m as [|m]; [done|]. cbn. f_equal. apply IH. cbn in Him. lia.
    + apply IH. cbn in Him. lia.
Qed.

(** What the loop of [Ext] returns when it returns something. *)
Lemma Ext_loop_found path e : forall n,
  filepath.Ext_loop n path = e -> e <> EmptyString ->
  exists i, (i < n)%nat /\ e = String.substring i (String.length path - i) path.
Proof.
  induction n as [|i IH]; cbn [filepath.Ext_loop]; [congruence|].
  destruct (String.get i path) as [c|]; [|congruence].
  destruct (eqb_char c "/"); [congruence|].
  destruct (eqb_char c ".").
  - intros <- _. exists i. split; [lia|done].
  - intros He Hne. destruct (IH He Hne) as (j & Hj & ->). exists j. split; [lia|done].
Qed.

Lemma Ext_json_inv name :
  filepath.Ext name = ".json" ->
  name = cat (String.substring 0 (String.length name - 5) name) ".json".
Proof.
  intros He. unfold filepath.Ext in He.
  destruct (Ext_loop_found name ".json" _ He ltac:(done)) as (i & Hi & Hs).
  assert (Hlen : (String.length name - i = 5)%nat).
  { pose proof (length_substring name i (String.length name - i) ltac:(lia)) as Hl.
    rewrite <- Hs in Hl. cbn in Hl. lia. }
  pose proof (substring_split name i ltac:(lia)) as Hsp.
  rewrite <- Hs in Hsp.
  replace (String.length name - 5)%nat with i by lia. exact Hsp.
Qed.

Lemma Ext_json k : filepath.Ext (cat k ".json") = ".json".
Proof.
  unfold filepath.Ext. rewrite length_cat.
  replace (String.length k + String.length ".json")%nat
    with (S (String.length k + 4)) by (cbn; lia).
  cbn [filepath.Ext_loop]. rewrite get_cat_r. cbn [String.get Nat.eqb].
  change (eqb_char "n" "/") with false. change (eqb_char "n" ".") with false. cbn match.
  replace (String.length k + 4)%nat with (S (String.length k + 3)) by lia.
  cbn [filepath.Ext_loop]. rewrite get_cat_r. cbn [String.get].
  change (eqb_char "o" "/") with false. change (eqb_char "o" ".") with false. cbn match.
  replace (String.length k + 3)%nat with (S (String.length k + 2)) by lia.
  cbn [filepath.Ext_loop]. rewrite get_cat_r. cbn [String.get].
  change (eqb_char "s" "/") with false. change (eqb_char "s" ".") with false. cbn match.
  replace (String.length k + 2)%nat with (S (String.length k + 1)) by lia.
  cbn [filepath.Ext_loop]. rewrite get_cat_r. cbn [String.get].
  change (eqb_char "j" "/") with false. change (eqb_char "j" ".") with false. cbn match.
  replace (String.length k + 1)%nat with (S (String.length k + 0)) by lia.
  cbn [filepath.Ext_loop]. rewrite get_cat_r. cbn [String.get].
  change (eqb_char "." "/") with false. change (eqb_char "." ".") with true. cbn match.
  rewrite Nat.add_0_r, length_cat.
  replace (String.length k + String.length ".json" - String.length k)%nat with 5%nat
    by (cbn; lia).
  by rewrite substring_cat_r.
Qed.

Lemma cat_inj_l a b s : cat a s = cat b s -> a = b.
Proof.
  revert b. induction a as [|c a IH]; intros [|d b] Heq; cbn in Heq; try done.
  - apply (f_equal String.length) in Heq. cbn in Heq. rewrite length_cat in Heq. lia.
  - apply (f_equal String.length) in Heq. cbn in Heq. rewrite length_cat in Heq. lia.
  - inversion Heq; subst. f_equal. by apply IH.
Qed.

Section Facts.
Context `{CacheEnv}.

(** An entry that is the cache file of the backend [k]. *)
Definition is_cache_of (k : string) (entry : DirEntry) : bool :=
  negb (entry_IsDir entry) && String.eqb (entry_Name entry) (cat k ".json").

Lemma load_entries_lookup k entries : forall acc,
  load_entries entries acc !! k =
    if existsb (is_cache_of k) entries then
      match LoadCache k with
      | Some cache => Some cache
      | None => acc !! k
      end
    else acc !! k.
Proof.
  induction entries as [|entry entries IH]; intros acc; cbn [load_entries existsb]; [done|].
  unfold is_cache_of at 1. destruct (entry_IsDir entry); cbn [negb andb orb]; [apply IH|].
  destruct (String.eqb (filepath.Ext (entry_Name entry)) ".json") eqn:He.
  - apply String.eqb_eq, Ext_json_inv in He.
    set (lspName := String.substring 0 (String.length (entry_Name entry) - 5)
                      (entry_Name entry)) in *.
    destruct (String.eqb (entry_Name entry) (cat k ".json")) eqn:Hk; cbn [orb].
    + apply String.eqb_eq in Hk. assert (Hl : lspName = k).
      { apply (cat_inj_l _ _ ".json"). by rewrite <- He, Hk. }
      clearbody lspName. subst lspName.
      destruct (LoadCache k) as [cache|] eqn:Hc; rewrite IH.
      * rewrite lookup_insert_eq. by destruct (existsb _ _).
      * by destruct (existsb _ _).
    + assert (Hne : lspName <> k).
      { intros <-. rewrite <- He in Hk. by rewrite String.eqb_refl in Hk. }
      destruct (LoadCache lspName) as [cache|]; rewrite IH; [|done].
      by rewrite lookup_insert_ne.
  - destruct (String.eqb (entry_Name entry) (cat k ".json")) eqn:Hk; cbn [orb]; [|apply IH].
    apply String.eqb_eq in Hk. rewrite Hk, Ext_json in He. done.
Qed.

(** X22. LoadAllCached returns the caches of the regular files of the
    directory whose name ends in .json, each under the file name without
    that ending, and leaves out those whose cache does not load; a directory
    that does not exist gives the empty map and no error, any other failure
    to list it is returned. *)
Theorem LoadAllCached_lists_the_json_files (entries : list DirEntry) (err : string)
    (k : string) (cache : CachedCapabilities) :
  LoadAllCached DirNotExist = inr ∅ /\
  LoadAllCached (DirError err) = inl err /\
  exists result,
    LoadAllCached (DirEntries entries) = inr result /\
    (result !! k = Some cache <->
     LoadCache k = Some cache /\
     exists entry, entry ∈ entries /\ entry_IsDir entry = false /\
       entry_Name entry = cat k ".json").
Proof.
  split; [done|]. split; [done|]. eexists. split; [reflexivity|].
  rewrite load_entries_lookup, lookup_empty.
  destruct (existsb (is_cache_of k) entries) eqn:Hex.
  - apply existsb_exists in Hex as (entry & Hin & Hc).
    apply andb_true_iff in Hc as [Hd Hn]. apply negb_true_iff in Hd.
    apply String.eqb_eq in Hn. apply list_elem_of_In in Hin.
    destruct (LoadCache k) as [c|]; split; try done.
    + intros [= ->]. split; [done|]. eauto.
    + by intros [[= ->] _].
    + by intros [? _].
  - split; [done|]. intros (_ & entry & Hin & Hd & Hn).
    assert (existsb (is_cache_of k) entries = true); [|congruence].
    apply existsb_exists. exists entry. split; [by apply list_elem_of_In|].
    unfold is_cache_of. rewrite Hd, Hn. cbn. apply String.eqb_refl.
Qed.

Lemma collect_caps_omap names : forall caps,
  collect_caps names caps = caps ++ omap (fun nm => Capabilities <$> LoadCache nm) names.
Proof.
  induction names as [|nm names IH]; intros caps; cbn.
  - by rewrite app_nil_r.
  - destruct (LoadCache nm) as [cache|]; cbn; rewrite IH; [|done].
    by rewrite <- app_assoc.
Qed.

(** X23. AggregateCapabilities merges the capabilities of the names whose
    cache loads, in the order of the names, and falls back to the defaults
    only when none loads; the names whose cache does not load play no part:
    leaving them out gives the same result. *)
Theorem AggregateCapabilities_merges_what_loads (names : list string) :
  let loaded := omap (fun nm => Capabilities <$> LoadCache nm) names in
  AggregateCapabilities names =
    match loaded with
    | [] => defaultCapabilities
    | _ => MergeCapabilities loaded
    end /\
  AggregateCapabilities names =
    AggregateCapabilities
      (List.filter (fun nm => match LoadCache nm with Some _ => true | None => false end)
         names).
Proof.
  cbv zeta.
  assert (Hagg : forall ns, AggregateCapabilities ns =
    match omap (fun nm => Capabilities <$> LoadCache nm) ns with
    | [] => defaultCapabilities
    | loaded => MergeCapabilities loaded
    end).
  { intros ns. unfold AggregateCapabilities. rewrite collect_caps_omap. cbn [app].
    by destruct (omap _ ns). }
  split; [rewrite Hagg; by destruct (omap _ names)|]. rewrite !Hagg.
  assert (Hf : omap (fun nm => Capabilities <$> LoadCache nm)
                 (List.filter (fun nm => match LoadCache nm with
                                         | Some _ => true | None => false end) names)
               = omap (fun nm => Capabilities <$> LoadCache nm) names).
  { induction names as [|nm names IH]; cbn; [done|].
    destruct (LoadCache nm) as [cache|] eqn:Hc; cbn; rewrite ?Hc; cbn; by rewrite IH. }
  by rewrite Hf.
Qed.

(** VerifyCapabilities never reports a mismatch: whatever the cache holds
    and whatever the server announced, it returns a match and no
    warning. *)
Theorem VerifyCapabilities_never_warns (name : string) (actual : ServerCapabilities) :
  VerifyCapabilities name actual = (true, []) /\
  (forall other, VerifyCapabilities name other = VerifyCapabilities name actual).
Proof.
  unfold VerifyCapabilities. by destruct (LoadCache name).
Qed.

End Facts.

End cache_facts.

(** ** The line transport of package mcp, the tool registry, the logger *)

Module mcp_facts.
Import GoStrings jsonrpc gojson mcp strings_facts codec_facts roundtrip_facts.




































Lemma find_append {A} (f : A -> bool) l1 l2 :
  List.find f (l1 ++ l2) =
    match List.find f l1 with Some x => Some x | None => List.find f l2 end.
Proof. induction l1 as [|a l1 IH]; cbn; [done|]. by destruct (f a). Qed.

Section Registry.
Context {ToolCallResult : Type} (ErrorResult : string -> ToolCallResult).

(** One call of [register]: name, description, schema, handler. *)
Definition Registration : Type :=
  string * string * RawMessage * @ToolHandler ToolCallResult.

Definition reg_name (g : Registration) : string := fst (fst (fst g)).
Definition reg_tool (g : Registration) : Tool :=
  mkTool (reg_name g) (snd (fst (fst g))) (snd (fst g)).

Definition register_all (r : ToolRegistry) (regs : list Registration) : ToolRegistry :=
  fold_left (fun r g => register r (reg_name g) (snd (fst (fst g))) (snd (fst g)) (snd g))
    regs r.

Lemma register_all_spec regs : forall r,
  tools (register_all r regs) = tools r ++ map reg_tool regs /\
  forall name,
    handlers (register_all r regs) !! name =
      match List.find (fun g => String.eqb (reg_name g) name) (rev regs) with
      | Some g => Some (snd g)
      | None => handlers r !! name
      end.
Proof.
  induction regs as [|g regs IH]; intros r; cbn.
  - by rewrite app_nil_r.
  - destruct (IH (register r (reg_name g) (snd (fst (fst g))) (snd (fst g)) (snd g)))
      as [Ht Hh]. split.
    + unfold register_all in Ht. rewrite Ht. cbn. by rewrite <- app_assoc.
    + intros name. unfold register_all in Hh. rewrite Hh.
      rewrite find_append.
      destruct (List.find _ (rev regs)) as [g'|]; [done|]. cbn.
      destruct (String.eqb (reg_name g) name) eqn:Hn.
      * apply String.eqb_eq in Hn. subst name. by rewrite lookup_insert_eq.
      * apply String.eqb_neq in Hn. by rewrite lookup_insert_ne.
Qed.

(** X26. After any sequence of registrations, the tools are listed in the
    order registered, every listed tool can be called, and calling it runs
    the handler of the last registration under its name; a name that was
    never registered gets the unknown-tool result and no Go error. *)
Theorem listed_tools_are_callable (regs : list Registration) (name : string)
    (args : RawMessage) :
  let r := register_all emptyRegistry regs in
  List r = map reg_tool regs /\
  (name ∉ map reg_name regs ->
   Call ErrorResult r name args = (ErrorResult (cat "unknown tool: " name), None)) /\
  (forall t, t ∈ List r ->
     exists pre g post,
       regs = pre ++ g :: post /\ reg_name g = Name t /\
       (Name t ∉ map reg_name post) /\
       Call ErrorResult r (Name t) args = snd g args).
Proof.
  cbv zeta. destruct (register_all_spec regs emptyRegistry) as [Ht Hh].
  unfold List. rewrite Ht. cbn [tools emptyRegistry app]. split; [done|].
  assert (Hfind : forall n,
    match List.find (fun g => String.eqb (reg_name g) n) (rev regs) with
    | Some g => exists pre post, regs = pre ++ g :: post /\ reg_name g = n /\
                  n ∉ map reg_name post
    | None => n ∉ map reg_name regs
    end).
  { intros n. clear Ht Hh. induction regs as [|g regs IH] using rev_ind; cbn.
    - apply not_elem_of_nil.
    - rewrite rev_app_distr. cbn.
      destruct (String.eqb (reg_name g) n) eqn:Hn.
      + apply String.eqb_eq in Hn. exists regs, []. split; [done|]. split; [done|].
        apply not_elem_of_nil.
      + apply String.eqb_neq in Hn.
        destruct (List.find _ (rev regs)) as [g'|].
        * destruct IH as (pre & post & -> & Hg & Hp).
          exists pre, (post ++ [g]). rewrite <- app_assoc. split; [done|]. split; [done|].
          rewrite map_app. cbn. intros Hc. apply elem_of_app in Hc as [Hc|Hc]; [done|].
          apply list_elem_of_singleton in Hc. congruence.
        * rewrite map_app. cbn. intros Hc. apply elem_of_app in Hc as [Hc|Hc]; [done|].
          apply list_elem_of_singleton in Hc. congruence. }
  split.
  - intros Hout. unfold Call. rewrite Hh. cbn. specialize (Hfind name).
    destruct (List.find _ (rev regs)) as [g|]; [|by rewrite lookup_empty].
    destruct Hfind as (pre & post & -> & Hg & _). exfalso. apply Hout.
    rewrite map_app. apply elem_of_app. right. cbn. rewrite Hg. by left.
  - intros t Ht'. apply list_elem_of_fmap in Ht' as (g0 & -> & Hin).
    specialize (Hfind (reg_name g0)). unfold Call. rewrite Hh. cbn [reg_tool Name].
    destruct (List.find _ (rev regs)) as [g|].
    + destruct Hfind as (pre & post & -> & Hg & Hp). by exists pre, g, post.
    + exfalso. apply Hfind. by apply list_elem_of_fmap_2.
Qed.

End Registry.

End mcp_facts.

(** ** The stderr logger *)

Module logger_facts.
Import GoStrings subprocess strings_facts.

(** The reads [Run] makes: up to and including the first that returns an
    error. *)
Fixpoint reads_made (reads : list ReadResult) : list ReadResult :=
  match reads with
  | [] => []
  | rd :: rest => rd :: (if read_err rd then [] else reads_made rest)
  end.

(** Every second write: what is written between the prefixes. *)
Fixpoint data_written (writes : list string) : list string :=
  match writes with
  | _ :: data :: rest => data :: data_written rest
  | _ => []
  end.

(** The reads that returned bytes. *)
Definition with_bytes (reads : list ReadResult) : list ReadResult :=
  List.filter (fun rd => negb (String.eqb (read_bytes rd) EmptyString)) reads.

Lemma cat_chunks_with_bytes reads :
  fold_right cat EmptyString (map read_bytes (with_bytes reads))
  = fold_right cat EmptyString (map read_bytes reads).
Proof.
  induction reads as [|rd reads IH]; [done|]. cbn [with_bytes List.filter].
  destruct (read_bytes rd) as [|c data] eqn:Hd; cbn [String.eqb negb map fold_right].
  - rewrite Hd. exact IH.
  - fold (with_bytes reads). by rewrite Hd, IH.
Qed.

(** X27. The logger loses no byte and adds only its prefix, one pair of
    writes for each read that returned bytes (not one for each line): the
    writes are, for each read made that returned bytes and in the order of
    the reads, the prefix with the name and then the bytes of that read in
    one piece.  So the chunks written between the prefixes are the bytes of
    those reads, none of them empty; put together they are the bytes of all
    the reads made, including the bytes that came along with the error that
    ends the loop; and there are twice as many writes as reads that
    returned bytes. *)
Theorem StderrLogger_writes_every_byte (name : string) (reads : list ReadResult) :
  let writes := StderrLogger_Run name reads in
  writes = flat_map (fun rd => [cat "[" (cat name "] "); read_bytes rd])
             (with_bytes (reads_made reads)) /\
  data_written writes = map read_bytes (with_bytes (reads_made reads)) /\
  Forall (fun data => data <> EmptyString) (data_written writes) /\
  fold_right cat EmptyString (data_written writes)
  = fold_right cat EmptyString (map read_bytes (reads_made reads)) /\
  length writes = (2 * length (with_bytes (reads_made reads)))%nat.
Proof.
  cbv zeta.
  assert (H1 : StderrLogger_Run name reads
               = flat_map (fun rd => [cat "[" (cat name "] "); read_bytes rd])
                   (with_bytes (reads_made reads))).
  { induction reads as [|rd reads IH]; [done|].
    cbn [StderrLogger_Run reads_made with_bytes List.filter].
    destruct (read_bytes rd) as [|c data] eqn:Hd; cbn [String.eqb negb].
    - destruct (read_err rd); [done|]. exact IH.
    - destruct (read_err rd); cbn [List.filter flat_map app]; rewrite Hd; [done|].
      cbn [app]. do 2 f_equal. exact IH. }
  assert (H2 : forall l, data_written
                 (flat_map (fun rd => [cat "[" (cat name "] "); read_bytes rd]) l)
               = map read_bytes l).
  { induction l as [|rd l IH]; [done|]. cbn [flat_map app data_written map]. by rewrite IH. }
  rewrite H1, H2. clear H1. split_and!; try done.
  - induction (reads_made reads) as [|rd l IH]; [constructor|].
    cbn [with_bytes List.filter]. destruct (read_bytes rd) as [|c data] eqn:Hd;
      cbn [String.eqb negb]; [exact IH|].
    cbn [map]. rewrite Hd. by constructor.
  - apply cat_chunks_with_bytes.
  - induction (with_bytes (reads_made reads)) as [|rd l IH]; [done|].
    cbn [flat_map app length]. rewrite IH. lia.
Qed.

End logger_facts.
